(** * Option pricing and analytics: the pricing engine

    A shallow embedding of [pricing_engine.py] (the Black-Scholes-Merton
    pricer and its Greeks, the implied-volatility solver, the
    Barone-Adesi-Whaley approximation, the binomial and trinomial lattices
    with their [price]), of the dispatch of [app.py]'s [price_option] and
    [implied_vol], and of [vectorized.py]'s
    [calibrate_implied_volatilities].

    Modelling choices.
    - A Python [float] is a real number ([float] below is [R]): rounding,
      overflow, infinities and NaN are outside the model.  Every equation
      proved here is an equation of real arithmetic.  In particular a test
      or a division whose outcome depends on two computed floats being
      exactly equal (the root of the BAW quadratic being 1) is decided here
      on the real values; what is proved about such a boundary is stated on
      the computed value, or at inputs whose floating-point computation is
      exact, not on the set of inputs that reach it in real arithmetic.
    - A Python [int] is a [Z], a [str] is a [string], a [dict] with string
      keys is a [gmap string _], a 2-d numpy array is a list of rows, a 1-d
      numpy array a list; [np.nan] in a column of results is [None].
    - A function that can raise returns a [result]: [Ok v] or [Raise e].
      The operations that raise in Python raise here at the same place:
      [/] on a zero divisor ([ZeroDivisionError]), [math.sqrt] and
      [math.log] outside their domain ([ValueError]), numpy indexing out of
      range ([IndexError]).
    - [scipy.stats.norm] is the standard normal law: [norm.pdf] is its
      density and [norm.cdf] its distribution function. *)

From Stdlib Require Import Reals Lra Lia ZArith String Ascii.
From stdpp Require Import base decidable option list gmap strings.

#[local] Open Scope R_scope.

(** ** Python values and exceptions *)

Abbreviation float := R (only parsing).

Inductive exn : Type :=
| ValueError (msg : string)
| ZeroDivisionError
| IndexError
| ComplexResult.
(* [ComplexResult] is not a Python exception: it marks the one place where
   Python leaves the floats, [x ** y] for a negative [x] and a fractional
   [y], whose value is a complex number. *)

Inductive result (A : Type) : Type :=
| Ok (a : A)
| Raise (e : exn).
Arguments Ok {A} a.
Arguments Raise {A} e.

#[global] Instance result_ret : MRet result := @Ok.
#[global] Instance result_bind : MBind result := fun A B f m =>
  match m with
  | Ok a => f a
  | Raise e => Raise e
  end.
#[global] Instance result_fmap : FMap result := fun A B f m =>
  match m with
  | Ok a => Ok (f a)
  | Raise e => Raise e
  end.

Definition is_ValueError {A} (m : result A) : Prop :=
  exists msg, m = Raise (ValueError msg).

(** Comparisons of floats are decided as Python decides them. *)
#[global] Instance Req_decision : EqDecision R := Req_dec_T.
#[global] Instance Rle_decision (x y : R) : Decision (x <= y) := Rle_dec x y.
#[global] Instance Rlt_decision (x y : R) : Decision (x < y) := Rlt_dec x y.
#[global] Instance Rge_decision (x y : R) : Decision (x >= y) := Rge_dec x y.
#[global] Instance Rgt_decision (x y : R) : Decision (x > y) := Rgt_dec x y.

(** [x / y] on floats. *)
Definition truediv (x y : float) : result float :=
  if decide (y = 0) then Raise ZeroDivisionError else Ok (x / y).

(** The builtin [max(a, b)]: the first of the largest arguments. *)
Definition py_max (a b : float) : float :=
  if decide (b > a) then b else a.

(** [x ** y] on floats. *)
Definition is_integral (y : float) : Prop := IZR (Int_part y) = y.

Definition py_pow (x y : float) : result float :=
  if decide (0 < x) then Ok (Rpower x y)
  else if decide (x = 0) then
    (if decide (0 < y) then Ok 0
     else if decide (y = 0) then Ok 1
     else Raise ZeroDivisionError)
  else if decide (is_integral y) then
    Ok (if Z.even (Int_part y) then Rpower (- x) y else - Rpower (- x) y)
  else Raise ComplexResult.

(** [str.lower()], on ASCII. *)
Definition ascii_lower (a : ascii) : ascii :=
  let n := nat_of_ascii a in
  if (65 <=? n)%nat && (n <=? 90)%nat then ascii_of_nat (n + 32) else a.

Fixpoint lower (s : string) : string :=
  match s with
  | EmptyString => EmptyString
  | String a s' => String (ascii_lower a) (lower s')
  end.

(** [for x in xs: body], threading the state the body updates. *)
Fixpoint for_each {A St : Type} (xs : list A) (body : A -> St -> result St)
    (s : St) : result St :=
  match xs with
  | [] => Ok s
  | x :: xs' => s' ← body x s; for_each xs' body s'
  end.

(** [range(lo, hi)]. *)
Definition range (lo hi : Z) : list Z := seqZ lo (hi - lo).

(** ** The [math] module *)
Module math.

Definition exp (x : float) : float := Rtrigo_def.exp x.

Definition sqrt (x : float) : result float :=
  if decide (x < 0) then Raise (ValueError "math domain error")
  else Ok (R_sqrt.sqrt x).

Definition log (x : float) : result float :=
  if decide (x <= 0) then Raise (ValueError "math domain error")
  else Ok (ln x).

End math.

(** ** [scipy.stats.norm] *)
Module norm.

(** The density [exp(-x**2/2) / sqrt(2*pi)]. *)
Definition pdf (x : float) : float := exp (- x ^ 2 / 2) / sqrt (2 * PI).

Definition pdf_integrable (a b : R) : Riemann_integrable pdf a b.
Proof.
  assert (C : continuity pdf) by (apply derivable_continuous; unfold pdf; reg).
  destruct (Rle_dec a b) as [Hab | Hab].
  - apply continuity_implies_RiemannInt; [exact Hab | intros; apply C].
  - apply RiemannInt_P1, continuity_implies_RiemannInt; [lra | intros; apply C].
Qed.

(** The distribution function: one half (the mass below 0) plus the mass
    between 0 and [x]. *)
Definition cdf (x : float) : float := 1 / 2 + RiemannInt (pdf_integrable 0 x).

End norm.

(** ** class BSMAnalytical *)
Module BSMAnalytical.

Record t : Type := mk {
  S : float;
  K : float;
  T : float;
  r : float;
  sigma : float;
  c : float;
  option_type : string
}.

Definition __init__ (S K T r sigma c : float) (option_type : string) : result t :=
  let self := mk S K T r sigma c (lower option_type) in
  if decide (self.(BSMAnalytical.option_type) ∉ ["call"; "put"]) then
    Raise (ValueError "option_type must be 'call' or 'put'")
  else if decide (T <= 0 \/ sigma <= 0) then
    Raise (ValueError "T and sigma must be positive")
  else Ok self.

Definition _d1_d2 (self : t) : result (float * float) :=
  sqrt_T ← math.sqrt self.(T);
  let sigma_sqrt_T := self.(sigma) * sqrt_T in
  S_over_K ← truediv self.(S) self.(K);
  log_SK ← math.log S_over_K;
  d1 ← truediv (log_SK + (self.(r) - self.(c) + 0.5 * self.(sigma) ^ 2) * self.(T))
               sigma_sqrt_T;
  let d2 := d1 - sigma_sqrt_T in
  Ok (d1, d2).

Definition price (self : t) : result float :=
  '(d1, d2) ← _d1_d2 self;
  if decide (self.(option_type) = "call") then
    Ok (self.(S) * math.exp (- self.(c) * self.(T)) * norm.cdf d1
        - self.(K) * math.exp (- self.(r) * self.(T)) * norm.cdf d2)
  else
    Ok (self.(K) * math.exp (- self.(r) * self.(T)) * norm.cdf (- d2)
        - self.(S) * math.exp (- self.(c) * self.(T)) * norm.cdf (- d1)).

Definition delta (self : t) : result float :=
  '(d1, _) ← _d1_d2 self;
  if decide (self.(option_type) = "call") then
    Ok (math.exp (- self.(c) * self.(T)) * norm.cdf d1)
  else
    Ok (- math.exp (- self.(c) * self.(T)) * norm.cdf (- d1)).

Definition gamma (self : t) : result float :=
  '(d1, _) ← _d1_d2 self;
  sqrt_T ← math.sqrt self.(T);
  truediv (math.exp (- self.(c) * self.(T)) * norm.pdf d1)
          (self.(S) * self.(sigma) * sqrt_T).

Definition vega (self : t) : result float :=
  '(d1, _) ← _d1_d2 self;
  sqrt_T ← math.sqrt self.(T);
  Ok (self.(S) * math.exp (- self.(c) * self.(T)) * norm.pdf d1 * sqrt_T).

Definition theta (self : t) : result float :=
  '(d1, d2) ← _d1_d2 self;
  if decide (self.(option_type) = "call") then
    sqrt_T ← math.sqrt self.(T);
    q ← truediv (self.(S) * math.exp (- self.(c) * self.(T)) * norm.pdf d1 * self.(sigma))
                (2 * sqrt_T);
    let term1 := - q in
    let term2 := - self.(r) * self.(K) * math.exp (- self.(r) * self.(T)) * norm.cdf d2 in
    let term3 := self.(c) * self.(S) * math.exp (- self.(c) * self.(T)) * norm.cdf d1 in
    Ok (term1 + term2 + term3)
  else
    sqrt_T ← math.sqrt self.(T);
    q ← truediv (self.(S) * math.exp (- self.(c) * self.(T)) * norm.pdf d1 * self.(sigma))
                (2 * sqrt_T);
    let term1 := - q in
    let term2 := self.(r) * self.(K) * math.exp (- self.(r) * self.(T)) * norm.cdf (- d2) in
    let term3 := - self.(c) * self.(S) * math.exp (- self.(c) * self.(T)) * norm.cdf (- d1) in
    Ok (term1 + term2 + term3).

Definition rho (self : t) : result float :=
  '(_, d2) ← _d1_d2 self;
  if decide (self.(option_type) = "call") then
    Ok (self.(K) * self.(T) * math.exp (- self.(r) * self.(T)) * norm.cdf d2)
  else
    Ok (- self.(K) * self.(T) * math.exp (- self.(r) * self.(T)) * norm.cdf (- d2)).

(** The dictionary literal evaluates its values in order; the nine keys are
    distinct. *)
Definition all_greeks (self : t) : result (gmap string float) :=
  v_price ← price self;
  v_delta ← delta self;
  v_gamma ← gamma self;
  v_vega ← vega self;
  v_vega' ← vega self;
  v_theta ← theta self;
  v_theta' ← theta self;
  v_rho ← rho self;
  v_rho' ← rho self;
  Ok (<["Price" := v_price]>
      (<["Delta" := v_delta]>
      (<["Gamma" := v_gamma]>
      (<["Vega (per 1.0 vol)" := v_vega]>
      (<["Vega (per 1% vol)" := v_vega' * 0.01]>
      (<["Theta (annual)" := v_theta]>
      (<["Theta (per day)" := v_theta' / 365.0]>
      (<["Rho (per 1.0 rate)" := v_rho]>
      (<["Rho (per 1% rate)" := v_rho' * 0.01]> ∅))))))))).

End BSMAnalytical.

(** ** implied_volatility *)

(** Which [return] statement produced the volatility. *)
Inductive iv_exit : Type :=
| at_floor        (* line 92: market price at or below the intrinsic value *)
| in_newton       (* line 101 *)
| in_bisection    (* line 115 *)
| after_bisection (* line 120: the iteration cap is exhausted *).

Section implied_volatility.
Variables (market_price S K T r c : float) (option_type : string) (tol : float).

(** The first loop; [None] when it is left by [break] or by exhaustion. *)
Fixpoint newton_loop (iterations : nat) (sigma : float) : result (option float) :=
  match iterations with
  | O => Ok None
  | Datatypes.S iterations' =>
    bsm ← BSMAnalytical.__init__ S K T r sigma c option_type;
    price ← BSMAnalytical.price bsm;
    vega ← BSMAnalytical.vega bsm;
    let diff := price - market_price in
    if decide (Rabs diff < tol) then Ok (Some sigma)
    else if decide (vega < 1e-8) then Ok None
    else
      step ← truediv diff vega;
      let sigma_new := sigma - step in
      if decide (sigma_new < 1e-8 \/ sigma_new > 5.0) then Ok None
      else newton_loop iterations' sigma_new
  end.

(** The second loop and the final [return]. *)
Fixpoint bisection_loop (iterations : nat) (low high : float) : result (iv_exit * float) :=
  match iterations with
  | O => Ok (after_bisection, (low + high) / 2)
  | Datatypes.S iterations' =>
    let mid := (low + high) / 2 in
    bsm ← BSMAnalytical.__init__ S K T r mid c option_type;
    price ← BSMAnalytical.price bsm;
    if decide (Rabs (price - market_price) < tol) then Ok (in_bisection, mid)
    else if decide (price > market_price) then bisection_loop iterations' low mid
    else bisection_loop iterations' mid high
  end.

Definition implied_volatility_exit (max_iter : Z) : result (iv_exit * float) :=
  if decide (market_price < 0) then
    Raise (ValueError "Market price must be non-negative")
  else
    let intrinsic :=
      if decide (option_type = "call") then
        py_max (S * math.exp (- c * T) - K * math.exp (- r * T)) 0
      else
        py_max (K * math.exp (- r * T) - S * math.exp (- c * T)) 0 in
    if decide (market_price <= intrinsic) then Ok (at_floor, 1e-8)
    else
      newton ← newton_loop (Z.to_nat max_iter) 0.2;
      match newton with
      | Some sigma => Ok (in_newton, sigma)
      | None => bisection_loop (Z.to_nat max_iter) 1e-8 5.0
      end.

(** The function itself: the returned float, without the label. *)
Definition implied_volatility (max_iter : Z) : result float :=
  snd <$> implied_volatility_exit max_iter.

End implied_volatility.

(** ** Barone-Adesi-Whaley *)

Definition baw_american_call (S K T r sigma c : float) : result float :=
  if decide (c >= r) then
    bsm ← BSMAnalytical.__init__ S K T r sigma c "call";
    BSMAnalytical.price bsm
  else
    root ← math.sqrt ((r - c - sigma ^ 2 / 2) ^ 2 + 2 * r * sigma ^ 2);
    q2 ← truediv (- (r - c - sigma ^ 2 / 2) + root) (sigma ^ 2);
    inv_q2 ← truediv 1 q2;
    S_star ← truediv K (1 - inv_q2);
    if decide (S >= S_star) then Ok (S - K)
    else
      bsm ← BSMAnalytical.__init__ S K T r sigma c "call";
      european ← BSMAnalytical.price bsm;
      S_over_K ← truediv S K;
      log_SK ← math.log S_over_K;
      sqrt_T ← math.sqrt T;
      d1 ← truediv (log_SK + (r - c + sigma ^ 2 / 2) * T) (sigma * sqrt_T);
      S_star_over_q2 ← truediv S_star q2;
      sqrt_T' ← math.sqrt T;
      let A2 := S_star_over_q2
                * (1 - math.exp (- c * T) * norm.cdf (d1 + sigma * sqrt_T')) in
      S_over_S_star ← truediv S S_star;
      power ← py_pow S_over_S_star q2;
      Ok (european + A2 * power).

Definition baw_american_put (S K T r sigma c : float) : result float :=
  root ← math.sqrt ((r - c - sigma ^ 2 / 2) ^ 2 + 2 * r * sigma ^ 2);
  q1 ← truediv (- (r - c - sigma ^ 2 / 2) - root) (sigma ^ 2);
  inv_q1 ← truediv 1 q1;
  S_star ← truediv K (1 - inv_q1);
  if decide (S <= S_star) then Ok (K - S)
  else
    bsm ← BSMAnalytical.__init__ S K T r sigma c "put";
    european ← BSMAnalytical.price bsm;
    S_over_K ← truediv S K;
    log_SK ← math.log S_over_K;
    sqrt_T ← math.sqrt T;
    d1 ← truediv (log_SK + (r - c + sigma ^ 2 / 2) * T) (sigma * sqrt_T);
    S_star_over_q1 ← truediv (- S_star) q1;
    sqrt_T' ← math.sqrt T;
    let A1 := S_star_over_q1
              * (1 - math.exp (- c * T) * norm.cdf (- (d1 + sigma * sqrt_T'))) in
    S_over_S_star ← truediv S S_star;
    power ← py_pow S_over_S_star q1;
    Ok (european + A1 * power).

(** [range(start, stop, -1)]. *)
Definition range_down (start stop : Z) : list Z :=
  (fun k => (start - k)%Z) <$> seqZ 0 (start - stop).

(** ** numpy arrays of rank 2 *)
Module np.

Definition zeros (rows cols : Z) : result (list (list float)) :=
  if decide (rows < 0 \/ cols < 0)%Z then
    Raise (ValueError "negative dimensions are not allowed")
  else Ok (replicate (Z.to_nat rows) (replicate (Z.to_nat cols) 0)).

(** An index into an axis of length [len]; a negative index counts from
    the end. *)
Definition index (len : nat) (i : Z) : result nat :=
  if decide (0 <= i < Z.of_nat len)%Z then Ok (Z.to_nat i)
  else if decide (- Z.of_nat len <= i < 0)%Z then Ok (Z.to_nat (i + Z.of_nat len))
  else Raise IndexError.

Definition getitem (a : list (list float)) (i j : Z) : result float :=
  i' ← index (length a) i;
  match a !! i' with
  | None => Raise IndexError
  | Some row =>
    j' ← index (length row) j;
    match row !! j' with
    | None => Raise IndexError
    | Some v => Ok v
    end
  end.

Definition setitem (a : list (list float)) (i j : Z) (v : float)
    : result (list (list float)) :=
  i' ← index (length a) i;
  match a !! i' with
  | None => Raise IndexError
  | Some row =>
    j' ← index (length row) j;
    Ok (<[i' := <[j' := v]> row]> a)
  end.

(** A rank-2 array of [rows] rows of [cols] columns. *)
Definition has_shape (a : list (list float)) (rows cols : nat) : Prop :=
  length a = rows /\ Forall (fun row => length row = cols) a.

(** Arrays of rank 1. *)
Definition zeros1 (len : Z) : result (list float) :=
  if decide (len < 0)%Z then
    Raise (ValueError "negative dimensions are not allowed")
  else Ok (replicate (Z.to_nat len) 0).

Definition getitem1 (a : list float) (i : Z) : result float :=
  i' ← index (length a) i;
  match a !! i' with
  | None => Raise IndexError
  | Some v => Ok v
  end.

Definition setitem1 (a : list float) (i : Z) (v : float) : result (list float) :=
  i' ← index (length a) i;
  Ok (<[i' := v]> a).

End np.

(** ** class BinomialTree (constructor) *)
Module BinomialTree.

Record t : Type := mk {
  T : float;
  S0 : float;
  r : float;
  sigma : float;
  c : float;
  K : float;
  n : Z;
  option_type : string;
  dt : float;
  u : float;
  d : float;
  q : float;
  R : float;
  stock_tree : list (list float)
}.

Definition __init__ (T S0 r sigma c K : float) (n : Z) (option_type : string)
    : result t :=
  let option_type := lower option_type in
  dt ← truediv T (IZR n);
  sqrt_dt ← math.sqrt dt;
  let u := math.exp (sigma * sqrt_dt) in
  d ← truediv 1.0 u;
  q ← truediv (math.exp ((r - c) * dt) - d) (u - d);
  let R := math.exp (r * dt) in
  stock_tree ← np.zeros (n + 1) (n + 1);
  stock_tree ← np.setitem stock_tree 0 0 S0;
  stock_tree ←
    for_each (range 1 (n + 1)) (fun i stock_tree =>
      prev ← np.getitem stock_tree 0 (i - 1);
      stock_tree ← np.setitem stock_tree 0 i (prev * u);
      for_each (range 1 (i + 1)) (fun j stock_tree =>
        prev ← np.getitem stock_tree (j - 1) (i - 1);
        np.setitem stock_tree j i (prev * d)) stock_tree) stock_tree;
  Ok (mk T S0 r sigma c K n option_type dt u d q R stock_tree).

Definition _intrinsic (self : t) (S : float) : float :=
  if decide (self.(option_type) = "call") then py_max (S - self.(K)) 0
  else py_max (self.(K) - S) 0.

(** [price]: the array [option] is updated in place, column by column.
    (When every terminal payoff is the integer 0 of [max(., 0)], numpy gives
    the array an integer type; all later values are then 0 as well, so the
    values are the ones computed here.) *)
Definition price (self : t) (exercise_style : string) : result float :=
  payoff ← mapM (fun j =>
                   s ← np.getitem self.(stock_tree) j self.(n);
                   Ok (_intrinsic self s))
                (range 0 (self.(n) + 1));
  let option := payoff in
  option ←
    for_each (range_down (self.(n) - 1) (-1)) (fun i option =>
      for_each (range 0 (i + 1)) (fun j option =>
        o_j ← np.getitem1 option j;
        o_j1 ← np.getitem1 option (j + 1);
        cont ← truediv (self.(q) * o_j + (1 - self.(q)) * o_j1) self.(R);
        if decide (exercise_style = "american") then
          s ← np.getitem self.(stock_tree) j i;
          let ex := _intrinsic self s in
          np.setitem1 option j (py_max cont ex)
        else
          np.setitem1 option j cont) option) option;
  np.getitem1 option 0.

(** Reference for [price]: the entry [stock_tree[j, i]] read as a total
    function, and the value of node [j] of the column [n - k] by backward
    induction on the number [k] of steps to maturity. *)
Definition node (self : t) (j i : Z) : float :=
  default 0 (self.(stock_tree) !! Z.to_nat j ≫= (.!! Z.to_nat i)).

Fixpoint backward_induction (self : t) (american : bool) (k : nat) (j : Z)
    : float :=
  let ex := _intrinsic self (node self j (self.(n) - Z.of_nat k)) in
  match k with
  | O => ex
  | Datatypes.S k' =>
    let cont :=
      (self.(q) * backward_induction self american k' j
       + (1 - self.(q)) * backward_induction self american k' (j + 1))
      / self.(R) in
    if american then py_max cont ex else cont
  end.

End BinomialTree.

(** ** class TrinomialTree (constructor) *)
Module TrinomialTree.

Record t : Type := mk {
  T : float;
  S0 : float;
  r : float;
  sigma : float;
  c : float;
  K : float;
  n : Z;
  option_type : string;
  dt : float;
  dr : float;
  p_u : float;
  p_d : float;
  p_m : float;
  R : float
}.

Definition __init__ (T S0 r sigma c K : float) (n : Z) (option_type : string)
    : result t :=
  let option_type := lower option_type in
  dt ← truediv T (IZR n);
  sqrt_3dt ← math.sqrt (3 * dt);
  let dr := sigma * sqrt_3dt in
  sqrt_dt ← math.sqrt dt;
  sqrt_3 ← math.sqrt 3;
  up ← truediv ((r - c - 0.5 * sigma ^ 2) * sqrt_dt) (2 * sigma * sqrt_3);
  let p_u := 1 / 6 + up in
  sqrt_dt' ← math.sqrt dt;
  sqrt_3' ← math.sqrt 3;
  down ← truediv ((r - c - 0.5 * sigma ^ 2) * sqrt_dt') (2 * sigma * sqrt_3');
  let p_d := 1 / 6 - down in
  let p_m := 1 - p_u - p_d in
  let '(p_u, p_d) := (py_max p_u 0, py_max p_d 0) in
  let p_m := 1 - p_u - p_d in
  let R := math.exp (r * dt) in
  Ok (mk T S0 r sigma c K n option_type dt dr p_u p_d p_m R).

Definition _intrinsic (self : t) (S : float) : float :=
  if decide (self.(option_type) = "call") then py_max (S - self.(K)) 0
  else py_max (self.(K) - S) 0.

(** [price]: every step builds a new array from the previous one. *)
Definition price (self : t) (exercise_style : string) : result float :=
  let m := (2 * self.(n) + 1)%Z in
  lnS0 ← math.log self.(S0);
  let stock :=
    (fun i => math.exp (lnS0 + IZR (i - self.(n)) * self.(dr))) <$> range 0 m in
  let option := (fun s => _intrinsic self s) <$> stock in
  option ←
    for_each (range_down (self.(n) - 1) (-1)) (fun step option =>
      let m_curr := (2 * step + 1)%Z in
      new_option ← np.zeros1 m_curr;
      for_each (range 0 m_curr) (fun i new_option =>
        let j := (i - step)%Z in
        let S := math.exp (lnS0 + IZR j * self.(dr)) in
        let idx_base := (step + 1)%Z in
        let idx_up := ((j + 1) + idx_base)%Z in
        let idx_mid := (j + idx_base)%Z in
        let idx_down := ((j - 1) + idx_base)%Z in
        up ← np.getitem1 option idx_up;
        mid ← np.getitem1 option idx_mid;
        down ← np.getitem1 option idx_down;
        cont ← truediv (self.(p_u) * up + self.(p_m) * mid + self.(p_d) * down)
                       self.(R);
        if decide (exercise_style = "american") then
          let ex := _intrinsic self S in
          np.setitem1 new_option i (py_max cont ex)
        else
          np.setitem1 new_option i cont) new_option) option;
  np.getitem1 option 0.

(** Reference for [price]: the value of node [i] (0 <= i <= 2 (n - k)) of
    the step [n - k] by backward induction on the number [k] of steps to
    maturity. *)
Fixpoint backward_induction (self : t) (lnS0 : float) (american : bool)
    (k : nat) (i : Z) : float :=
  let step := (self.(n) - Z.of_nat k)%Z in
  let ex := _intrinsic self (math.exp (lnS0 + IZR (i - step) * self.(dr))) in
  match k with
  | O => ex
  | Datatypes.S k' =>
    let cont :=
      (self.(p_u) * backward_induction self lnS0 american k' (i + 2)
       + self.(p_m) * backward_induction self lnS0 american k' (i + 1)
       + self.(p_d) * backward_induction self lnS0 american k' i)
      / self.(R) in
    if american then py_max cont ex else cont
  end.

End TrinomialTree.

(** ** app.py: the dispatch of [price_option] *)
Module app.

(** [round(x, ndigits)]: the nearest multiple of [10 ** -ndigits], a tie
    going to the even one. *)
Definition round_half_even (y : float) : Z :=
  let f := Int_part y in
  if decide (y - IZR f < 1 / 2) then f
  else if decide (y - IZR f > 1 / 2) then (f + 1)%Z
  else if Z.even f then f else (f + 1)%Z.

Definition round (x : float) (ndigits : nat) : float :=
  IZR (round_half_even (x * 10 ^ ndigits)) / 10 ^ ndigits.

Inductive response : Type :=
| json_ok (price : float) (greeks : gmap string float)
| json_error (status : Z) (error : string).

(** Lines 40 to 65, from the validated locals [S] ... [c] and the
    lower-cased [option_type] and [model]. *)
Definition price_option (S K T r sigma c : float) (option_type model : string)
    : response :=
  if decide (option_type ∉ ["call"; "put"]) then
    json_error 400 "option_type must be 'call' or 'put'"
  else if decide (model ∉ ["bsm"; "baw"]) then
    json_error 400 "model must be 'bsm' or 'baw'"
  else
    let body : result (float * gmap string float) :=
      if decide (model = "bsm") then
        bsm ← BSMAnalytical.__init__ S K T r sigma c option_type;
        price ← BSMAnalytical.price bsm;
        all ← BSMAnalytical.all_greeks bsm;
        Ok (price, filter (fun kv => kv.1 <> "Price") all)
      else
        price ← (if decide (option_type = "call")
                 then baw_american_call S K T r sigma c
                 else baw_american_put S K T r sigma c);
        Ok (price, ∅) in
    match body with
    | Ok (price, greeks) =>
      json_ok (round price 6) ((fun v => round v 6) <$> greeks)
    | Raise (ValueError msg) => json_error 400 msg
    | Raise _ => json_error 500 "Internal server error"
    end.

Inductive iv_response : Type :=
| iv_json_ok (iv : float)
| iv_json_error (status : Z) (error : string).

(** Lines 82 to 92, from the validated locals [S] ... [mp] and the
    lower-cased [option_type]; [implied_volatility] is called with its
    defaults [tol=1e-8] and [max_iter=100]. *)
Definition implied_vol (S K T r c mp : float) (option_type : string)
    : iv_response :=
  if decide (option_type ∉ ["call"; "put"]) then
    iv_json_error 400 "option_type must be 'call' or 'put'"
  else
    match implied_volatility mp S K T r c option_type 1e-8 100 with
    | Ok iv => iv_json_ok (round iv 6)
    | Raise (ValueError msg) => iv_json_error 400 msg
    | Raise _ => iv_json_error 500 "Failed to compute implied volatility"
    end.

End app.

(** ** The formulas of the specification *)
Module spec.

Definition d1 (S K T r sigma c : R) : R :=
  (ln (S / K) + (r - c + sigma ^ 2 / 2) * T) / (sigma * sqrt T).

Definition d2 (S K T r sigma c : R) : R :=
  d1 S K T r sigma c - sigma * sqrt T.

Definition call_price (S K T r sigma c : R) : R :=
  S * exp (- (c * T)) * norm.cdf (d1 S K T r sigma c)
  - K * exp (- (r * T)) * norm.cdf (d2 S K T r sigma c).

Definition put_price (S K T r sigma c : R) : R :=
  K * exp (- (r * T)) * norm.cdf (- d2 S K T r sigma c)
  - S * exp (- (c * T)) * norm.cdf (- d1 S K T r sigma c).

End spec.


(** ** Notions used to state the behaviour of [implied_volatility] *)

(** The intrinsic value as line 86 to 89 of pricing_engine.py compute it:
    the kind is compared as given, anything but "call" takes the put
    branch. *)
Definition iv_intrinsic (S K T r c : float) (option_type : string) : float :=
  if decide (option_type = "call") then
    py_max (S * math.exp (- c * T) - K * math.exp (- r * T)) 0
  else
    py_max (K * math.exp (- r * T) - S * math.exp (- c * T)) 0.

(** The pricer built at the volatility [v] returns a price within [tol] of
    the market price: the test of lines 100 and 116. *)
Definition reprices (market_price S K T r c : float) (option_type : string)
    (tol v : float) : Prop :=
  exists bsm price,
    BSMAnalytical.__init__ S K T r v c option_type = Ok bsm
    /\ BSMAnalytical.price bsm = Ok price
    /\ Rabs (price - market_price) < tol.

(** ** vectorized.py: calibration of a strip of strikes *)
Module vectorized.

(** A row of the returned frame; [ImpliedVol = None] is [np.nan]. *)
Record iv_row : Type := mk_iv_row {
  Strike : float;
  MarketPrice : float;
  ImpliedVol : option float
}.

(** The body of the loop of lines 95 to 100: the solver is called with its
    default [tol] and [max_iter] only for a positive price, and the bare
    [except] turns every exception into [np.nan]. *)
Definition calibrate_row (S T r c : float) (option_type : string)
    (K mp : float) : iv_row :=
  let iv :=
    if decide (mp > 0) then
      match implied_volatility mp S K T r c option_type 1e-8 100 with
      | Ok iv => Some iv
      | Raise _ => None
      end
    else None in
  mk_iv_row K mp iv.

Definition calibrate_implied_volatilities (S : float) (K_list : list float)
    (T r c : float) (market_prices : list float) (option_type : string)
    : result (list iv_row) :=
  if decide (length K_list <> length market_prices) then
    Raise (ValueError "K_list and market_prices must have same length")
  else
    for_each (zip K_list market_prices)
      (fun '(K, mp) results =>
         Ok (results ++ [calibrate_row S T r c option_type K mp]))
      [].

End vectorized.

(** * Properties *)

(** ** The primitives *)

Lemma bind_Ok {A B} (a : A) (f : A -> result B) : Ok a ≫= f = f a.
Proof. reflexivity. Qed.

Lemma bind_Raise {A B} (e : exn) (f : A -> result B) : Raise e ≫= f = Raise e.
Proof. reflexivity. Qed.

Lemma bind_Ok_inv {A B} (m : result A) (f : A -> result B) (b : B) :
  m ≫= f = Ok b -> exists a, m = Ok a /\ f a = Ok b.
Proof. destruct m as [a | e]; [eauto | discriminate]. Qed.

Lemma truediv_Ok x y : y <> 0 -> truediv x y = Ok (x / y).
Proof. intros Hy. unfold truediv. now rewrite decide_False. Qed.

Lemma truediv_zero x : truediv x 0 = Raise ZeroDivisionError.
Proof. unfold truediv. now rewrite decide_True. Qed.

Lemma sqrt_Ok x : 0 <= x -> math.sqrt x = Ok (sqrt x).
Proof. intros Hx. unfold math.sqrt. rewrite decide_False; [reflexivity | lra]. Qed.

Lemma sqrt_negative x : x < 0 -> math.sqrt x = Raise (ValueError "math domain error").
Proof. intros Hx. unfold math.sqrt. now rewrite decide_True. Qed.

Lemma log_Ok x : 0 < x -> math.log x = Ok (ln x).
Proof. intros Hx. unfold math.log. rewrite decide_False; [reflexivity | lra]. Qed.

Lemma py_max_Rmax a : py_max a 0 = Rmax a 0.
Proof.
  unfold py_max, Rmax. case_decide; destruct (Rle_dec a 0); lra.
Qed.

Lemma py_max_nonneg a : 0 <= py_max a 0.
Proof. unfold py_max. case_decide; lra. Qed.

Lemma pow_nonzero_pos x : x <> 0 -> 0 < x ^ 2.
Proof. intros Hx. assert (0 < x \/ x < 0) as [? | ?] by lra; nra. Qed.

Lemma truediv_by_zero x y : y = 0 -> truediv x y = Raise ZeroDivisionError.
Proof. intros ->. apply truediv_zero. Qed.

Lemma bind_eq_Ok {A B} (m : result A) (a : A) (f : A -> result B) (b : result B) :
  m = Ok a -> f a = b -> m ≫= f = b.
Proof. now intros -> <-. Qed.

Lemma bind_eq_Raise {A B} (m : result A) (e : exn) (f : A -> result B) :
  m = Raise e -> m ≫= f = Raise e.
Proof. now intros ->. Qed.

(** Run the first statement of a block, which succeeds by [tac]. *)
Ltac step tac := eapply bind_eq_Ok; [tac | cbv beta].

Lemma bind_returns {A B} (m : result A) (a : A) (f : A -> result B) :
  m = Ok a -> (exists b, f a = Ok b) -> exists b, m ≫= f = Ok b.
Proof. now intros ->. Qed.

(** As [step], in a goal that asks for the block to return. *)
Ltac step_returns tac := eapply bind_returns; [tac | cbv beta].

Lemma exp_one_inv x : exp x = 1 -> x = 0.
Proof. intros H. apply exp_inv. now rewrite exp_0. Qed.

Ltac invert_bind H :=
  let x := fresh "x" in
  let E := fresh "E" in
  apply bind_Ok_inv in H as (x & E & H).

(** ** The standard normal law: [cdf (- x) = 1 - cdf x] *)

Lemma pdf_continuity : continuity norm.pdf.
Proof. apply derivable_continuous. unfold norm.pdf. reg. Qed.

Lemma pdf_even x : norm.pdf (- x) = norm.pdf x.
Proof. unfold norm.pdf. do 2 f_equal. lra. Qed.

Lemma primitive_inside f a b (h : a <= b)
    (pr : forall x, a <= x -> x <= b -> Riemann_integrable f a x) y
    (pry : Riemann_integrable f a y) :
  a <= y <= b -> primitive h pr y = RiemannInt pry.
Proof.
  intros [Hay Hyb]. unfold primitive.
  destruct (Rle_dec a y) as [? | ?]; [| contradiction].
  destruct (Rle_dec y b) as [? | ?]; [| contradiction].
  apply RiemannInt_P5.
Qed.

(** On [[-x, x]] both [P] (the primitive of the density from [-x]) and
    [y => - P (- y)] are antiderivatives of the even density, so they differ
    by a constant; evaluating at [-x] and at [0] gives the oddness of the
    integral from 0. *)
Lemma pdf_integral_odd_nonneg x :
  0 <= x ->
  RiemannInt (norm.pdf_integrable 0 (- x)) = - RiemannInt (norm.pdf_integrable 0 x).
Proof.
  intros Hx.
  assert (h : - x <= x) by lra.
  assert (C0 : forall y, - x <= y <= x -> continuity_pt norm.pdf y)
    by (intros; apply pdf_continuity).
  set (P := primitive h (FTC_P1 h C0)).
  assert (HP : antiderivative norm.pdf P (- x) x) by apply RiemannInt_P29.
  assert (HQ : antiderivative norm.pdf (fun y => - P (- y)) (- x) x).
  { split; [| exact h]. intros y Hy.
    assert (D : derivable_pt_lim (fun y => - P (- y)) y (norm.pdf y)).
    { replace (norm.pdf y) with (- (norm.pdf (- y) * -1)) by (rewrite pdf_even; lra).
      apply (derivable_pt_lim_opp (fun y => P (- y))).
      apply (derivable_pt_lim_comp (fun y => - y) P).
      - apply (derivable_pt_lim_opp id), derivable_pt_lim_id.
      - apply RiemannInt_P28. lra. }
    exists (exist _ (norm.pdf y) D). reflexivity. }
  destruct (antiderivative_Ucte _ _ _ _ _ HP HQ) as [k Hk].
  assert (Pa : P (- x) = 0).
  { unfold P.
    rewrite (primitive_inside _ _ _ _ _ _ (norm.pdf_integrable (- x) (- x))) by lra.
    apply RiemannInt_P9. }
  assert (P0 : P 0 = RiemannInt (norm.pdf_integrable (- x) 0))
    by (apply primitive_inside; lra).
  assert (Pb : P x = RiemannInt (norm.pdf_integrable (- x) x))
    by (apply primitive_inside; lra).
  pose proof (Hk (- x) ltac:(lra)) as Ea.
  pose proof (Hk 0 ltac:(lra)) as E0.
  rewrite Ropp_involutive in Ea. rewrite Ropp_0 in E0.
  pose proof (RiemannInt_P26 (norm.pdf_integrable (- x) 0) (norm.pdf_integrable 0 x)
                (norm.pdf_integrable (- x) x)) as Chasles.
  rewrite (RiemannInt_P8 (norm.pdf_integrable 0 (- x)) (norm.pdf_integrable (- x) 0)).
  lra.
Qed.

Lemma pdf_integral_odd x :
  RiemannInt (norm.pdf_integrable 0 (- x)) = - RiemannInt (norm.pdf_integrable 0 x).
Proof.
  destruct (Rle_dec 0 x) as [Hx | Hx]; [now apply pdf_integral_odd_nonneg |].
  assert (E : RiemannInt (norm.pdf_integrable 0 (- - x))
              = - RiemannInt (norm.pdf_integrable 0 (- x)))
    by (apply pdf_integral_odd_nonneg; lra).
  revert E. generalize (norm.pdf_integrable 0 (- - x)).
  rewrite Ropp_involutive. intros pr E.
  rewrite (RiemannInt_P5 (norm.pdf_integrable 0 x) pr). lra.
Qed.

Lemma cdf_neg x : norm.cdf (- x) = 1 - norm.cdf x.
Proof. unfold norm.cdf. rewrite pdf_integral_odd. lra. Qed.

Lemma cdf_zero : norm.cdf 0 = 1 / 2.
Proof. unfold norm.cdf. rewrite RiemannInt_P9. lra. Qed.

(** ** BSMAnalytical *)

Lemma lower_call : lower "call" = "call".
Proof. reflexivity. Qed.

Lemma lower_put : lower "put" = "put".
Proof. reflexivity. Qed.

Lemma init_Ok S K T r sigma c ot :
  0 < T -> 0 < sigma -> lower ot = "call" \/ lower ot = "put" ->
  BSMAnalytical.__init__ S K T r sigma c ot
  = Ok (BSMAnalytical.mk S K T r sigma c (lower ot)).
Proof.
  intros HT Hs Hot. unfold BSMAnalytical.__init__. cbn.
  rewrite decide_False by (destruct Hot as [-> | ->]; set_solver).
  rewrite decide_False by lra. reflexivity.
Qed.

Lemma d1_d2_Ok S K T r sigma c ot :
  0 < S -> 0 < K -> 0 < T -> 0 < sigma ->
  BSMAnalytical._d1_d2 (BSMAnalytical.mk S K T r sigma c ot)
  = Ok (spec.d1 S K T r sigma c, spec.d2 S K T r sigma c).
Proof.
  intros HS HK HT Hs. unfold BSMAnalytical._d1_d2. cbn.
  assert (0 < sqrt T) by now apply sqrt_lt_R0.
  assert (0 < S / K) by now apply Rdiv_lt_0_compat.
  rewrite sqrt_Ok by lra. cbn.
  rewrite truediv_Ok by lra. cbn.
  rewrite log_Ok by assumption. cbn.
  rewrite truediv_Ok by nra. cbn.
  unfold spec.d2, spec.d1. do 2 f_equal; f_equal; lra.
Qed.

Lemma price_call_Ok S K T r sigma c :
  0 < S -> 0 < K -> 0 < T -> 0 < sigma ->
  BSMAnalytical.price (BSMAnalytical.mk S K T r sigma c "call")
  = Ok (spec.call_price S K T r sigma c).
Proof.
  intros HS HK HT Hs. unfold BSMAnalytical.price.
  rewrite d1_d2_Ok by assumption. cbn.
  unfold spec.call_price, math.exp. do 2 f_equal; do 2 f_equal; f_equal; lra.
Qed.

Lemma price_put_Ok S K T r sigma c :
  0 < S -> 0 < K -> 0 < T -> 0 < sigma ->
  BSMAnalytical.price (BSMAnalytical.mk S K T r sigma c "put")
  = Ok (spec.put_price S K T r sigma c).
Proof.
  intros HS HK HT Hs. unfold BSMAnalytical.price.
  rewrite d1_d2_Ok by assumption. cbn.
  unfold spec.put_price, math.exp. do 2 f_equal; do 2 f_equal; f_equal; lra.
Qed.

Lemma price_total S K T r sigma c kind :
  0 < S -> 0 < K -> 0 < T -> 0 < sigma -> kind = "call" \/ kind = "put" ->
  exists p, BSMAnalytical.price (BSMAnalytical.mk S K T r sigma c kind) = Ok p.
Proof.
  intros HS HK HT Hs [-> | ->]; eexists.
  - now apply price_call_Ok.
  - now apply price_put_Ok.
Qed.

Lemma vega_total S K T r sigma c kind :
  0 < S -> 0 < K -> 0 < T -> 0 < sigma ->
  exists v, BSMAnalytical.vega (BSMAnalytical.mk S K T r sigma c kind) = Ok v.
Proof.
  intros HS HK HT Hs. unfold BSMAnalytical.vega.
  rewrite d1_d2_Ok by assumption. cbn.
  rewrite sqrt_Ok by lra. cbn. eauto.
Qed.

(** C1. For S > 0, K > 0, T > 0 and sigma > 0, the price of a constructed
    pricer is the Black-Scholes-Merton formula of the specification:
    [S e^(-cT) Phi(d1) - K e^(-rT) Phi(d2)] for a call and
    [K e^(-rT) Phi(-d2) - S e^(-cT) Phi(-d1)] for a put, with
    [d1 = (ln(S/K) + (r - c + sigma^2/2) T) / (sigma sqrt T)] and
    [d2 = d1 - sigma sqrt T].  The kind is the lower-cased [option_type]. *)
Theorem bsm_price_formula S K T r sigma c option_type :
  0 < S -> 0 < K -> 0 < T -> 0 < sigma ->
  (lower option_type = "call" ->
   BSMAnalytical.__init__ S K T r sigma c option_type ≫= BSMAnalytical.price
   = Ok (spec.call_price S K T r sigma c))
  /\
  (lower option_type = "put" ->
   BSMAnalytical.__init__ S K T r sigma c option_type ≫= BSMAnalytical.price
   = Ok (spec.put_price S K T r sigma c)).
Proof.
  intros HS HK HT Hs. split; intros Hot.
  - rewrite init_Ok by auto. rewrite bind_Ok, Hot. now apply price_call_Ok.
  - rewrite init_Ok by auto. rewrite bind_Ok, Hot. now apply price_put_Ok.
Qed.

Lemma bsm_price_formula_witness :
  BSMAnalytical.__init__ 100 100 1 0.05 0.2 0 "call" ≫= BSMAnalytical.price
  = Ok (spec.call_price 100 100 1 0.05 0.2 0)
  /\
  BSMAnalytical.__init__ 100 100 1 0.05 0.2 0 "PUT" ≫= BSMAnalytical.price
  = Ok (spec.put_price 100 100 1 0.05 0.2 0).
Proof.
  split.
  - apply (bsm_price_formula 100 100 1 0.05 0.2 0 "call"); [lra .. | reflexivity].
  - apply (bsm_price_formula 100 100 1 0.05 0.2 0 "PUT"); [lra .. | reflexivity].
Defined.

(** C2. Put-call parity: for S > 0, K > 0, T > 0 and sigma > 0 both prices
    are computed, and call minus put is [S e^(-cT) - K e^(-rT)]. *)
Theorem put_call_parity S K T r sigma c :
  0 < S -> 0 < K -> 0 < T -> 0 < sigma ->
  exists call put : float,
    BSMAnalytical.__init__ S K T r sigma c "call" ≫= BSMAnalytical.price = Ok call
    /\ BSMAnalytical.__init__ S K T r sigma c "put" ≫= BSMAnalytical.price = Ok put
    /\ call - put = S * exp (- (c * T)) - K * exp (- (r * T)).
Proof.
  intros HS HK HT Hs.
  exists (spec.call_price S K T r sigma c), (spec.put_price S K T r sigma c).
  split; [| split].
  - rewrite init_Ok by auto. now apply price_call_Ok.
  - rewrite init_Ok by auto. now apply price_put_Ok.
  - unfold spec.call_price, spec.put_price. rewrite !cdf_neg. lra.
Qed.

Lemma put_call_parity_witness :
  exists call put : float,
    BSMAnalytical.__init__ 100 90 0.5 0.02 0.3 0.01 "call" ≫= BSMAnalytical.price = Ok call
    /\ BSMAnalytical.__init__ 100 90 0.5 0.02 0.3 0.01 "put" ≫= BSMAnalytical.price = Ok put
    /\ call - put = 100 * exp (- (0.01 * 0.5)) - 90 * exp (- (0.02 * 0.5)).
Proof. apply (put_call_parity 100 90 0.5 0.02 0.3 0.01); lra. Defined.

(** C5. The constructor of [BSMAnalytical] raises [ValueError] (the
    validation error) whenever T <= 0, or sigma <= 0, or the lower-cased
    option kind is neither 'call' nor 'put', and then no price is returned;
    when all three preconditions hold the construction succeeds. *)
Theorem bsm_init_validation S K T r sigma c option_type :
  (T <= 0 \/ sigma <= 0 \/ ~ (lower option_type = "call" \/ lower option_type = "put") ->
   is_ValueError (BSMAnalytical.__init__ S K T r sigma c option_type)
   /\ forall v : float,
        BSMAnalytical.__init__ S K T r sigma c option_type ≫= BSMAnalytical.price
        <> Ok v)
  /\
  (0 < T -> 0 < sigma -> lower option_type = "call" \/ lower option_type = "put" ->
   BSMAnalytical.__init__ S K T r sigma c option_type
   = Ok (BSMAnalytical.mk S K T r sigma c (lower option_type))).
Proof.
  split; [| apply init_Ok].
  intros Hbad.
  assert (E : is_ValueError (BSMAnalytical.__init__ S K T r sigma c option_type)).
  { unfold BSMAnalytical.__init__. cbn.
    case_decide as Hkind; [eexists; reflexivity |].
    case_decide as Hpos; [eexists; reflexivity |].
    exfalso. destruct Hbad as [? | [? | Hk]]; [tauto | tauto |].
    apply Hk. set_unfold in Hkind. tauto. }
  split; [exact E |].
  intros v. destruct E as [msg ->]. discriminate.
Qed.

Lemma bsm_init_validation_witness :
  (is_ValueError (BSMAnalytical.__init__ 100 100 0 0.05 0.2 0 "call")
   /\ is_ValueError (BSMAnalytical.__init__ 100 100 1 0.05 (-0.1) 0 "call")
   /\ is_ValueError (BSMAnalytical.__init__ 100 100 1 0.05 0.2 0 "straddle"))
  /\ BSMAnalytical.__init__ 100 100 1 0.05 0.2 0 "Call"
     = Ok (BSMAnalytical.mk 100 100 1 0.05 0.2 0 "call").
Proof.
  split; [split; [| split] |].
  - apply (bsm_init_validation 100 100 0 0.05 0.2 0 "call"). left. lra.
  - apply (bsm_init_validation 100 100 1 0.05 (-0.1) 0 "call"). right. left. lra.
  - apply (bsm_init_validation 100 100 1 0.05 0.2 0 "straddle"). right. right.
    cbn. intros [H | H]; discriminate H.
  - apply (bsm_init_validation 100 100 1 0.05 0.2 0 "Call"); [lra | lra |].
    left. reflexivity.
Defined.

(** ** The Greeks mapping *)

Section greeks.
Variables (S K T r sigma c : float) (kind : string).
Hypothesis (S_pos : 0 < S) (K_pos : 0 < K) (T_pos : 0 < T) (sigma_pos : 0 < sigma).

Let self := BSMAnalytical.mk S K T r sigma c kind.

Lemma delta_total : exists v, BSMAnalytical.delta self = Ok v.
Proof.
  unfold BSMAnalytical.delta, self. rewrite d1_d2_Ok by assumption. cbn.
  case_decide; eauto.
Qed.

Lemma gamma_total : exists v, BSMAnalytical.gamma self = Ok v.
Proof.
  unfold BSMAnalytical.gamma, self. rewrite d1_d2_Ok by assumption. cbn.
  assert (0 < sqrt T) by now apply sqrt_lt_R0.
  rewrite sqrt_Ok by lra. cbn. rewrite truediv_Ok; [eauto |].
  apply Rgt_not_eq. repeat apply Rmult_lt_0_compat; assumption.
Qed.

Lemma theta_total : exists v, BSMAnalytical.theta self = Ok v.
Proof.
  unfold BSMAnalytical.theta, self. rewrite d1_d2_Ok by assumption. cbn.
  assert (0 < sqrt T) by now apply sqrt_lt_R0.
  case_decide; rewrite sqrt_Ok by lra; cbn; rewrite truediv_Ok by lra; cbn; eauto.
Qed.

Lemma rho_total : exists v, BSMAnalytical.rho self = Ok v.
Proof.
  unfold BSMAnalytical.rho, self. rewrite d1_d2_Ok by assumption. cbn.
  case_decide; eauto.
Qed.

(** The mapping built by [all_greeks] has the entry "Price", and its value
    is the price. *)
Lemma all_greeks_has_Price :
  kind = "call" \/ kind = "put" ->
  exists p g,
    BSMAnalytical.price self = Ok p
    /\ BSMAnalytical.all_greeks self = Ok g
    /\ g !! "Price" = Some p
    /\ is_Some (g !! "Delta").
Proof.
  intros Hkind.
  destruct (price_total S K T r sigma c kind S_pos K_pos T_pos sigma_pos Hkind)
    as [p Hp].
  destruct delta_total as [vd Hd]. destruct gamma_total as [vg Hg].
  destruct (vega_total S K T r sigma c kind S_pos K_pos T_pos sigma_pos) as [vv Hv].
  destruct theta_total as [vt Ht]. destruct rho_total as [vr Hr].
  fold self in Hp, Hv.
  eexists p, _. split; [exact Hp |].
  unfold BSMAnalytical.all_greeks.
  rewrite Hp, Hd, Hg, Hv, Ht, Hr. cbn [mbind result_bind].
  split; [reflexivity |]. split.
  - apply lookup_insert_eq.
  - rewrite lookup_insert_ne by discriminate. rewrite lookup_insert_eq. eauto.
Qed.

End greeks.

Lemma filter_drops_Price (m : gmap string float) :
  filter (fun kv : string * float => kv.1 <> "Price") m !! "Price" = None.
Proof.
  apply map_lookup_filter_None. right. intros x _ Hne. now apply Hne.
Qed.

Lemma price_option_greeks S K T r sigma c option_type model price greeks :
  app.price_option S K T r sigma c option_type model = app.json_ok price greeks ->
  greeks !! "Price" = None.
Proof.
  unfold app.price_option. intros H.
  case_decide; [discriminate |].
  case_decide; [discriminate |].
  case_decide as Hmodel.
  - destruct (BSMAnalytical.__init__ S K T r sigma c option_type) as [bsm | e];
      cbn [mbind result_bind] in H.
    2: { destruct e; discriminate. }
    destruct (BSMAnalytical.price bsm) as [p | e]; cbn [mbind result_bind] in H.
    2: { destruct e; discriminate. }
    destruct (BSMAnalytical.all_greeks bsm) as [g | e]; cbn [mbind result_bind] in H.
    2: { destruct e; discriminate. }
    injection H as _ <-. rewrite lookup_fmap, filter_drops_Price. reflexivity.
  - destruct (if decide (option_type = "call") then _ else _) as [p | e];
      cbn [mbind result_bind] in H.
    2: { destruct e; discriminate. }
    injection H as _ <-. rewrite lookup_fmap, lookup_empty. reflexivity.
Qed.

(** C9, as the code has it.  The mapping returned by [all_greeks] contains
    the entry "Price" (whose value is [price()]); it is the caller
    [price_option] that removes the entry: the Greeks mapping of its response
    never has the key "Price", and for the model 'bsm' the price is returned
    beside it, in the response's own field, with the other Greeks kept. *)
Theorem greeks_exclude_price_in_caller S K T r sigma c option_type :
  0 < S -> 0 < K -> 0 < T -> 0 < sigma ->
  option_type = "call" \/ option_type = "put" ->
  (exists p g,
     BSMAnalytical.__init__ S K T r sigma c option_type ≫= BSMAnalytical.price = Ok p
     /\ BSMAnalytical.__init__ S K T r sigma c option_type ≫= BSMAnalytical.all_greeks
        = Ok g
     /\ g !! "Price" = Some p
     /\ exists greeks,
          app.price_option S K T r sigma c option_type "bsm"
          = app.json_ok (app.round p 6) greeks
          /\ greeks !! "Price" = None
          /\ is_Some (greeks !! "Delta"))
  /\
  (forall model price greeks,
     app.price_option S K T r sigma c option_type model = app.json_ok price greeks ->
     greeks !! "Price" = None).
Proof.
  intros HS HK HT Hsigma Hkind.
  split; [| intros model price greeks; apply price_option_greeks].
  assert (Hlower : lower option_type = option_type)
    by (destruct Hkind as [-> | ->]; reflexivity).
  destruct (all_greeks_has_Price S K T r sigma c option_type HS HK HT Hsigma Hkind)
    as (p & g & Hp & Hg & HPrice & [vd HDelta]).
  exists p, g.
  rewrite init_Ok by (rewrite ?Hlower; auto). rewrite !bind_Ok, Hlower.
  split; [exact Hp |]. split; [exact Hg |]. split; [exact HPrice |].
  eexists. split; [| split].
  - unfold app.price_option.
    rewrite (decide_False (P := option_type ∉ ["call"; "put"]))
      by (intros Hn; apply Hn; rewrite !elem_of_cons; tauto).
    rewrite (decide_False (P := "bsm" ∉ ["bsm"; "baw"]))
      by (intros Hn; apply Hn; rewrite !elem_of_cons; tauto).
    rewrite (decide_True (P := "bsm" = "bsm")) by reflexivity.
    rewrite init_Ok by (rewrite ?Hlower; auto). rewrite bind_Ok, Hlower.
    rewrite Hp, Hg. cbn [mbind result_bind]. reflexivity.
  - rewrite lookup_fmap, filter_drops_Price. reflexivity.
  - rewrite lookup_fmap.
    erewrite (proj2 (map_lookup_filter_Some _ g "Delta" vd)); [eexists; reflexivity |].
    split; [exact HDelta | discriminate].
Qed.

Lemma greeks_exclude_price_in_caller_witness :
  exists p g,
    BSMAnalytical.__init__ 100 100 1 0.05 0.2 0 "call" ≫= BSMAnalytical.price = Ok p
    /\ BSMAnalytical.__init__ 100 100 1 0.05 0.2 0 "call" ≫= BSMAnalytical.all_greeks
       = Ok g
    /\ g !! "Price" = Some p
    /\ exists greeks,
         app.price_option 100 100 1 0.05 0.2 0 "call" "bsm"
         = app.json_ok (app.round p 6) greeks
         /\ greeks !! "Price" = None
         /\ is_Some (greeks !! "Delta").
Proof.
  apply (proj1 (greeks_exclude_price_in_caller 100 100 1 0.05 0.2 0 "call"
                  ltac:(lra) ltac:(lra) ltac:(lra) ltac:(lra) (or_introl eq_refl))).
Defined.

(** The claim C9 as stated fails: the mapping that [all_greeks] returns for
    the contract S = K = 100, T = 1, r = 0.05, sigma = 0.2, c = 0, 'call'
    has the entry "Price". *)
Lemma all_greeks_returns_price :
  exists p g,
    BSMAnalytical.__init__ 100 100 1 0.05 0.2 0 "call" ≫= BSMAnalytical.price = Ok p
    /\ BSMAnalytical.__init__ 100 100 1 0.05 0.2 0 "call" ≫= BSMAnalytical.all_greeks
       = Ok g
    /\ g !! "Price" = Some p.
Proof.
  destruct (all_greeks_has_Price 100 100 1 0.05 0.2 0 "call"
              ltac:(lra) ltac:(lra) ltac:(lra) ltac:(lra) (or_introl eq_refl))
    as (p & g & Hp & Hg & HPrice & _).
  exists p, g. rewrite init_Ok by (auto; lra). rewrite !bind_Ok. auto.
Qed.

(** ** implied_volatility *)

(** C3. For a market price that is non-negative and at or below the
    discounted intrinsic value, [implied_volatility] returns exactly 1e-8,
    through the [return] of line 92: neither loop is entered. *)
Theorem iv_floor market_price S K T r c tol max_iter :
  0 <= market_price ->
  (market_price <= Rmax (S * exp (- (c * T)) - K * exp (- (r * T))) 0 ->
   implied_volatility_exit market_price S K T r c "call" tol max_iter
   = Ok (at_floor, 1e-8)
   /\ implied_volatility market_price S K T r c "call" tol max_iter = Ok 1e-8)
  /\
  (market_price <= Rmax (K * exp (- (r * T)) - S * exp (- (c * T))) 0 ->
   implied_volatility_exit market_price S K T r c "put" tol max_iter
   = Ok (at_floor, 1e-8)
   /\ implied_volatility market_price S K T r c "put" tol max_iter = Ok 1e-8).
Proof.
  intros Hmp.
  split; intros Hle.
  - assert (E : implied_volatility_exit market_price S K T r c "call" tol max_iter
                = Ok (at_floor, 1e-8)).
    { unfold implied_volatility_exit. rewrite decide_False by lra.
      rewrite (decide_True (P := "call" = "call")) by reflexivity.
      rewrite py_max_Rmax.
      unfold math.exp. replace (- c * T) with (- (c * T)) by lra.
      replace (- r * T) with (- (r * T)) by lra. now rewrite decide_True. }
    split; [exact E |]. unfold implied_volatility. now rewrite E.
  - assert (E : implied_volatility_exit market_price S K T r c "put" tol max_iter
                = Ok (at_floor, 1e-8)).
    { unfold implied_volatility_exit. rewrite decide_False by lra.
      rewrite (decide_False (P := "put" = "call")) by discriminate.
      rewrite py_max_Rmax.
      unfold math.exp. replace (- c * T) with (- (c * T)) by lra.
      replace (- r * T) with (- (r * T)) by lra. now rewrite decide_True. }
    split; [exact E |]. unfold implied_volatility. now rewrite E.
Qed.

Lemma iv_floor_witness :
  implied_volatility_exit 0 50 100 1 0.05 0 "call" 1e-8 100 = Ok (at_floor, 1e-8)
  /\ implied_volatility 0 50 100 1 0.05 0 "call" 1e-8 100 = Ok 1e-8.
Proof.
  apply (proj1 (iv_floor 0 50 100 1 0.05 0 1e-8 100 (Rle_refl 0))).
  apply Rmax_r.
Defined.

Section iv_band.
Variables (market_price S K T r c : float) (option_type : string) (tol : float).

Let newton := newton_loop market_price S K T r c option_type tol.
Let bisection := bisection_loop market_price S K T r c option_type tol.

(** An iterate returned by the first loop never left [[1e-8, 5.0]]. *)
Lemma newton_loop_band iterations : forall sigma v,
  1e-8 <= sigma <= 5.0 ->
  newton iterations sigma = Ok (Some v) ->
  1e-8 <= v <= 5.0.
Proof.
  subst newton.
  induction iterations as [| n IH]; intros sigma v Hsigma H; [discriminate |].
  cbn [newton_loop] in H.
  invert_bind H. invert_bind H. invert_bind H.
  case_decide; [injection H as <-; exact Hsigma |].
  case_decide; [discriminate |].
  invert_bind H.
  case_decide as Hout; [discriminate |].
  eapply IH; [| exact H]. cbv zeta in Hout. lra.
Qed.

(** The second loop returns a midpoint of a sub-interval of [[1e-8, 5.0]]. *)
Lemma bisection_loop_band iterations : forall low high e v,
  1e-8 <= low <= 5.0 -> 1e-8 <= high <= 5.0 ->
  bisection iterations low high = Ok (e, v) ->
  1e-8 <= v <= 5.0.
Proof.
  subst bisection.
  induction iterations as [| n IH]; intros low high e v Hlow Hhigh H.
  - injection H as _ <-. lra.
  - cbn [bisection_loop] in H.
    invert_bind H. invert_bind H.
    case_decide; [injection H as _ <-; lra |].
    case_decide; (eapply IH; [| | exact H]; lra).
Qed.

Hypothesis (S_pos : 0 < S) (K_pos : 0 < K) (T_pos : 0 < T).
Hypothesis kind_ok : lower option_type = "call" \/ lower option_type = "put".

(** On a valid contract neither loop raises. *)
Lemma newton_loop_total iterations : forall sigma,
  1e-8 <= sigma -> exists o, newton iterations sigma = Ok o.
Proof.
  subst newton.
  induction iterations as [| n IH]; intros sigma Hsigma; [eexists; reflexivity |].
  cbn [newton_loop].
  rewrite init_Ok by (auto; lra). rewrite bind_Ok.
  destruct (price_total S K T r sigma c _ S_pos K_pos T_pos ltac:(lra) kind_ok)
    as [p ->].
  destruct (vega_total S K T r sigma c (lower option_type) S_pos K_pos T_pos ltac:(lra))
    as [v ->].
  rewrite !bind_Ok. cbv zeta.
  case_decide; [eexists; reflexivity |].
  case_decide; [eexists; reflexivity |].
  rewrite truediv_Ok by lra. rewrite bind_Ok.
  case_decide; [eexists; reflexivity |].
  apply IH. lra.
Qed.

Lemma bisection_loop_total iterations : forall low high,
  1e-8 <= low -> 1e-8 <= high -> exists ev, bisection iterations low high = Ok ev.
Proof.
  subst bisection.
  induction iterations as [| n IH]; intros low high Hlow Hhigh; [eexists; reflexivity |].
  cbn [bisection_loop].
  rewrite init_Ok by (auto; lra). rewrite bind_Ok.
  destruct (price_total S K T r ((low + high) / 2) c _ S_pos K_pos T_pos
              ltac:(lra) kind_ok) as [p ->].
  rewrite bind_Ok.
  case_decide; [eexists; reflexivity |].
  case_decide; apply IH; lra.
Qed.

End iv_band.

Lemma implied_volatility_exit_band market_price S K T r c option_type tol max_iter e v :
  implied_volatility_exit market_price S K T r c option_type tol max_iter = Ok (e, v) ->
  1e-8 <= v <= 5.0.
Proof.
  unfold implied_volatility_exit. intros H.
  case_decide; [discriminate |].
  case_decide; [injection H as _ <-; lra |].
  invert_bind H. destruct x as [sigma |].
  - injection H as _ <-.
    eapply newton_loop_band; [| exact E]. lra.
  - eapply bisection_loop_band; [| | exact H]; lra.
Qed.

(** C10. Whenever [implied_volatility] returns a value, the value lies in
    [[1e-8, 5.0]]; and for a non-negative market price, T > 0, S > 0, K > 0
    and a kind that is 'call' or 'put' it does return a value. *)
Theorem iv_in_band market_price S K T r c option_type tol max_iter :
  (forall v,
     implied_volatility market_price S K T r c option_type tol max_iter = Ok v ->
     1e-8 <= v <= 5.0)
  /\
  (0 <= market_price -> 0 < T -> 0 < S -> 0 < K ->
   lower option_type = "call" \/ lower option_type = "put" ->
   exists v,
     implied_volatility market_price S K T r c option_type tol max_iter = Ok v
     /\ 1e-8 <= v <= 5.0).
Proof.
  assert (Band : forall v,
    implied_volatility market_price S K T r c option_type tol max_iter = Ok v ->
    1e-8 <= v <= 5.0).
  { intros v. unfold implied_volatility.
    destruct (implied_volatility_exit _ _ _ _ _ _ _ _ _) as [[e w] |] eqn:E;
      [| discriminate].
    intros [= <-]. now apply implied_volatility_exit_band in E. }
  split; [exact Band |].
  intros Hmp HT HS HK Hkind.
  assert (Total : exists ev,
    implied_volatility_exit market_price S K T r c option_type tol max_iter = Ok ev).
  { unfold implied_volatility_exit.
    rewrite decide_False by lra.
    case_decide; [eexists; reflexivity |].
    destruct (newton_loop_total market_price S K T r c option_type tol HS HK HT Hkind
                (Z.to_nat max_iter) 0.2 ltac:(lra)) as [[sigma |] ->]; rewrite bind_Ok.
    - eexists; reflexivity.
    - apply bisection_loop_total; auto; lra. }
  destruct Total as [[e v] E]. exists v.
  assert (Ev : implied_volatility market_price S K T r c option_type tol max_iter = Ok v)
    by (unfold implied_volatility; now rewrite E).
  split; [exact Ev | exact (Band v Ev)].
Qed.

Lemma iv_in_band_witness :
  exists v,
    implied_volatility 10 100 100 1 0.05 0 "call" 1e-8 100 = Ok v
    /\ 1e-8 <= v <= 5.0.
Proof.
  apply (proj2 (iv_in_band 10 100 100 1 0.05 0 "call" 1e-8 100)); [lra .. |].
  left. reflexivity.
Defined.

(** ** Barone-Adesi-Whaley *)

(** C4. When the yield is at least the rate (and S, K, T, sigma are
    positive), [baw_american_call] takes the path of the analytic pricer:
    it returns the value of [BSMAnalytical(S, K, T, r, sigma, c,
    'call').price()], and that value is computed. *)
Theorem baw_call_is_european S K T r sigma c :
  c >= r -> 0 < S -> 0 < K -> 0 < T -> 0 < sigma ->
  baw_american_call S K T r sigma c
  = BSMAnalytical.__init__ S K T r sigma c "call" ≫= BSMAnalytical.price
  /\ baw_american_call S K T r sigma c = Ok (spec.call_price S K T r sigma c).
Proof.
  intros Hcr HS HK HT Hs.
  assert (E : baw_american_call S K T r sigma c
              = BSMAnalytical.__init__ S K T r sigma c "call" ≫= BSMAnalytical.price).
  { unfold baw_american_call. now rewrite decide_True. }
  split; [exact E |].
  rewrite E, init_Ok by auto. now apply price_call_Ok.
Qed.

Lemma baw_call_is_european_witness :
  baw_american_call 100 100 1 0.02 0.2 0.05
  = BSMAnalytical.__init__ 100 100 1 0.02 0.2 0.05 "call" ≫= BSMAnalytical.price
  /\ baw_american_call 100 100 1 0.02 0.2 0.05
     = Ok (spec.call_price 100 100 1 0.02 0.2 0.05).
Proof. apply (baw_call_is_european 100 100 1 0.02 0.2 0.05); lra. Defined.

(** The call, on the path that computes the root: when the root [q2]
    evaluates to 1, [K / (1 - 1/q2)] divides by zero.  The lemma is stated on
    the value of the root, not on the inputs that give it. *)
Lemma baw_call_root_one S K T r sigma c :
  c < r -> sigma <> 0 ->
  0 <= (r - c - sigma ^ 2 / 2) ^ 2 + 2 * r * sigma ^ 2 ->
  (- (r - c - sigma ^ 2 / 2)
   + sqrt ((r - c - sigma ^ 2 / 2) ^ 2 + 2 * r * sigma ^ 2)) / sigma ^ 2 = 1 ->
  baw_american_call S K T r sigma c = Raise ZeroDivisionError.
Proof.
  intros Hcr Hsigma HD Hroot. unfold baw_american_call.
  rewrite decide_False by lra.
  assert (Hs2 : 0 < sigma ^ 2) by (apply pow_nonzero_pos; exact Hsigma).
  step ltac:(apply sqrt_Ok; exact HD).
  step ltac:(apply truediv_Ok; lra).
  rewrite Hroot.
  step ltac:(apply truediv_Ok; lra).
  apply bind_eq_Raise, truediv_by_zero. lra.
Qed.

(** The put, when the root [q1] evaluates to 1. *)
Lemma baw_put_root_one S K T r sigma c :
  sigma <> 0 ->
  0 <= (r - c - sigma ^ 2 / 2) ^ 2 + 2 * r * sigma ^ 2 ->
  (- (r - c - sigma ^ 2 / 2)
   - sqrt ((r - c - sigma ^ 2 / 2) ^ 2 + 2 * r * sigma ^ 2)) / sigma ^ 2 = 1 ->
  baw_american_put S K T r sigma c = Raise ZeroDivisionError.
Proof.
  intros Hsigma HD Hroot. unfold baw_american_put.
  assert (Hs2 : 0 < sigma ^ 2) by (apply pow_nonzero_pos; exact Hsigma).
  step ltac:(apply sqrt_Ok; exact HD).
  step ltac:(apply truediv_Ok; lra).
  rewrite Hroot.
  step ltac:(apply truediv_Ok; lra).
  apply bind_eq_Raise, truediv_by_zero. lra.
Qed.

(** Two inputs whose root is 1 and is computed without rounding in binary
    floating point: r = 0.125, sigma = 0.5, c = 0 gives the discriminant
    0.0625, its square root 0.25 and [q2 = 0.25 / 0.25]; r = -0.125 gives
    the discriminant 0 and [q1 = 0.25 / 0.25]. *)
Lemma baw_call_root_example :
  0 <= (0.125 - 0 - 0.5 ^ 2 / 2) ^ 2 + 2 * 0.125 * 0.5 ^ 2
  /\ (- (0.125 - 0 - 0.5 ^ 2 / 2)
      + sqrt ((0.125 - 0 - 0.5 ^ 2 / 2) ^ 2 + 2 * 0.125 * 0.5 ^ 2)) / 0.5 ^ 2 = 1.
Proof.
  replace ((0.125 - 0 - 0.5 ^ 2 / 2) ^ 2 + 2 * 0.125 * 0.5 ^ 2) with (0.25 ^ 2)
    by lra.
  rewrite sqrt_pow2 by lra. split; lra.
Qed.

Lemma baw_put_root_example :
  0 <= (-0.125 - 0 - 0.5 ^ 2 / 2) ^ 2 + 2 * -0.125 * 0.5 ^ 2
  /\ (- (-0.125 - 0 - 0.5 ^ 2 / 2)
      - sqrt ((-0.125 - 0 - 0.5 ^ 2 / 2) ^ 2 + 2 * -0.125 * 0.5 ^ 2)) / 0.5 ^ 2 = 1.
Proof.
  replace ((-0.125 - 0 - 0.5 ^ 2 / 2) ^ 2 + 2 * -0.125 * 0.5 ^ 2) with 0 by lra.
  rewrite sqrt_0. split; lra.
Qed.

Lemma discriminant_sigma_zero r c : 0 <= (r - c - 0 ^ 2 / 2) ^ 2 + 2 * r * 0 ^ 2.
Proof.
  replace ((r - c - 0 ^ 2 / 2) ^ 2 + 2 * r * 0 ^ 2) with ((r - c) ^ 2) by field.
  apply pow2_ge_0.
Qed.

(** With [sigma = 0] the root itself divides by zero. *)
Lemma baw_call_sigma_zero S K T r c :
  c < r -> baw_american_call S K T r 0 c = Raise ZeroDivisionError.
Proof.
  intros Hcr. unfold baw_american_call.
  rewrite decide_False by lra.
  step ltac:(apply sqrt_Ok, discriminant_sigma_zero).
  apply bind_eq_Raise, truediv_by_zero. lra.
Qed.

Lemma baw_put_sigma_zero S K T r c :
  baw_american_put S K T r 0 c = Raise ZeroDivisionError.
Proof.
  unfold baw_american_put.
  step ltac:(apply sqrt_Ok, discriminant_sigma_zero).
  apply bind_eq_Raise, truediv_by_zero. lra.
Qed.

(** On the path of the call that delegates to the analytic pricer the
    constructor's validation is reached first. *)
Lemma baw_call_validated S K T r sigma c :
  c >= r -> T <= 0 \/ sigma <= 0 ->
  baw_american_call S K T r sigma c
  = Raise (ValueError "T and sigma must be positive").
Proof.
  intros Hcr Hbad. unfold baw_american_call, BSMAnalytical.__init__.
  rewrite decide_True by exact Hcr. cbn.
  rewrite (decide_False (P := "call" ∉ ["call"; "put"]))
    by (intros Hn; apply Hn; rewrite !elem_of_cons; tauto).
  rewrite decide_True by exact Hbad. reflexivity.
Qed.

(** C6, as the code has it.  The BAW pricers do not guard their degenerate
    inputs: no test of [sigma] or of the root precedes the divisions.  With
    [sigma = 0] (where the root is computed: the put always, the call when
    c < r) the division by [sigma ** 2] raises [ZeroDivisionError]; when the
    characteristic root evaluates to 1, the division [K / (1 - 1/q)] raises
    [ZeroDivisionError].  No price is returned, and the error is not the
    validation error.  The validation error for T <= 0 or sigma <= 0 is the
    one of the constructor of [BSMAnalytical], which the call reaches first
    when c >= r.  The statement is on the value of the root: which inputs
    give a root of exactly 1 is a matter of rounding in floating point, and
    is not stated. *)
Theorem baw_degenerate_inputs S K T r sigma c :
  let D := (r - c - sigma ^ 2 / 2) ^ 2 + 2 * r * sigma ^ 2 in
  let q2 := (- (r - c - sigma ^ 2 / 2) + sqrt D) / sigma ^ 2 in
  let q1 := (- (r - c - sigma ^ 2 / 2) - sqrt D) / sigma ^ 2 in
  (sigma = 0 ->
   baw_american_put S K T r sigma c = Raise ZeroDivisionError
   /\ (c < r -> baw_american_call S K T r sigma c = Raise ZeroDivisionError))
  /\
  (c < r -> sigma <> 0 -> 0 <= D -> q2 = 1 ->
   baw_american_call S K T r sigma c = Raise ZeroDivisionError)
  /\
  (sigma <> 0 -> 0 <= D -> q1 = 1 ->
   baw_american_put S K T r sigma c = Raise ZeroDivisionError)
  /\
  (c >= r -> T <= 0 \/ sigma <= 0 ->
   is_ValueError (baw_american_call S K T r sigma c)).
Proof.
  intros D q2 q1. split; [| split; [| split]].
  - intros ->. split; [apply baw_put_sigma_zero | apply baw_call_sigma_zero].
  - apply baw_call_root_one.
  - apply baw_put_root_one.
  - intros Hcr Hbad. eexists. now apply baw_call_validated.
Qed.

Lemma baw_degenerate_inputs_witness :
  (baw_american_put 100 100 1 0.05 0 0.01 = Raise ZeroDivisionError
   /\ baw_american_call 100 100 1 0.05 0 0.01 = Raise ZeroDivisionError)
  /\ baw_american_call 100 100 1 0.125 0.5 0 = Raise ZeroDivisionError
  /\ baw_american_put 100 100 1 (-0.125) 0.5 0 = Raise ZeroDivisionError
  /\ is_ValueError (baw_american_call 100 100 1 0.02 0 0.05).
Proof.
  split; [| split; [| split]].
  - destruct (proj1 (baw_degenerate_inputs 100 100 1 0.05 0 0.01) eq_refl)
      as [Hput Hcall].
    split; [exact Hput | apply Hcall; lra].
  - apply (proj1 (proj2 (baw_degenerate_inputs 100 100 1 0.125 0.5 0)));
      [lra | lra | apply baw_call_root_example | apply baw_call_root_example].
  - apply (proj1 (proj2 (proj2 (baw_degenerate_inputs 100 100 1 (-0.125) 0.5 0))));
      [lra | apply baw_put_root_example | apply baw_put_root_example].
  - apply (proj2 (proj2 (proj2 (baw_degenerate_inputs 100 100 1 0.02 0 0.05)))); lra.
Defined.

(** The claim C6 as stated fails.  With the root equal to 1 (S = K = 100,
    T = 1, sigma = 0.5, c = 0, r = 0.125 for the call and r = -0.125 for
    the put) and with sigma = 0 both pricers stop on [ZeroDivisionError],
    which is not the validation error: [price_option] answers 500
    "Internal server error", not 400. *)
Lemma baw_zero_division_not_domain_error :
  baw_american_call 100 100 1 0.125 0.5 0 = Raise ZeroDivisionError
  /\ baw_american_put 100 100 1 (-0.125) 0.5 0 = Raise ZeroDivisionError
  /\ baw_american_call 100 100 1 0.05 0 0.01 = Raise ZeroDivisionError
  /\ baw_american_put 100 100 1 0.05 0 0.01 = Raise ZeroDivisionError
  /\ ~ is_ValueError (baw_american_call 100 100 1 0.125 0.5 0)
  /\ ~ is_ValueError (baw_american_put 100 100 1 (-0.125) 0.5 0)
  /\ app.price_option 100 100 1 0.125 0.5 0 "call" "baw"
     = app.json_error 500 "Internal server error".
Proof.
  assert (Ecall : baw_american_call 100 100 1 0.125 0.5 0 = Raise ZeroDivisionError).
  { apply baw_call_root_one;
      [lra | lra | apply baw_call_root_example | apply baw_call_root_example]. }
  assert (Eput : baw_american_put 100 100 1 (-0.125) 0.5 0 = Raise ZeroDivisionError).
  { apply baw_put_root_one;
      [lra | apply baw_put_root_example | apply baw_put_root_example]. }
  repeat split.
  - exact Ecall.
  - exact Eput.
  - apply baw_call_sigma_zero. lra.
  - apply baw_put_sigma_zero.
  - rewrite Ecall. intros [msg H]. discriminate H.
  - rewrite Eput. intros [msg H]. discriminate H.
  - unfold app.price_option.
    rewrite (decide_False (P := "call" ∉ ["call"; "put"]))
      by (intros Hn; apply Hn; rewrite !elem_of_cons; tauto).
    rewrite (decide_False (P := "baw" ∉ ["bsm"; "baw"]))
      by (intros Hn; apply Hn; rewrite !elem_of_cons; tauto).
    rewrite (decide_False (P := "baw" = "bsm")) by discriminate.
    rewrite (decide_True (P := "call" = "call")) by reflexivity.
    rewrite Ecall. reflexivity.
Qed.

(** ** The lattice constructors *)

Lemma zeros_Ok rows cols :
  (0 <= rows)%Z -> (0 <= cols)%Z ->
  exists a, np.zeros rows cols = Ok a /\ np.has_shape a (Z.to_nat rows) (Z.to_nat cols).
Proof.
  intros Hr Hc. unfold np.zeros. rewrite decide_False by lia.
  eexists. split; [reflexivity |]. split.
  - apply length_replicate.
  - apply Forall_replicate, length_replicate.
Qed.

Lemma index_Ok len i :
  (0 <= i < Z.of_nat len)%Z -> np.index len i = Ok (Z.to_nat i).
Proof. intros Hi. unfold np.index. now rewrite decide_True. Qed.

Lemma getitem_Ok a rows cols i j :
  np.has_shape a rows cols ->
  (0 <= i < Z.of_nat rows)%Z -> (0 <= j < Z.of_nat cols)%Z ->
  exists v, np.getitem a i j = Ok v.
Proof.
  intros [Hlen Hrows] Hi Hj. unfold np.getitem.
  rewrite index_Ok by lia. rewrite bind_Ok.
  destruct (lookup_lt_is_Some_2 a (Z.to_nat i) ltac:(lia)) as [row Hrow].
  rewrite Hrow.
  assert (Hcols : length row = cols)
    by exact (proj1 (Forall_lookup _ a) Hrows _ _ Hrow).
  rewrite index_Ok by lia. rewrite bind_Ok.
  destruct (lookup_lt_is_Some_2 row (Z.to_nat j) ltac:(lia)) as [v Hv].
  rewrite Hv. eauto.
Qed.

Lemma setitem_Ok a rows cols i j v :
  np.has_shape a rows cols ->
  (0 <= i < Z.of_nat rows)%Z -> (0 <= j < Z.of_nat cols)%Z ->
  exists a', np.setitem a i j v = Ok a' /\ np.has_shape a' rows cols.
Proof.
  intros [Hlen Hrows] Hi Hj. unfold np.setitem.
  rewrite index_Ok by lia. rewrite bind_Ok.
  destruct (lookup_lt_is_Some_2 a (Z.to_nat i) ltac:(lia)) as [row Hrow].
  rewrite Hrow.
  assert (Hcols : length row = cols)
    by exact (proj1 (Forall_lookup _ a) Hrows _ _ Hrow).
  rewrite index_Ok by lia. rewrite bind_Ok.
  eexists. split; [reflexivity |]. split.
  - now rewrite length_insert.
  - apply Forall_insert; [exact Hrows |]. now rewrite length_insert.
Qed.

(** A loop whose body keeps an invariant and never raises on the values it
    ranges over runs to its end and keeps the invariant. *)
Lemma for_each_invariant {A St : Type} (Inv : St -> Prop) (P : A -> Prop)
    (body : A -> St -> result St) (xs : list A) :
  Forall P xs ->
  (forall x s, P x -> Inv s -> exists s', body x s = Ok s' /\ Inv s') ->
  forall s, Inv s -> exists s', for_each xs body s = Ok s' /\ Inv s'.
Proof.
  intros Hxs Hbody. induction Hxs as [| x xs Hx _ IH]; intros s Hs.
  - exists s. split; [reflexivity | exact Hs].
  - cbn [for_each]. destruct (Hbody x s Hx Hs) as (s' & -> & Hs').
    rewrite bind_Ok. apply IH, Hs'.
Qed.

Lemma range_bounds lo hi : Forall (fun x => lo <= x < hi)%Z (range lo hi).
Proof.
  apply Forall_forall. intros x Hx. unfold range in Hx.
  apply elem_of_seqZ in Hx. lia.
Qed.

(** The binomial constructor runs to its end whenever n >= 1, T > 0 and
    sigma is not zero: no step of it looks at the sign of sigma. *)
Lemma binomial_constructed T S0 r sigma c K n option_type :
  (1 <= n)%Z -> 0 < T -> sigma <> 0 ->
  exists tree, BinomialTree.__init__ T S0 r sigma c K n option_type = Ok tree.
Proof.
  intros Hn HT Hsigma.
  assert (Hn' : 1 <= IZR n) by now apply IZR_le.
  assert (Hdt : 0 < T / IZR n).
  { apply Rmult_lt_0_compat; [exact HT |]. apply Rinv_0_lt_compat. lra. }
  assert (Hsq : 0 < sqrt (T / IZR n)) by now apply sqrt_lt_R0.
  set (u := exp (sigma * sqrt (T / IZR n))).
  assert (Hu : 0 < u) by apply exp_pos.
  assert (Hu1 : u <> 1).
  { intros E. apply exp_one_inv in E. nra. }
  assert (Hud : u - 1.0 / u <> 0).
  { intros E. apply Hu1.
    assert (u * u = 1) by (field_simplify_eq in E; [nra | lra]).
    nra. }
  unfold BinomialTree.__init__. cbv zeta.
  step_returns ltac:(apply truediv_Ok; lra).
  step_returns ltac:(apply sqrt_Ok; lra).
  unfold math.exp. fold u.
  step_returns ltac:(apply truediv_Ok; lra).
  step_returns ltac:(apply truediv_Ok; exact Hud).
  destruct (zeros_Ok (n + 1) (n + 1) ltac:(lia) ltac:(lia)) as (a0 & -> & Ha0).
  rewrite bind_Ok.
  set (rows := Z.to_nat (n + 1)) in *.
  assert (Hrows : Z.of_nat rows = (n + 1)%Z) by (subst rows; lia).
  destruct (setitem_Ok a0 rows rows 0 0 S0 Ha0 ltac:(lia) ltac:(lia))
    as (a1 & -> & Ha1).
  rewrite bind_Ok.
  match goal with
  | |- context [for_each (range 1 (n + 1)) ?body a1] =>
      destruct (for_each_invariant (fun a => np.has_shape a rows rows)
                  (fun i => 1 <= i < n + 1)%Z body (range 1 (n + 1))
                  (range_bounds _ _)) with (s := a1) as (a2 & -> & Ha2)
  end.
  - intros i a Hi Ha.
    destruct (getitem_Ok a rows rows 0 (i - 1) Ha ltac:(lia) ltac:(lia)) as [v ->].
    rewrite bind_Ok.
    destruct (setitem_Ok a rows rows 0 i (v * u) Ha ltac:(lia) ltac:(lia))
      as (a' & -> & Ha').
    rewrite bind_Ok.
    apply (for_each_invariant (fun a => np.has_shape a rows rows)
             (fun j => 1 <= j < i + 1)%Z); [apply range_bounds | | exact Ha'].
    intros j b Hj Hb.
    destruct (getitem_Ok b rows rows (j - 1) (i - 1) Hb ltac:(lia) ltac:(lia))
      as [w ->].
    rewrite bind_Ok.
    apply setitem_Ok; [exact Hb | lia | lia].
  - exact Ha1.
  - rewrite bind_Ok. eexists. reflexivity.
Qed.

Lemma trinomial_constructed T S0 r sigma c K n option_type :
  (1 <= n)%Z -> 0 <= T -> sigma <> 0 ->
  exists tree, TrinomialTree.__init__ T S0 r sigma c K n option_type = Ok tree.
Proof.
  intros Hn HT Hsigma.
  assert (Hn' : 1 <= IZR n) by now apply IZR_le.
  assert (Hdt : 0 <= T / IZR n).
  { apply Rmult_le_pos; [exact HT |]. left. apply Rinv_0_lt_compat. lra. }
  assert (H3 : 0 < sqrt 3) by (apply sqrt_lt_R0; lra).
  assert (Hden : 2 * sigma * sqrt 3 <> 0) by nra.
  unfold TrinomialTree.__init__. cbv zeta.
  step_returns ltac:(apply truediv_Ok; lra).
  step_returns ltac:(apply sqrt_Ok; lra).
  step_returns ltac:(apply sqrt_Ok; lra).
  step_returns ltac:(apply sqrt_Ok; lra).
  step_returns ltac:(apply truediv_Ok; exact Hden).
  step_returns ltac:(apply sqrt_Ok; lra).
  step_returns ltac:(apply sqrt_Ok; lra).
  step_returns ltac:(apply truediv_Ok; exact Hden).
  eexists. reflexivity.
Qed.

(** What the constructor stores: the floored probabilities and their
    complement. *)
Lemma trinomial_stored T S0 r sigma c K n option_type tree :
  TrinomialTree.__init__ T S0 r sigma c K n option_type = Ok tree ->
  0 <= tree.(TrinomialTree.p_u)
  /\ 0 <= tree.(TrinomialTree.p_d)
  /\ tree.(TrinomialTree.p_m)
     = 1 - tree.(TrinomialTree.p_u) - tree.(TrinomialTree.p_d)
  /\ tree.(TrinomialTree.p_u) + tree.(TrinomialTree.p_m)
     + tree.(TrinomialTree.p_d) = 1.
Proof.
  intros H. unfold TrinomialTree.__init__ in H. cbv zeta in H.
  do 8 invert_bind H. injection H as <-. cbn.
  repeat split; try apply py_max_nonneg; lra.
Qed.

(** C8. Every constructed trinomial tree stores probabilities with
    [p_u >= 0], [p_d >= 0] and [p_u + p_m + p_d = 1], the middle one being
    the complement of the two floored ones; and for n >= 1, sigma > 0 (and
    T >= 0, so that the square roots exist) the construction succeeds. *)
Theorem trinomial_probabilities T S0 r sigma c K n option_type :
  (forall tree,
     TrinomialTree.__init__ T S0 r sigma c K n option_type = Ok tree ->
     0 <= tree.(TrinomialTree.p_u)
     /\ 0 <= tree.(TrinomialTree.p_d)
     /\ tree.(TrinomialTree.p_m)
        = 1 - tree.(TrinomialTree.p_u) - tree.(TrinomialTree.p_d)
     /\ tree.(TrinomialTree.p_u) + tree.(TrinomialTree.p_m)
        + tree.(TrinomialTree.p_d) = 1)
  /\
  ((1 <= n)%Z -> 0 < sigma -> 0 <= T ->
   exists tree,
     TrinomialTree.__init__ T S0 r sigma c K n option_type = Ok tree
     /\ 0 <= tree.(TrinomialTree.p_u)
     /\ 0 <= tree.(TrinomialTree.p_d)
     /\ tree.(TrinomialTree.p_u) + tree.(TrinomialTree.p_m)
        + tree.(TrinomialTree.p_d) = 1).
Proof.
  split; [intros tree; apply trinomial_stored |].
  intros Hn Hsigma HT.
  destruct (trinomial_constructed T S0 r sigma c K n option_type Hn HT ltac:(lra))
    as [tree E].
  exists tree. destruct (trinomial_stored _ _ _ _ _ _ _ _ _ E) as (? & ? & ? & ?).
  auto.
Qed.

Lemma trinomial_probabilities_witness :
  exists tree,
    TrinomialTree.__init__ 1 100 0.05 0.2 0 100 100 "call" = Ok tree
    /\ 0 <= tree.(TrinomialTree.p_u)
    /\ 0 <= tree.(TrinomialTree.p_d)
    /\ tree.(TrinomialTree.p_u) + tree.(TrinomialTree.p_m)
       + tree.(TrinomialTree.p_d) = 1.
Proof.
  apply (proj2 (trinomial_probabilities 1 100 0.05 0.2 0 100 100 "call")); [lia | lra | lra].
Defined.

Lemma lattice_n_zero T S0 r sigma c K option_type :
  BinomialTree.__init__ T S0 r sigma c K 0 option_type = Raise ZeroDivisionError
  /\ TrinomialTree.__init__ T S0 r sigma c K 0 option_type = Raise ZeroDivisionError.
Proof.
  split.
  - unfold BinomialTree.__init__. cbv zeta.
    apply bind_eq_Raise, truediv_by_zero. reflexivity.
  - unfold TrinomialTree.__init__. cbv zeta.
    apply bind_eq_Raise, truediv_by_zero. reflexivity.
Qed.

Lemma lattice_n_negative T S0 r sigma c K n option_type :
  (n < 0)%Z -> 0 < T ->
  BinomialTree.__init__ T S0 r sigma c K n option_type
  = Raise (ValueError "math domain error")
  /\ TrinomialTree.__init__ T S0 r sigma c K n option_type
     = Raise (ValueError "math domain error").
Proof.
  intros Hn HT.
  assert (Hn' : IZR n < 0) by now apply (IZR_lt n 0).
  assert (Hinv : / IZR n < 0) by now apply Rinv_neg.
  assert (Hdt : T / IZR n < 0) by (unfold Rdiv; nra).
  split.
  - unfold BinomialTree.__init__. cbv zeta.
    step ltac:(apply truediv_Ok; lra).
    apply bind_eq_Raise, sqrt_negative. exact Hdt.
  - unfold TrinomialTree.__init__. cbv zeta.
    step ltac:(apply truediv_Ok; lra).
    apply bind_eq_Raise, sqrt_negative. lra.
Qed.

Lemma lattice_sigma_zero T S0 r c K n option_type :
  (1 <= n)%Z -> 0 < T ->
  BinomialTree.__init__ T S0 r 0 c K n option_type = Raise ZeroDivisionError
  /\ TrinomialTree.__init__ T S0 r 0 c K n option_type = Raise ZeroDivisionError.
Proof.
  intros Hn HT.
  assert (Hn' : 1 <= IZR n) by now apply IZR_le.
  assert (Hdt : 0 < T / IZR n).
  { apply Rmult_lt_0_compat; [exact HT |]. apply Rinv_0_lt_compat. lra. }
  split.
  - unfold BinomialTree.__init__. cbv zeta.
    step ltac:(apply truediv_Ok; lra).
    step ltac:(apply sqrt_Ok; lra).
    unfold math.exp. rewrite Rmult_0_l, exp_0.
    step ltac:(apply truediv_Ok; lra).
    apply bind_eq_Raise, truediv_by_zero. lra.
  - unfold TrinomialTree.__init__. cbv zeta.
    step ltac:(apply truediv_Ok; lra).
    step ltac:(apply sqrt_Ok; lra).
    step ltac:(apply sqrt_Ok; lra).
    step ltac:(apply sqrt_Ok; lra).
    apply bind_eq_Raise, truediv_by_zero. lra.
Qed.

(** C7, as the code has it.  Neither lattice constructor validates [n] or
    [sigma].  For T > 0: [n = 0] stops on the [ZeroDivisionError] of
    [T / n], [n < 0] on the [ValueError] that [math.sqrt] raises for the
    negative [dt], and [sigma = 0] (with n >= 1) on the [ZeroDivisionError]
    of the probability formula; a negative [sigma] (with n >= 1) is
    accepted: both constructors return a tree. *)
Theorem lattice_constructors_unvalidated T S0 r sigma c K n option_type :
  0 < T ->
  (n = 0%Z ->
   BinomialTree.__init__ T S0 r sigma c K n option_type = Raise ZeroDivisionError
   /\ TrinomialTree.__init__ T S0 r sigma c K n option_type = Raise ZeroDivisionError)
  /\
  ((n < 0)%Z ->
   BinomialTree.__init__ T S0 r sigma c K n option_type
   = Raise (ValueError "math domain error")
   /\ TrinomialTree.__init__ T S0 r sigma c K n option_type
      = Raise (ValueError "math domain error"))
  /\
  ((1 <= n)%Z -> sigma = 0 ->
   BinomialTree.__init__ T S0 r sigma c K n option_type = Raise ZeroDivisionError
   /\ TrinomialTree.__init__ T S0 r sigma c K n option_type = Raise ZeroDivisionError)
  /\
  ((1 <= n)%Z -> sigma < 0 ->
   (exists tree, BinomialTree.__init__ T S0 r sigma c K n option_type = Ok tree)
   /\ (exists tree, TrinomialTree.__init__ T S0 r sigma c K n option_type = Ok tree)).
Proof.
  intros HT. split; [| split; [| split]].
  - intros ->. apply lattice_n_zero.
  - intros Hn. now apply lattice_n_negative.
  - intros Hn ->. now apply lattice_sigma_zero.
  - intros Hn Hsigma. split.
    + apply binomial_constructed; [exact Hn | exact HT | lra].
    + apply trinomial_constructed; [exact Hn | lra | lra].
Qed.

Lemma lattice_constructors_unvalidated_witness :
  (BinomialTree.__init__ 1 100 0.05 0.2 0 100 0 "call" = Raise ZeroDivisionError
   /\ TrinomialTree.__init__ 1 100 0.05 0.2 0 100 0 "call" = Raise ZeroDivisionError)
  /\
  ((exists tree, BinomialTree.__init__ 1 100 0.05 (-0.2) 0 100 3 "call" = Ok tree)
   /\ (exists tree, TrinomialTree.__init__ 1 100 0.05 (-0.2) 0 100 3 "call" = Ok tree)).
Proof.
  split.
  - apply (proj1 (lattice_constructors_unvalidated 1 100 0.05 0.2 0 100 0 "call"
                    ltac:(lra))).
    reflexivity.
  - apply (proj2 (proj2 (proj2
             (lattice_constructors_unvalidated 1 100 0.05 (-0.2) 0 100 3 "call"
                ltac:(lra))))); [lia | lra].
Defined.

(** The claim C7 as stated fails.  With sigma = -0.2 (T = 1, S0 = K = 100,
    r = 0.05, c = 0, n = 3) both constructors return a tree, whose volatility
    is the negative one; with n = 0 they stop on [ZeroDivisionError], which is
    not the validation error. *)
Lemma lattice_accepts_negative_sigma :
  (exists tree,
     BinomialTree.__init__ 1 100 0.05 (-0.2) 0 100 3 "call" = Ok tree
     /\ tree.(BinomialTree.sigma) = -0.2)
  /\ (exists tree,
        TrinomialTree.__init__ 1 100 0.05 (-0.2) 0 100 3 "call" = Ok tree
        /\ tree.(TrinomialTree.sigma) = -0.2)
  /\ BinomialTree.__init__ 1 100 0.05 0.2 0 100 0 "call" = Raise ZeroDivisionError
  /\ TrinomialTree.__init__ 1 100 0.05 0.2 0 100 0 "call" = Raise ZeroDivisionError
  /\ ~ is_ValueError (BinomialTree.__init__ 1 100 0.05 0.2 0 100 0 "call")
  /\ ~ is_ValueError (TrinomialTree.__init__ 1 100 0.05 0.2 0 100 0 "call").
Proof.
  destruct (lattice_n_zero 1 100 0.05 0.2 0 100 "call") as [Eb Et].
  repeat split.
  - destruct (binomial_constructed 1 100 0.05 (-0.2) 0 100 3 "call"
                ltac:(lia) ltac:(lra) ltac:(lra)) as [tree E].
    exists tree. split; [exact E |].
    unfold BinomialTree.__init__ in E. cbv zeta in E.
    do 7 invert_bind E. injection E as <-. reflexivity.
  - destruct (trinomial_constructed 1 100 0.05 (-0.2) 0 100 3 "call"
                ltac:(lia) ltac:(lra) ltac:(lra)) as [tree E].
    exists tree. split; [exact E |].
    unfold TrinomialTree.__init__ in E. cbv zeta in E.
    do 8 invert_bind E. injection E as <-. reflexivity.
  - exact Eb.
  - exact Et.
  - rewrite Eb. intros [msg H]. discriminate H.
  - rewrite Et. intros [msg H]. discriminate H.
Qed.

(** * Further properties *)

(** ** The Greeks of the analytic pricer *)

Lemma pdf_pos x : 0 < norm.pdf x.
Proof.
  unfold norm.pdf. apply Rdiv_lt_0_compat; [apply exp_pos |].
  apply sqrt_lt_R0. pose proof PI_RGT_0. lra.
Qed.

Section greeks_closed_forms.
Variables (S K T r sigma c : float).
Hypothesis (S_pos : 0 < S) (K_pos : 0 < K) (T_pos : 0 < T) (sigma_pos : 0 < sigma).

Let d1 := spec.d1 S K T r sigma c.
Let d2 := spec.d2 S K T r sigma c.
Let pricer kind := BSMAnalytical.mk S K T r sigma c kind.

Lemma sqrt_T_pos : 0 < sqrt T.
Proof. now apply sqrt_lt_R0. Qed.

Lemma delta_call_Ok :
  BSMAnalytical.delta (pricer "call") = Ok (exp (- c * T) * norm.cdf d1).
Proof.
  unfold BSMAnalytical.delta, pricer. rewrite d1_d2_Ok by assumption. reflexivity.
Qed.

Lemma delta_put_Ok :
  BSMAnalytical.delta (pricer "put") = Ok (- exp (- c * T) * norm.cdf (- d1)).
Proof.
  unfold BSMAnalytical.delta, pricer. rewrite d1_d2_Ok by assumption. reflexivity.
Qed.

Lemma gamma_Ok kind :
  BSMAnalytical.gamma (pricer kind)
  = Ok (exp (- c * T) * norm.pdf d1 / (S * sigma * sqrt T)).
Proof.
  pose proof sqrt_T_pos.
  unfold BSMAnalytical.gamma, pricer. rewrite d1_d2_Ok by assumption. cbn.
  rewrite sqrt_Ok by lra. cbn. apply truediv_Ok.
  apply Rgt_not_eq. repeat apply Rmult_lt_0_compat; assumption.
Qed.

Lemma vega_Ok kind :
  BSMAnalytical.vega (pricer kind)
  = Ok (S * exp (- c * T) * norm.pdf d1 * sqrt T).
Proof.
  unfold BSMAnalytical.vega, pricer. rewrite d1_d2_Ok by assumption. cbn.
  rewrite sqrt_Ok by lra. reflexivity.
Qed.

Lemma theta_call_Ok :
  BSMAnalytical.theta (pricer "call")
  = Ok (- (S * exp (- c * T) * norm.pdf d1 * sigma / (2 * sqrt T))
        + - r * K * exp (- r * T) * norm.cdf d2
        + c * S * exp (- c * T) * norm.cdf d1).
Proof.
  pose proof sqrt_T_pos.
  unfold BSMAnalytical.theta, pricer. rewrite d1_d2_Ok by assumption. cbn.
  rewrite (decide_True (P := "call" = "call")) by reflexivity.
  rewrite sqrt_Ok by lra. cbn. rewrite truediv_Ok by lra. reflexivity.
Qed.

Lemma theta_put_Ok :
  BSMAnalytical.theta (pricer "put")
  = Ok (- (S * exp (- c * T) * norm.pdf d1 * sigma / (2 * sqrt T))
        + r * K * exp (- r * T) * norm.cdf (- d2)
        + - c * S * exp (- c * T) * norm.cdf (- d1)).
Proof.
  pose proof sqrt_T_pos.
  unfold BSMAnalytical.theta, pricer. rewrite d1_d2_Ok by assumption. cbn.
  rewrite (decide_False (P := "put" = "call")) by discriminate.
  rewrite sqrt_Ok by lra. cbn. rewrite truediv_Ok by lra. reflexivity.
Qed.

Lemma rho_call_Ok :
  BSMAnalytical.rho (pricer "call") = Ok (K * T * exp (- r * T) * norm.cdf d2).
Proof.
  unfold BSMAnalytical.rho, pricer. rewrite d1_d2_Ok by assumption. reflexivity.
Qed.

Lemma rho_put_Ok :
  BSMAnalytical.rho (pricer "put") = Ok (- K * T * exp (- r * T) * norm.cdf (- d2)).
Proof.
  unfold BSMAnalytical.rho, pricer. rewrite d1_d2_Ok by assumption. reflexivity.
Qed.

End greeks_closed_forms.

(** X1. The Greeks obey the derivatives of put-call parity: for positive
    S, K, T and sigma all Greeks of the call and of the put are computed,
    [delta_call - delta_put = e^(-cT)], gamma and vega are the same for both
    kinds, [theta_call - theta_put = c S e^(-cT) - r K e^(-rT)] and
    [rho_call - rho_put = K T e^(-rT)]. *)
Theorem greeks_put_call_parity S K T r sigma c :
  0 < S -> 0 < K -> 0 < T -> 0 < sigma ->
  let call := BSMAnalytical.__init__ S K T r sigma c "call" in
  let put := BSMAnalytical.__init__ S K T r sigma c "put" in
  (exists dc dp,
     call ≫= BSMAnalytical.delta = Ok dc /\ put ≫= BSMAnalytical.delta = Ok dp
     /\ dc - dp = exp (- (c * T)))
  /\ (exists g, call ≫= BSMAnalytical.gamma = Ok g /\ put ≫= BSMAnalytical.gamma = Ok g)
  /\ (exists v, call ≫= BSMAnalytical.vega = Ok v /\ put ≫= BSMAnalytical.vega = Ok v)
  /\ (exists tc tp,
        call ≫= BSMAnalytical.theta = Ok tc /\ put ≫= BSMAnalytical.theta = Ok tp
        /\ tc - tp = c * S * exp (- (c * T)) - r * K * exp (- (r * T)))
  /\ (exists rc rp,
        call ≫= BSMAnalytical.rho = Ok rc /\ put ≫= BSMAnalytical.rho = Ok rp
        /\ rc - rp = K * T * exp (- (r * T))).
Proof.
  intros HS HK HT Hsigma call put. subst call put.
  rewrite !init_Ok by auto. rewrite lower_call, lower_put.
  replace (- (c * T)) with (- c * T) by lra.
  replace (- (r * T)) with (- r * T) by lra.
  split; [| split; [| split; [| split]]].
  - eexists _, _. rewrite !bind_Ok, delta_call_Ok, delta_put_Ok by assumption.
    split; [reflexivity |]. split; [reflexivity |]. rewrite cdf_neg. lra.
  - eexists. rewrite !bind_Ok, !gamma_Ok by assumption. split; reflexivity.
  - eexists. rewrite !bind_Ok, !vega_Ok by assumption. split; reflexivity.
  - eexists _, _. rewrite !bind_Ok, theta_call_Ok, theta_put_Ok by assumption.
    split; [reflexivity |]. split; [reflexivity |]. rewrite !cdf_neg. lra.
  - eexists _, _. rewrite !bind_Ok, rho_call_Ok, rho_put_Ok by assumption.
    split; [reflexivity |]. split; [reflexivity |]. rewrite cdf_neg. lra.
Qed.

Lemma greeks_put_call_parity_witness :
  exists dc dp,
    BSMAnalytical.__init__ 100 90 0.5 0.02 0.3 0.01 "call" ≫= BSMAnalytical.delta = Ok dc
    /\ BSMAnalytical.__init__ 100 90 0.5 0.02 0.3 0.01 "put" ≫= BSMAnalytical.delta = Ok dp
    /\ dc - dp = exp (- (0.01 * 0.5)).
Proof.
  apply (greeks_put_call_parity 100 90 0.5 0.02 0.3 0.01); lra.
Defined.

(** X2. The price and the Greeks that the pricer returns satisfy the
    Black-Scholes equation,
    [theta + (r - c) S delta + sigma^2 S^2 gamma / 2 = r price],
    for the call and for the put. *)
Theorem greeks_black_scholes_equation S K T r sigma c option_type :
  0 < S -> 0 < K -> 0 < T -> 0 < sigma ->
  lower option_type = "call" \/ lower option_type = "put" ->
  let pricer := BSMAnalytical.__init__ S K T r sigma c option_type in
  exists price delta gamma theta,
    pricer ≫= BSMAnalytical.price = Ok price
    /\ pricer ≫= BSMAnalytical.delta = Ok delta
    /\ pricer ≫= BSMAnalytical.gamma = Ok gamma
    /\ pricer ≫= BSMAnalytical.theta = Ok theta
    /\ theta + (r - c) * S * delta + sigma ^ 2 * S ^ 2 * gamma / 2 = r * price.
Proof.
  intros HS HK HT Hsigma Hkind pricer. subst pricer.
  pose proof (sqrt_T_pos T HT) as HsT.
  rewrite init_Ok by auto. rewrite !bind_Ok.
  destruct Hkind as [-> | ->].
  - eexists _, _, _, _.
    rewrite price_call_Ok, delta_call_Ok, gamma_Ok, theta_call_Ok by assumption.
    repeat (split; [reflexivity |]).
    unfold spec.call_price.
    replace (- (c * T)) with (- c * T) by lra.
    replace (- (r * T)) with (- r * T) by lra.
    field. lra.
  - eexists _, _, _, _.
    rewrite price_put_Ok, delta_put_Ok, gamma_Ok, theta_put_Ok by assumption.
    repeat (split; [reflexivity |]).
    unfold spec.put_price.
    replace (- (c * T)) with (- c * T) by lra.
    replace (- (r * T)) with (- r * T) by lra.
    field. lra.
Qed.

Lemma greeks_black_scholes_equation_witness :
  exists price delta gamma theta,
    BSMAnalytical.__init__ 100 110 0.25 0.02 0.3 0.01 "put" ≫= BSMAnalytical.price
    = Ok price
    /\ BSMAnalytical.__init__ 100 110 0.25 0.02 0.3 0.01 "put" ≫= BSMAnalytical.delta
       = Ok delta
    /\ BSMAnalytical.__init__ 100 110 0.25 0.02 0.3 0.01 "put" ≫= BSMAnalytical.gamma
       = Ok gamma
    /\ BSMAnalytical.__init__ 100 110 0.25 0.02 0.3 0.01 "put" ≫= BSMAnalytical.theta
       = Ok theta
    /\ theta + (0.02 - 0.01) * 100 * delta + 0.3 ^ 2 * 100 ^ 2 * gamma / 2
       = 0.02 * price.
Proof.
  apply (greeks_black_scholes_equation 100 110 0.25 0.02 0.3 0.01 "put");
    [lra | lra | lra | lra |].
  right. reflexivity.
Defined.

(** X3. Gamma and vega are strictly positive, and
    [vega = S^2 sigma T gamma]. *)
Theorem vega_gamma_relation S K T r sigma c option_type :
  0 < S -> 0 < K -> 0 < T -> 0 < sigma ->
  lower option_type = "call" \/ lower option_type = "put" ->
  let pricer := BSMAnalytical.__init__ S K T r sigma c option_type in
  exists gamma vega,
    pricer ≫= BSMAnalytical.gamma = Ok gamma
    /\ pricer ≫= BSMAnalytical.vega = Ok vega
    /\ 0 < gamma /\ 0 < vega
    /\ vega = S ^ 2 * sigma * T * gamma.
Proof.
  intros HS HK HT Hsigma Hkind pricer. subst pricer.
  pose proof (sqrt_T_pos T HT) as HsT.
  rewrite init_Ok by auto. rewrite !bind_Ok.
  eexists _, _. rewrite gamma_Ok, vega_Ok by assumption.
  split; [reflexivity |]. split; [reflexivity |].
  pose proof (pdf_pos (spec.d1 S K T r sigma c)) as Hpdf.
  pose proof (exp_pos (- c * T)) as Hexp.
  assert (Hden : 0 < S * sigma * sqrt T) by (repeat apply Rmult_lt_0_compat; assumption).
  split; [| split].
  - apply Rdiv_lt_0_compat; [apply Rmult_lt_0_compat; assumption | exact Hden].
  - apply Rmult_lt_0_compat;
      [apply Rmult_lt_0_compat; [apply Rmult_lt_0_compat |] |]; assumption.
  - assert (Hsq : T = sqrt T * sqrt T) by (symmetry; apply sqrt_sqrt; lra).
    remember (exp (- c * T)) as e eqn:He. remember (norm.pdf _) as p eqn:Hp.
    remember (sqrt T) as s eqn:Hs. clear He Hp Hs.
    rewrite Hsq. field. lra.
Qed.

Lemma vega_gamma_relation_witness :
  exists gamma vega,
    BSMAnalytical.__init__ 100 100 1 0.05 0.2 0 "call" ≫= BSMAnalytical.gamma = Ok gamma
    /\ BSMAnalytical.__init__ 100 100 1 0.05 0.2 0 "call" ≫= BSMAnalytical.vega = Ok vega
    /\ 0 < gamma /\ 0 < vega
    /\ vega = 100 ^ 2 * 0.2 * 1 * gamma.
Proof.
  apply (vega_gamma_relation 100 100 1 0.05 0.2 0 "call"); [lra | lra | lra | lra |].
  left. reflexivity.
Defined.

(** X4. For a valid contract [all_greeks] returns a mapping with exactly the
    nine keys of the dictionary literal; its entries are the results of the
    six methods, the "per 1%" entries are 0.01 times the "per 1.0" ones and
    the daily theta is the annual one divided by 365. *)
Theorem all_greeks_entries S K T r sigma c option_type :
  0 < S -> 0 < K -> 0 < T -> 0 < sigma ->
  lower option_type = "call" \/ lower option_type = "put" ->
  let pricer := BSMAnalytical.__init__ S K T r sigma c option_type in
  exists g price delta gamma vega theta rho,
    pricer ≫= BSMAnalytical.all_greeks = Ok g
    /\ pricer ≫= BSMAnalytical.price = Ok price
    /\ pricer ≫= BSMAnalytical.delta = Ok delta
    /\ pricer ≫= BSMAnalytical.gamma = Ok gamma
    /\ pricer ≫= BSMAnalytical.vega = Ok vega
    /\ pricer ≫= BSMAnalytical.theta = Ok theta
    /\ pricer ≫= BSMAnalytical.rho = Ok rho
    /\ (forall k : string,
          is_Some (g !! k) <->
          k ∈ ["Price"; "Delta"; "Gamma"; "Vega (per 1.0 vol)"; "Vega (per 1% vol)";
               "Theta (annual)"; "Theta (per day)"; "Rho (per 1.0 rate)";
               "Rho (per 1% rate)"])
    /\ g !! "Price" = Some price
    /\ g !! "Delta" = Some delta
    /\ g !! "Gamma" = Some gamma
    /\ g !! "Vega (per 1.0 vol)" = Some vega
    /\ g !! "Vega (per 1% vol)" = Some (vega * 0.01)
    /\ g !! "Theta (annual)" = Some theta
    /\ g !! "Theta (per day)" = Some (theta / 365.0)
    /\ g !! "Rho (per 1.0 rate)" = Some rho
    /\ g !! "Rho (per 1% rate)" = Some (rho * 0.01).
Proof.
  intros HS HK HT Hsigma Hkind pricer. subst pricer.
  rewrite init_Ok by auto. rewrite !bind_Ok.
  destruct (price_total S K T r sigma c _ HS HK HT Hsigma Hkind) as [p Hp].
  destruct (delta_total S K T r sigma c (lower option_type) HS HK HT Hsigma) as [vd Hd].
  destruct (gamma_total S K T r sigma c (lower option_type) HS HK HT Hsigma) as [vg Hg].
  destruct (vega_total S K T r sigma c (lower option_type) HS HK HT Hsigma) as [vv Hv].
  destruct (theta_total S K T r sigma c (lower option_type) HS HK HT Hsigma) as [vt Ht].
  destruct (rho_total S K T r sigma c (lower option_type) HS HK HT Hsigma) as [vr Hr].
  eexists _, p, vd, vg, vv, vt, vr.
  unfold BSMAnalytical.all_greeks.
  rewrite Hp, Hd, Hg, Hv, Ht, Hr. cbn [mbind result_bind].
  split; [reflexivity |]. do 6 (split; [reflexivity |]).
  split.
  - intros k. rewrite <- elem_of_dom, !dom_insert_L, dom_empty_L.
    rewrite !elem_of_cons, elem_of_nil. set_solver.
  - repeat split; by simplify_map_eq.
Qed.

Lemma all_greeks_entries_witness :
  exists g price delta gamma vega theta rho,
    BSMAnalytical.__init__ 100 100 1 0.05 0.2 0 "call" ≫= BSMAnalytical.all_greeks = Ok g
    /\ BSMAnalytical.__init__ 100 100 1 0.05 0.2 0 "call" ≫= BSMAnalytical.price = Ok price
    /\ BSMAnalytical.__init__ 100 100 1 0.05 0.2 0 "call" ≫= BSMAnalytical.delta = Ok delta
    /\ BSMAnalytical.__init__ 100 100 1 0.05 0.2 0 "call" ≫= BSMAnalytical.gamma = Ok gamma
    /\ BSMAnalytical.__init__ 100 100 1 0.05 0.2 0 "call" ≫= BSMAnalytical.vega = Ok vega
    /\ BSMAnalytical.__init__ 100 100 1 0.05 0.2 0 "call" ≫= BSMAnalytical.theta = Ok theta
    /\ BSMAnalytical.__init__ 100 100 1 0.05 0.2 0 "call" ≫= BSMAnalytical.rho = Ok rho
    /\ (forall k : string,
          is_Some (g !! k) <->
          k ∈ ["Price"; "Delta"; "Gamma"; "Vega (per 1.0 vol)"; "Vega (per 1% vol)";
               "Theta (annual)"; "Theta (per day)"; "Rho (per 1.0 rate)";
               "Rho (per 1% rate)"])
    /\ g !! "Price" = Some price
    /\ g !! "Delta" = Some delta
    /\ g !! "Gamma" = Some gamma
    /\ g !! "Vega (per 1.0 vol)" = Some vega
    /\ g !! "Vega (per 1% vol)" = Some (vega * 0.01)
    /\ g !! "Theta (annual)" = Some theta
    /\ g !! "Theta (per day)" = Some (theta / 365.0)
    /\ g !! "Rho (per 1.0 rate)" = Some rho
    /\ g !! "Rho (per 1% rate)" = Some (rho * 0.01).
Proof.
  apply (all_greeks_entries 100 100 1 0.05 0.2 0 "call"); [lra | lra | lra | lra |].
  left. reflexivity.
Defined.

(** ** implied_volatility: errors, exits and what each exit guarantees *)

Lemma init_bad_kind S K T r sigma c option_type :
  ~ (lower option_type = "call" \/ lower option_type = "put") ->
  BSMAnalytical.__init__ S K T r sigma c option_type
  = Raise (ValueError "option_type must be 'call' or 'put'").
Proof.
  intros Hkind. unfold BSMAnalytical.__init__. cbn.
  rewrite decide_True; [reflexivity |].
  rewrite !elem_of_cons, elem_of_nil. tauto.
Qed.

Lemma init_bad_T S K T r sigma c option_type :
  lower option_type = "call" \/ lower option_type = "put" -> T <= 0 \/ sigma <= 0 ->
  BSMAnalytical.__init__ S K T r sigma c option_type
  = Raise (ValueError "T and sigma must be positive").
Proof.
  intros Hkind Hbad. unfold BSMAnalytical.__init__. cbn.
  rewrite (decide_False (P := lower option_type ∉ ["call"; "put"]))
    by (intros Hn; apply Hn; rewrite !elem_of_cons; tauto).
  rewrite decide_True by exact Hbad. reflexivity.
Qed.

Lemma implied_volatility_exit_above_floor market_price S K T r c option_type tol max_iter :
  0 <= market_price -> iv_intrinsic S K T r c option_type < market_price ->
  implied_volatility_exit market_price S K T r c option_type tol max_iter
  = newton_loop market_price S K T r c option_type tol (Z.to_nat max_iter) 0.2
    ≫= fun newton =>
         match newton with
         | Some sigma => Ok (in_newton, sigma)
         | None =>
           bisection_loop market_price S K T r c option_type tol (Z.to_nat max_iter)
             1e-8 5.0
         end.
Proof.
  intros Hmp Habove. unfold implied_volatility_exit, iv_intrinsic in *.
  rewrite decide_False by lra.
  rewrite (decide_False (P := market_price <= _)) by lra. reflexivity.
Qed.

(** X5. The errors of [implied_volatility].  A negative market price is
    rejected first, whatever the other arguments.  Above the intrinsic value
    and with at least one iteration allowed, a kind that is not 'call' or
    'put' and a maturity T <= 0 are rejected by the constructor of the first
    Newton iteration, with its messages. *)
Theorem iv_errors market_price S K T r c option_type tol max_iter :
  (market_price < 0 ->
   implied_volatility market_price S K T r c option_type tol max_iter
   = Raise (ValueError "Market price must be non-negative"))
  /\
  (0 <= market_price -> iv_intrinsic S K T r c option_type < market_price ->
   (1 <= max_iter)%Z ->
   (~ (lower option_type = "call" \/ lower option_type = "put") ->
    implied_volatility market_price S K T r c option_type tol max_iter
    = Raise (ValueError "option_type must be 'call' or 'put'"))
   /\
   (lower option_type = "call" \/ lower option_type = "put" -> T <= 0 ->
    implied_volatility market_price S K T r c option_type tol max_iter
    = Raise (ValueError "T and sigma must be positive"))).
Proof.
  split.
  - intros Hneg. unfold implied_volatility, implied_volatility_exit.
    now rewrite decide_True.
  - intros Hmp Habove Hiter.
    destruct (Z.to_nat max_iter) as [| n] eqn:En; [lia |].
    split.
    + intros Hkind. unfold implied_volatility.
      rewrite implied_volatility_exit_above_floor, En by assumption.
      cbn [newton_loop]. rewrite init_bad_kind by exact Hkind. reflexivity.
    + intros Hkind HT. unfold implied_volatility.
      rewrite implied_volatility_exit_above_floor, En by assumption.
      cbn [newton_loop]. rewrite init_bad_T by auto. reflexivity.
Qed.

Lemma iv_errors_witness :
  implied_volatility (-1) 100 100 1 0.05 0 "call" 1e-8 100
  = Raise (ValueError "Market price must be non-negative")
  /\ implied_volatility 10 100 100 1 0.05 0 "straddle" 1e-8 100
     = Raise (ValueError "option_type must be 'call' or 'put'")
  /\ implied_volatility 10 100 100 0 0.05 0 "put" 1e-8 100
     = Raise (ValueError "T and sigma must be positive").
Proof.
  split; [| split].
  - apply (proj1 (iv_errors (-1) 100 100 1 0.05 0 "call" 1e-8 100)). lra.
  - apply (proj2 (iv_errors 10 100 100 1 0.05 0 "straddle" 1e-8 100));
      [lra | | lia |].
    + unfold iv_intrinsic, py_max, math.exp. cbn.
      rewrite (decide_False (P := "straddle" = "call")) by discriminate.
      replace (- 0 * 1) with 0 by lra. rewrite exp_0.
      pose proof (exp_increasing (- (0.05) * 1) 0 ltac:(lra)) as Hexp.
      rewrite exp_0 in Hexp. case_decide; lra.
    + cbn. intros [H | H]; discriminate H.
  - apply (proj2 (iv_errors 10 100 100 0 0.05 0 "put" 1e-8 100));
      [lra | | lia | | lra].
    + unfold iv_intrinsic, py_max, math.exp. cbn.
      rewrite (decide_False (P := "put" = "call")) by discriminate.
      replace (- (0.05) * 0) with 0 by lra. replace (- 0 * 0) with 0 by lra.
      rewrite exp_0. case_decide; lra.
    + right. reflexivity.
Defined.

(** X6. The floor test compares [option_type] with 'call' as it is given,
    before any lower-casing or validation: every other string, 'CALL' and
    unknown kinds included, is floored against the intrinsic value of the
    put, for any T; nothing is raised.  So for a call that is out of the
    money forward and a positive market price at or below the put's
    intrinsic value, 'CALL' returns the floor 1e-8 while 'call' does not
    leave through the floor. *)
Theorem iv_floor_kind_as_given market_price S K T r c option_type tol max_iter :
  option_type <> "call" ->
  0 <= market_price ->
  market_price <= Rmax (K * exp (- (r * T)) - S * exp (- (c * T))) 0 ->
  implied_volatility market_price S K T r c option_type tol max_iter = Ok 1e-8
  /\ (0 < market_price ->
      forall e v,
        implied_volatility_exit market_price S K T r c "call" tol max_iter = Ok (e, v) ->
        e <> at_floor).
Proof.
  intros Hkind Hmp Hle.
  replace (- (r * T)) with (- r * T) in Hle by lra.
  replace (- (c * T)) with (- c * T) in Hle by lra.
  rewrite <- py_max_Rmax in Hle.
  split.
  - unfold implied_volatility, implied_volatility_exit.
    rewrite decide_False by lra.
    rewrite (decide_False (P := option_type = "call")) by exact Hkind.
    unfold math.exp. now rewrite decide_True.
  - intros Hpos e v H.
    rewrite implied_volatility_exit_above_floor in H.
    + invert_bind H. destruct x as [sigma |].
      * injection H as <- _. discriminate.
      * clear E. revert H. generalize 1e-8 5.0.
        induction (Z.to_nat max_iter) as [| n IH]; intros low high H.
        -- injection H as <- _. discriminate.
        -- cbn [bisection_loop] in H. do 2 invert_bind H.
           case_decide; [injection H as <- _; discriminate |].
           case_decide; eapply IH; exact H.
    + lra.
    + unfold iv_intrinsic, math.exp.
      rewrite (decide_True (P := "call" = "call")) by reflexivity.
      revert Hle. unfold py_max. repeat case_decide; lra.
Qed.

Lemma iv_floor_kind_as_given_witness :
  implied_volatility 0.5 100 101 0 0.05 0 "CALL" 1e-8 100 = Ok 1e-8
  /\ (0 < 0.5 ->
      forall e v,
        implied_volatility_exit 0.5 100 101 0 0.05 0 "call" 1e-8 100 = Ok (e, v) ->
        e <> at_floor).
Proof.
  apply (iv_floor_kind_as_given 0.5 100 101 0 0.05 0 "CALL" 1e-8 100).
  - discriminate.
  - lra.
  - replace (- (0.05 * 0)) with 0 by lra. replace (- (0 * 0)) with 0 by lra.
    rewrite exp_0. unfold Rmax. destruct (Rle_dec _ _); lra.
Defined.

Section iv_exits.
Variables (market_price S K T r c : float) (option_type : string) (tol : float).

Lemma newton_loop_reprices iterations : forall sigma v,
  newton_loop market_price S K T r c option_type tol iterations sigma = Ok (Some v) ->
  reprices market_price S K T r c option_type tol v.
Proof.
  induction iterations as [| n IH]; intros sigma v H; [discriminate |].
  cbn [newton_loop] in H.
  destruct (BSMAnalytical.__init__ S K T r sigma c option_type) as [bsm |] eqn:Ebsm;
    [| discriminate].
  rewrite bind_Ok in H.
  destruct (BSMAnalytical.price bsm) as [p |] eqn:Ep; [| discriminate].
  rewrite bind_Ok in H. invert_bind H.
  case_decide as Htol.
  - injection H as <-. exists bsm, p. auto.
  - case_decide; [discriminate |]. invert_bind H.
    case_decide; [discriminate |]. eapply IH, H.
Qed.

Lemma bisection_loop_reprices iterations : forall low high v,
  bisection_loop market_price S K T r c option_type tol iterations low high
  = Ok (in_bisection, v) ->
  reprices market_price S K T r c option_type tol v.
Proof.
  induction iterations as [| n IH]; intros low high v H; [discriminate |].
  cbn [bisection_loop] in H.
  destruct (BSMAnalytical.__init__ S K T r ((low + high) / 2) c option_type)
    as [bsm |] eqn:Ebsm; [| discriminate].
  rewrite bind_Ok in H.
  destruct (BSMAnalytical.price bsm) as [p |] eqn:Ep; [| discriminate].
  rewrite bind_Ok in H.
  case_decide as Htol.
  - injection H as <-. exists bsm, p. auto.
  - case_decide; eapply IH, H.
Qed.

(** The bracket halves at every iteration and stays inside the first one. *)
Lemma bisection_loop_bracket iterations : forall low high v,
  low <= high ->
  bisection_loop market_price S K T r c option_type tol iterations low high
  = Ok (after_bisection, v) ->
  exists lo hi,
    low <= lo /\ lo <= hi /\ hi <= high
    /\ hi - lo = (high - low) / 2 ^ iterations
    /\ v = (lo + hi) / 2.
Proof.
  induction iterations as [| n IH]; intros low high v Hle H.
  - injection H as <-. exists low, high. repeat split; cbn [pow]; lra.
  - cbn [bisection_loop] in H. do 2 invert_bind H.
    case_decide; [discriminate |].
    assert (Hpow : 0 < 2 ^ n) by (apply pow_lt; lra).
    case_decide.
    + apply IH in H as (lo & hi & ? & ? & ? & Hw & ->); [| lra].
      exists lo, hi. repeat split; try lra.
      rewrite Hw. cbn [pow]. field. lra.
    + apply IH in H as (lo & hi & ? & ? & ? & Hw & ->); [| lra].
      exists lo, hi. repeat split; try lra.
      rewrite Hw. cbn [pow]. field. lra.
Qed.

End iv_exits.

(** X7. What a converged exit guarantees: when [implied_volatility] leaves
    through the [return] of the Newton loop or of the bisection loop, the
    analytic price at the returned volatility is within [tol] of the market
    price. *)
Theorem iv_converged_exit_reprices market_price S K T r c option_type tol max_iter e v :
  implied_volatility_exit market_price S K T r c option_type tol max_iter = Ok (e, v) ->
  e = in_newton \/ e = in_bisection ->
  reprices market_price S K T r c option_type tol v.
Proof.
  unfold implied_volatility_exit. intros H He.
  case_decide; [discriminate |].
  case_decide; [injection H as <- _; destruct He; discriminate |].
  invert_bind H. destruct x as [sigma |].
  - injection H as _ <-. eapply newton_loop_reprices, E.
  - destruct He as [-> | ->].
    + exfalso. clear E. revert H. generalize 1e-8 5.0.
      induction (Z.to_nat max_iter) as [| n IH]; intros low high H; [discriminate |].
      cbn [bisection_loop] in H. do 2 invert_bind H.
      case_decide; [discriminate |].
      case_decide; eapply IH, H.
    + eapply bisection_loop_reprices, H.
Qed.

(** X8. What the fallback exit guarantees: when the iteration cap is
    exhausted the returned value is the midpoint of a bracket inside
    [[1e-8, 5.0]] of width [(5.0 - 1e-8) / 2^max_iter].  In particular with
    [max_iter <= 0] and a market price above the intrinsic value the result is
    [(1e-8 + 5.0) / 2], and neither T nor the kind is validated. *)
Theorem iv_fallback_exit market_price S K T r c option_type tol max_iter :
  (forall v,
     implied_volatility_exit market_price S K T r c option_type tol max_iter
     = Ok (after_bisection, v) ->
     exists lo hi,
       1e-8 <= lo /\ lo <= hi /\ hi <= 5.0
       /\ hi - lo = (5.0 - 1e-8) / 2 ^ Z.to_nat max_iter
       /\ v = (lo + hi) / 2)
  /\
  ((max_iter <= 0)%Z -> 0 <= market_price ->
   iv_intrinsic S K T r c option_type < market_price ->
   implied_volatility_exit market_price S K T r c option_type tol max_iter
   = Ok (after_bisection, (1e-8 + 5.0) / 2)).
Proof.
  split.
  - unfold implied_volatility_exit. intros v H.
    case_decide; [discriminate |].
    case_decide; [discriminate |].
    invert_bind H. destruct x as [sigma |]; [discriminate |].
    eapply bisection_loop_bracket; [lra | exact H].
  - intros Hiter Hmp Habove.
    rewrite implied_volatility_exit_above_floor by assumption.
    replace (Z.to_nat max_iter) with 0%nat by lia. reflexivity.
Qed.

Lemma iv_fallback_exit_witness :
  implied_volatility_exit 500 100 100 (-1) 0.05 0 "straddle" 1e-8 0
  = Ok (after_bisection, (1e-8 + 5.0) / 2).
Proof.
  apply (proj2 (iv_fallback_exit 500 100 100 (-1) 0.05 0 "straddle" 1e-8 0));
    [lia | lra |].
  unfold iv_intrinsic, py_max, math.exp.
  rewrite (decide_False (P := "straddle" = "call")) by discriminate.
  replace (- 0 * -1) with 0 by lra. rewrite exp_0.
  pose proof (exp_increasing (- (0.05) * -1) 1 ltac:(lra)) as Hexp.
  pose proof exp_le_3. case_decide; lra.
Defined.

(** Bounds on the normal law that are enough to evaluate a price roughly. *)
Lemma pdf_le_half x : norm.pdf x <= 1 / 2.
Proof.
  unfold norm.pdf.
  assert (Hexp : exp (- x ^ 2 / 2) <= 1).
  { rewrite <- exp_0. destruct (Req_dec (- x ^ 2 / 2) 0) as [-> | Hne]; [lra |].
    left. apply exp_increasing. pose proof (pow2_ge_0 x). lra. }
  assert (Hsqrt : 2 <= sqrt (2 * PI)).
  { rewrite <- (sqrt_pow2 2) at 1 by lra. apply sqrt_le_1_alt.
    pose proof PI2_3_2. lra. }
  pose proof (exp_pos (- x ^ 2 / 2)).
  apply Rle_trans with (1 / sqrt (2 * PI)).
  - apply Rmult_le_compat_r; [| exact Hexp].
    left. apply Rinv_0_lt_compat. lra.
  - apply Rmult_le_compat_l; [lra |]. apply Rinv_le_contravar; lra.
Qed.

Lemma cdf_bounds x : 0 <= x -> 1 / 2 <= norm.cdf x <= 1 / 2 + x / 2.
Proof.
  intros Hx. unfold norm.cdf.
  pose proof (@RiemannInt_const_bound norm.pdf 0 x 0 (1 / 2)
                (norm.pdf_integrable 0 x) Hx) as HB.
  destruct HB as [Hlo Hhi].
  { intros y _. split; [left; apply pdf_pos | apply pdf_le_half]. }
  lra.
Qed.

Lemma iv_converged_exit_reprices_witness :
  reprices 10 100 100 1 0.05 0 "call" 1000 0.2.
Proof.
  apply (iv_converged_exit_reprices 10 100 100 1 0.05 0 "call" 1000 100 in_newton);
    [| left; reflexivity].
  assert (Hexp : 0.95 <= exp (- (0.05) * 1)).
  { pose proof (exp_ineq1_le (- (0.05) * 1)). lra. }
  assert (Hexp1 : exp (- (0.05) * 1) <= 1).
  { apply Rle_trans with (exp 0); [| rewrite exp_0; lra].
    left. apply exp_increasing. lra. }
  rewrite implied_volatility_exit_above_floor; [| lra |].
  2: { unfold iv_intrinsic, py_max, math.exp.
       rewrite (decide_True (P := "call" = "call")) by reflexivity.
       replace (- 0 * 1) with 0 by lra. rewrite exp_0. case_decide; lra. }
  replace (Z.to_nat 100) with (Datatypes.S 99) by reflexivity.
  cbn [newton_loop].
  rewrite init_Ok by (auto; lra). rewrite bind_Ok, lower_call.
  rewrite price_call_Ok by lra. rewrite bind_Ok.
  destruct (vega_total 100 100 1 0.05 0.2 0 "call") as [v ->]; [lra .. |].
  rewrite bind_Ok. cbv zeta.
  rewrite decide_True; [reflexivity |].
  unfold spec.call_price, spec.d2, spec.d1.
  replace (100 / 100) with 1 by lra. rewrite ln_1, sqrt_1.
  replace (- (0 * 1)) with 0 by lra. rewrite exp_0.
  replace (- (0.05 * 1)) with (- (0.05) * 1) by lra.
  pose proof (cdf_bounds ((0 + (0.05 - 0 + 0.2 ^ 2 / 2) * 1) / (0.2 * 1)) ltac:(lra)) as B1.
  pose proof (cdf_bounds ((0 + (0.05 - 0 + 0.2 ^ 2 / 2) * 1) / (0.2 * 1) - 0.2 * 1)
                ltac:(lra)) as B2.
  apply Rabs_def1; nra.
Defined.

(** ** The endpoint [implied_vol] and the calibration of a strip *)

Lemma round_half_even_between (a b : Z) (y : float) :
  IZR a <= y <= IZR b -> (a <= app.round_half_even y <= b)%Z.
Proof.
  intros [Ha Hb]. unfold app.round_half_even.
  destruct (base_Int_part y) as [Hlo Hhi].
  assert (Hf : (a <= Int_part y)%Z).
  { apply Z.lt_succ_r, lt_IZR. rewrite succ_IZR. lra. }
  assert (Hf' : (Int_part y <= b)%Z) by (apply le_IZR; lra).
  assert (Hup : IZR (Int_part y) < y -> (Int_part y + 1 <= b)%Z).
  { intros Hlt. apply Z.le_succ_l, lt_IZR. lra. }
  repeat case_decide; try destruct (Z.even _); try lia;
    (split; [lia | apply Hup; lra]).
Qed.

Lemma round_half_even_near (y : float) :
  Rabs (IZR (app.round_half_even y) - y) <= 1 / 2.
Proof.
  unfold app.round_half_even.
  destruct (base_Int_part y) as [Hlo Hhi].
  apply Rabs_le.
  repeat case_decide; try destruct (Z.even _); rewrite ?plus_IZR; lra.
Qed.

Lemma pow10_pos (n : nat) : 0 < 10 ^ n.
Proof. apply pow_lt. lra. Qed.

Lemma round_between (a b : Z) (x : float) (n : nat) :
  IZR a / 10 ^ n <= x <= IZR b / 10 ^ n ->
  IZR a / 10 ^ n <= app.round x n <= IZR b / 10 ^ n.
Proof.
  intros [Ha Hb]. pose proof (pow10_pos n) as Hp. unfold app.round.
  assert (H : IZR a <= x * 10 ^ n <= IZR b).
  { split.
    - apply Rmult_le_reg_r with (/ 10 ^ n); [now apply Rinv_0_lt_compat |].
      rewrite Rmult_assoc, Rinv_r, Rmult_1_r by lra. exact Ha.
    - apply Rmult_le_reg_r with (/ 10 ^ n); [now apply Rinv_0_lt_compat |].
      rewrite Rmult_assoc, Rinv_r, Rmult_1_r by lra. exact Hb. }
  apply round_half_even_between in H as [H1 H2].
  apply IZR_le in H1, H2.
  split; apply Rmult_le_compat_r; try assumption;
    left; now apply Rinv_0_lt_compat.
Qed.

Lemma round_near (x : float) (n : nat) :
  Rabs (app.round x n - x) <= / (2 * 10 ^ n).
Proof.
  pose proof (pow10_pos n) as Hp. unfold app.round.
  pose proof (round_half_even_near (x * 10 ^ n)) as H.
  replace (IZR (app.round_half_even (x * 10 ^ n)) / 10 ^ n - x)
    with ((IZR (app.round_half_even (x * 10 ^ n)) - x * 10 ^ n) * / 10 ^ n)
    by (field; lra).
  rewrite Rabs_mult, (Rabs_pos_eq (/ 10 ^ n))
    by (left; now apply Rinv_0_lt_compat).
  replace (/ (2 * 10 ^ n)) with (1 / 2 * / 10 ^ n) by (field; lra).
  apply Rmult_le_compat_r; [left; now apply Rinv_0_lt_compat | exact H].
Qed.

Lemma round_floor : app.round 1e-8 6 = 0.
Proof.
  unfold app.round, app.round_half_even.
  assert (E : Int_part (1e-8 * 10 ^ 6) = 0%Z).
  { symmetry. apply Int_part_spec. lra. }
  rewrite E. rewrite decide_True by lra. lra.
Qed.

(** [implied_volatility] returns for a non-negative price and a valid
    contract, whatever the tolerance and the iteration cap. *)
Lemma implied_volatility_returns market_price S K T r c option_type tol max_iter :
  0 <= market_price -> 0 < T -> 0 < S -> 0 < K ->
  lower option_type = "call" \/ lower option_type = "put" ->
  exists v,
    implied_volatility market_price S K T r c option_type tol max_iter = Ok v
    /\ 1e-8 <= v <= 5.0.
Proof.
  intros Hmp HT HS HK Hkind.
  assert (Total : exists ev,
    implied_volatility_exit market_price S K T r c option_type tol max_iter = Ok ev).
  { unfold implied_volatility_exit.
    rewrite decide_False by lra.
    case_decide; [eexists; reflexivity |].
    destruct (newton_loop_total market_price S K T r c option_type tol HS HK HT Hkind
                (Z.to_nat max_iter) 0.2 ltac:(lra)) as [[sigma |] ->]; rewrite bind_Ok.
    - eexists; reflexivity.
    - apply bisection_loop_total; auto; lra. }
  destruct Total as [[e v] E]. exists v.
  split; [unfold implied_volatility; now rewrite E |].
  now apply implied_volatility_exit_band in E.
Qed.

(** X9. The endpoint [implied_vol] on validated fields (S, K >= 0.01,
    T >= 1e-6, market_price >= 0, kind 'call' or 'put') never answers an
    error: the solver returns, and the response carries its value rounded to
    six decimals, which lies in [[0, 5]] and within 5e-7 of the solver's
    value.  A market price at or below the intrinsic value is answered with
    0.0, the floor 1e-8 being rounded away. *)
Theorem implied_vol_validated S K T r c mp option_type :
  0.01 <= S -> 0.01 <= K -> 1e-6 <= T -> 0 <= mp ->
  option_type = "call" \/ option_type = "put" ->
  (exists iv,
     implied_volatility mp S K T r c option_type 1e-8 100 = Ok iv
     /\ app.implied_vol S K T r c mp option_type = app.iv_json_ok (app.round iv 6)
     /\ 0 <= app.round iv 6 <= 5
     /\ Rabs (app.round iv 6 - iv) <= 5e-7)
  /\ (mp <= iv_intrinsic S K T r c option_type ->
      app.implied_vol S K T r c mp option_type = app.iv_json_ok 0).
Proof.
  intros HS HK HT Hmp Hkind.
  assert (Hin : ~ (option_type ∉ ["call"; "put"])).
  { intros Hn. apply Hn. rewrite !elem_of_cons. tauto. }
  assert (Hlower : lower option_type = "call" \/ lower option_type = "put").
  { destruct Hkind as [-> | ->]; [left | right]; reflexivity. }
  destruct (implied_volatility_returns mp S K T r c option_type 1e-8 100)
    as (iv & Eiv & Hband); try assumption; try lra.
  split.
  - exists iv. split; [exact Eiv |].
    split; [unfold app.implied_vol; rewrite decide_False by exact Hin;
            now rewrite Eiv |].
    split.
    + pose proof (round_between 0 5000000 iv 6) as H.
      replace (IZR 0 / 10 ^ 6) with 0 in H by lra.
      replace (IZR 5000000 / 10 ^ 6) with 5 in H by lra.
      apply H. lra.
    + pose proof (round_near iv 6) as H.
      replace (/ (2 * 10 ^ 6)) with 5e-7 in H by lra. exact H.
  - intros Hfloor. unfold app.implied_vol.
    rewrite decide_False by exact Hin.
    unfold implied_volatility, implied_volatility_exit.
    rewrite decide_False by lra.
    unfold iv_intrinsic in Hfloor.
    rewrite decide_True by exact Hfloor.
    change (snd <$> Ok (at_floor, 1e-8)) with (Ok 1e-8 : result float).
    cbv beta iota. now rewrite round_floor.
Qed.

Lemma implied_vol_validated_witness :
  (exists iv,
     implied_volatility 5 100 90 1 0.05 0 "call" 1e-8 100 = Ok iv
     /\ app.implied_vol 100 90 1 0.05 0 5 "call" = app.iv_json_ok (app.round iv 6)
     /\ 0 <= app.round iv 6 <= 5
     /\ Rabs (app.round iv 6 - iv) <= 5e-7)
  /\ (5 <= iv_intrinsic 100 90 1 0.05 0 "call" ->
      app.implied_vol 100 90 1 0.05 0 5 "call" = app.iv_json_ok 0).
Proof.
  apply (implied_vol_validated 100 90 1 0.05 0 5 "call"); try lra.
  left. reflexivity.
Defined.

Lemma for_each_append {A B : Type} (f : A -> B)
    (body : A -> list B -> result (list B)) (xs : list A) :
  (forall x acc, body x acc = Ok (acc ++ [f x])) ->
  forall acc, for_each xs body acc = Ok (acc ++ (f <$> xs)).
Proof.
  intros Hbody. induction xs as [| x xs IH]; intros acc; cbn [for_each].
  - now rewrite app_nil_r.
  - rewrite Hbody, bind_Ok, IH, <- app_assoc. reflexivity.
Qed.

Lemma calibrate_rows S K_list T r c market_prices option_type :
  length K_list = length market_prices ->
  vectorized.calibrate_implied_volatilities S K_list T r c market_prices option_type
  = Ok ((fun p => vectorized.calibrate_row S T r c option_type p.1 p.2)
          <$> zip K_list market_prices).
Proof.
  intros Hlen. unfold vectorized.calibrate_implied_volatilities.
  rewrite decide_False by (intros Hn; now apply Hn).
  erewrite for_each_append; [reflexivity |].
  intros [K mp] acc. reflexivity.
Qed.

(** X10. [calibrate_implied_volatilities] raises [ValueError] exactly when
    the two lists differ in length, before any pricing; otherwise it never
    raises, whatever the contract, and returns one row per strike, in order,
    carrying that strike and that market price. *)
Theorem calibrate_shape S K_list T r c market_prices option_type :
  (length K_list <> length market_prices ->
   vectorized.calibrate_implied_volatilities S K_list T r c market_prices option_type
   = Raise (ValueError "K_list and market_prices must have same length"))
  /\
  (length K_list = length market_prices ->
   exists rows,
     vectorized.calibrate_implied_volatilities S K_list T r c market_prices option_type
     = Ok rows
     /\ length rows = length K_list
     /\ vectorized.Strike <$> rows = K_list
     /\ vectorized.MarketPrice <$> rows = market_prices).
Proof.
  split.
  - intros Hne. unfold vectorized.calibrate_implied_volatilities.
    now rewrite decide_True.
  - intros Hlen. eexists. split; [now apply calibrate_rows |].
    split; [| split].
    + rewrite length_fmap, length_zip_with. lia.
    + rewrite <- list_fmap_compose.
      etransitivity; [| apply (fst_zip K_list market_prices); lia].
      apply list_fmap_ext. now intros _ [K mp] _.
    + rewrite <- list_fmap_compose.
      etransitivity; [| apply (snd_zip K_list market_prices); lia].
      apply list_fmap_ext. now intros _ [K mp] _.
Qed.

Lemma calibrate_shape_witness :
  exists rows,
    vectorized.calibrate_implied_volatilities 100 [90; 100] 1 0.05 0 [15; 0] "call"
    = Ok rows
    /\ length rows = 2%nat
    /\ vectorized.Strike <$> rows = [90; 100]
    /\ vectorized.MarketPrice <$> rows = [15; 0].
Proof.
  apply (proj2 (calibrate_shape 100 [90; 100] 1 0.05 0 [15; 0] "call")).
  reflexivity.
Defined.

(** X11. The implied volatility of a row: it is NaN whenever the market
    price is not positive (the solver is not called, although it accepts a
    zero price), a number in it lies in [[1e-8, 5.0]], and for a positive
    price and a valid contract (S, K, T > 0, kind 'call' or 'put') it is a
    number, the value [implied_volatility] returns with its defaults. *)
Theorem calibrate_values S K_list T r c market_prices option_type rows i row :
  vectorized.calibrate_implied_volatilities S K_list T r c market_prices option_type
  = Ok rows ->
  rows !! i = Some row ->
  let K := vectorized.Strike row in
  let mp := vectorized.MarketPrice row in
  K_list !! i = Some K /\ market_prices !! i = Some mp
  /\ (mp <= 0 -> vectorized.ImpliedVol row = None)
  /\ (forall v, vectorized.ImpliedVol row = Some v ->
        0 < mp /\ 1e-8 <= v <= 5.0
        /\ implied_volatility mp S K T r c option_type 1e-8 100 = Ok v)
  /\ (0 < mp -> 0 < S -> 0 < K -> 0 < T ->
      lower option_type = "call" \/ lower option_type = "put" ->
      is_Some (vectorized.ImpliedVol row)).
Proof.
  intros Hrows Hrow.
  destruct (decide (length K_list = length market_prices)) as [Hlen | Hne].
  2: { unfold vectorized.calibrate_implied_volatilities in Hrows.
       rewrite decide_True in Hrows by exact Hne. discriminate. }
  rewrite calibrate_rows in Hrows by exact Hlen. injection Hrows as <-.
  rewrite list_lookup_fmap in Hrow.
  destruct (zip K_list market_prices !! i) as [[K mp] |] eqn:Ezip; [| discriminate].
  injection Hrow as <-.
  unfold vectorized.calibrate_row.
  cbn [vectorized.Strike vectorized.MarketPrice vectorized.ImpliedVol fst snd].
  apply lookup_zip_with_Some in Ezip as (K' & mp' & [= <- <-] & EK & Emp).
  split; [exact EK |]. split; [exact Emp |].
  split; [| split].
  - intros Hle. rewrite decide_False by lra. reflexivity.
  - intros v Hv. case_decide as Hpos; [| discriminate].
    destruct (implied_volatility mp S K T r c option_type 1e-8 100) as [w |] eqn:E;
      [| discriminate].
    injection Hv as ->. split; [lra |]. split; [| reflexivity].
    unfold implied_volatility in E.
    destruct (implied_volatility_exit _ _ _ _ _ _ _ _ _) as [[e w] |] eqn:Ee;
      [| discriminate].
    injection E as <-. now apply implied_volatility_exit_band in Ee.
  - intros Hpos HS HK HT Hkind. rewrite decide_True by lra.
    destruct (implied_volatility_returns mp S K T r c option_type 1e-8 100)
      as (v & -> & _); try assumption; try lra.
    eexists; reflexivity.
Qed.

Lemma calibrate_values_witness :
  is_Some (vectorized.ImpliedVol (vectorized.calibrate_row 100 1 0.05 0 "call" 90 15)).
Proof.
  refine (proj2 (proj2 (proj2 (proj2
    (calibrate_values 100 [90] 1 0.05 0 [15] "call"
       [vectorized.calibrate_row 100 1 0.05 0 "call" 90 15] 0
       (vectorized.calibrate_row 100 1 0.05 0 "call" 90 15) _ _)))) _ _ _ _ _).
  - now rewrite calibrate_rows.
  - reflexivity.
  - change (0 < 15). lra.
  - lra.
  - change (0 < 90). lra.
  - lra.
  - left. reflexivity.
Defined.

(** ** Barone-Adesi-Whaley: the exercise region *)

Section baw_roots.
Variables (r sigma c : float).
Hypothesis sigma_pos : 0 < sigma.
Hypothesis r_pos : 0 < r.

Let a := r - c - sigma ^ 2 / 2.
Let D := a ^ 2 + 2 * r * sigma ^ 2.

Lemma baw_discriminant_pos : a ^ 2 < D.
Proof.
  unfold D. assert (0 < r * sigma ^ 2); [| lra].
  apply Rmult_lt_0_compat; [exact r_pos | now apply pow_lt].
Qed.

Lemma baw_root_gt_abs : - sqrt D < a < sqrt D.
Proof.
  pose proof baw_discriminant_pos as HD.
  assert (Ha : sqrt (a ^ 2) < sqrt D).
  { apply sqrt_lt_1; [apply pow2_ge_0 | pose proof (pow2_ge_0 a); lra | exact HD]. }
  rewrite <- Rsqr_pow2 in Ha.
  rewrite sqrt_Rsqr_abs in Ha.
  revert Ha. unfold Rabs. destruct (Rcase_abs a); lra.
Qed.

Lemma baw_root_vs_one :
  (0 < c -> a + sigma ^ 2 < sqrt D) /\ (c < 0 -> c < r -> sqrt D < a + sigma ^ 2).
Proof.
  assert (Hs2 : 0 < sigma ^ 2) by now apply pow_lt.
  assert (Hdiff : D - (a + sigma ^ 2) ^ 2 = 2 * c * sigma ^ 2)
    by (unfold D, a; field).
  pose proof baw_discriminant_pos as HD. pose proof (pow2_ge_0 a) as Ha2.
  split.
  - intros Hc.
    destruct (Rle_lt_dec (a + sigma ^ 2) 0) as [Hneg | Hpos].
    + pose proof (sqrt_lt_R0 D ltac:(lra)). lra.
    + assert (H : sqrt ((a + sigma ^ 2) ^ 2) < sqrt D).
      { apply sqrt_lt_1; [apply pow2_ge_0 | lra |].
        assert (0 < c * sigma ^ 2) by now apply Rmult_lt_0_compat. lra. }
      rewrite <- (Rsqr_pow2 (a + sigma ^ 2)) in H.
      rewrite sqrt_Rsqr in H by lra. exact H.
  - intros Hc Hcr.
    assert (Hb : 0 < a + sigma ^ 2) by (unfold a; lra).
    assert (H : sqrt D < sqrt ((a + sigma ^ 2) ^ 2)).
    { apply sqrt_lt_1; [lra | apply pow2_ge_0 |].
      assert (0 < (- c) * sigma ^ 2) by (apply Rmult_lt_0_compat; lra). lra. }
    rewrite <- (Rsqr_pow2 (a + sigma ^ 2)) in H.
    rewrite sqrt_Rsqr in H by lra. exact H.
Qed.

(** The root [q2] of the call. *)
Lemma baw_q2_bounds :
  let q2 := (- a + sqrt D) / sigma ^ 2 in
  0 < q2 /\ (0 < c -> 1 < q2) /\ (c < 0 -> c < r -> q2 < 1).
Proof.
  intros q2. subst q2.
  assert (Hs2 : 0 < sigma ^ 2) by now apply pow_lt.
  pose proof baw_root_gt_abs as Habs.
  destruct baw_root_vs_one as [Hgt Hlt].
  split; [| split].
  - apply Rdiv_lt_0_compat; lra.
  - intros Hc. specialize (Hgt Hc).
    apply Rmult_lt_reg_r with (sigma ^ 2); [exact Hs2 |].
    unfold Rdiv. rewrite Rmult_assoc, Rinv_l by lra. lra.
  - intros Hc Hcr. specialize (Hlt Hc Hcr).
    apply Rmult_lt_reg_r with (sigma ^ 2); [exact Hs2 |].
    unfold Rdiv. rewrite Rmult_assoc, Rinv_l by lra. lra.
Qed.

(** The root [q1] of the put. *)
Lemma baw_q1_neg : (- a - sqrt D) / sigma ^ 2 < 0.
Proof.
  assert (Hs2 : 0 < sigma ^ 2) by now apply pow_lt.
  pose proof baw_root_gt_abs as Habs.
  apply Ropp_lt_cancel. rewrite Ropp_0, <- Rdiv_opp_l.
  apply Rdiv_lt_0_compat; lra.
Qed.

End baw_roots.

(** X12. The exercise region of [baw_american_call] for a yield
    0 < c < r (sigma > 0, K > 0): the root [q2] exceeds 1, the critical
    price [S* = K / (1 - 1/q2)] lies above the strike, and for [S >= S*] the
    function returns the intrinsic value [S - K] for every T, which is not
    validated there; below [S*] a maturity T <= 0 is rejected by the pricer
    constructor. *)
Theorem baw_call_exercise_region S K T r sigma c :
  0 < sigma -> 0 < c < r -> 0 < K ->
  let q2 := (- (r - c - sigma ^ 2 / 2)
             + sqrt ((r - c - sigma ^ 2 / 2) ^ 2 + 2 * r * sigma ^ 2)) / sigma ^ 2 in
  let S_star := K / (1 - 1 / q2) in
  1 < q2 /\ K < S_star
  /\ (S >= S_star -> baw_american_call S K T r sigma c = Ok (S - K))
  /\ (S < S_star -> T <= 0 ->
      baw_american_call S K T r sigma c
      = Raise (ValueError "T and sigma must be positive")).
Proof.
  intros Hsigma [Hc Hcr] HK q2 S_star.
  assert (Hr : 0 < r) by lra.
  destruct (baw_q2_bounds r sigma c Hsigma Hr) as (Hq0 & Hq1 & _).
  specialize (Hq1 Hc). fold q2 in Hq0, Hq1.
  assert (Hs2 : 0 < sigma ^ 2) by now apply pow_lt.
  pose proof (baw_discriminant_pos r sigma c Hsigma Hr) as HD.
  pose proof (pow2_ge_0 (r - c - sigma ^ 2 / 2)) as Ha2.
  assert (Hinv : 0 < 1 / q2 < 1).
  { split; [apply Rdiv_lt_0_compat; lra |].
    apply Rmult_lt_reg_r with q2; [lra |].
    unfold Rdiv. rewrite Rmult_assoc, Rinv_l by lra. lra. }
  assert (Hstar : K < S_star).
  { unfold S_star. apply Rmult_lt_reg_r with (1 - 1 / q2); [lra |].
    unfold Rdiv at 2. rewrite Rmult_assoc, Rinv_l by lra.
    assert (0 < K * (1 / q2)) by (apply Rmult_lt_0_compat; lra). lra. }
  split; [exact Hq1 |]. split; [exact Hstar |].
  unfold baw_american_call. rewrite decide_False by lra.
  split.
  - intros HS.
    step ltac:(apply sqrt_Ok; lra).
    step ltac:(apply truediv_Ok; lra).
    step ltac:(apply truediv_Ok; fold q2; lra).
    step ltac:(apply truediv_Ok; fold q2; lra).
    fold q2 S_star. now rewrite decide_True.
  - intros HS HT.
    step ltac:(apply sqrt_Ok; lra).
    step ltac:(apply truediv_Ok; lra).
    step ltac:(apply truediv_Ok; fold q2; lra).
    step ltac:(apply truediv_Ok; fold q2; lra).
    fold q2 S_star. rewrite decide_False by lra.
    rewrite init_bad_T; [reflexivity | left; reflexivity | left; exact HT].
Qed.

Lemma baw_call_exercise_region_witness :
  let q2 := (- (0.05 - 0.03 - 0.2 ^ 2 / 2)
             + sqrt ((0.05 - 0.03 - 0.2 ^ 2 / 2) ^ 2 + 2 * 0.05 * 0.2 ^ 2)) / 0.2 ^ 2 in
  let S_star := 100 / (1 - 1 / q2) in
  1 < q2 /\ 100 < S_star
  /\ baw_american_call S_star 100 (-1) 0.05 0.2 0.03 = Ok (S_star - 100).
Proof.
  intros q2 S_star.
  destruct (baw_call_exercise_region S_star 100 (-1) 0.05 0.2 0.03)
    as (Hq & Hstar & Hexercise & _); [lra | lra | lra |].
  split; [exact Hq |]. split; [exact Hstar |].
  apply Hexercise. apply Rge_refl.
Defined.

(** X13. The exercise region of [baw_american_put] for a positive rate
    (sigma > 0, K > 0, any yield): the root [q1] is negative, the critical
    price [S* = K / (1 - 1/q1)] lies strictly between 0 and the strike, and
    for [S <= S*] the function returns the intrinsic value [K - S], which is
    positive, for every T; above [S*] a maturity T <= 0 is rejected by the
    pricer constructor. *)
Theorem baw_put_exercise_region S K T r sigma c :
  0 < sigma -> 0 < r -> 0 < K ->
  let q1 := (- (r - c - sigma ^ 2 / 2)
             - sqrt ((r - c - sigma ^ 2 / 2) ^ 2 + 2 * r * sigma ^ 2)) / sigma ^ 2 in
  let S_star := K / (1 - 1 / q1) in
  q1 < 0 /\ 0 < S_star < K
  /\ (S <= S_star -> baw_american_put S K T r sigma c = Ok (K - S) /\ 0 < K - S)
  /\ (S_star < S -> T <= 0 ->
      baw_american_put S K T r sigma c
      = Raise (ValueError "T and sigma must be positive")).
Proof.
  intros Hsigma Hr HK q1 S_star.
  pose proof (baw_q1_neg r sigma c Hsigma Hr) as Hq. fold q1 in Hq.
  assert (Hs2 : 0 < sigma ^ 2) by now apply pow_lt.
  pose proof (baw_discriminant_pos r sigma c Hsigma Hr) as HD.
  pose proof (pow2_ge_0 (r - c - sigma ^ 2 / 2)) as Ha2.
  assert (Hinv : 1 / q1 < 0).
  { unfold Rdiv. rewrite Rmult_1_l. now apply Rinv_lt_0_compat. }
  assert (Hstar : 0 < S_star < K).
  { unfold S_star. split; [apply Rdiv_lt_0_compat; lra |].
    apply Rmult_lt_reg_r with (1 - 1 / q1); [lra |].
    unfold Rdiv at 1. rewrite Rmult_assoc, Rinv_l by lra.
    assert (0 < K * - (1 / q1)) by (apply Rmult_lt_0_compat; lra). lra. }
  split; [exact Hq |]. split; [exact Hstar |].
  unfold baw_american_put.
  split.
  - intros HS. split; [| lra].
    step ltac:(apply sqrt_Ok; lra).
    step ltac:(apply truediv_Ok; lra).
    step ltac:(apply truediv_Ok; fold q1; lra).
    step ltac:(apply truediv_Ok; fold q1; lra).
    fold q1 S_star. now rewrite decide_True.
  - intros HS HT.
    step ltac:(apply sqrt_Ok; lra).
    step ltac:(apply truediv_Ok; lra).
    step ltac:(apply truediv_Ok; fold q1; lra).
    step ltac:(apply truediv_Ok; fold q1; lra).
    fold q1 S_star. rewrite decide_False by lra.
    rewrite init_bad_T; [reflexivity | right; reflexivity | left; exact HT].
Qed.

Lemma baw_put_exercise_region_witness :
  baw_american_put 0 100 (-1) 0.05 0.2 0 = Ok (100 - 0).
Proof.
  refine (proj1 (proj1 (proj2 (proj2
    (baw_put_exercise_region 0 100 (-1) 0.05 0.2 0 _ _ _))) _)); try lra.
  cbv zeta.
  apply Rlt_le, (baw_put_exercise_region 1 100 1 0.05 0.2 0); lra.
Defined.

(** X14. With a negative yield and a positive rate (sigma > 0, K > 0) the
    root [q2] of [baw_american_call] lies in (0, 1), its critical price is
    negative, and every S >= 0 is priced at [S - K] for every T: the result
    is negative for S < K, and T is never validated. *)
Theorem baw_call_negative_yield S K T r sigma c :
  0 < sigma -> c < 0 -> 0 < r -> 0 < K -> 0 <= S ->
  baw_american_call S K T r sigma c = Ok (S - K).
Proof.
  intros Hsigma Hc Hr HK HS.
  destruct (baw_q2_bounds r sigma c Hsigma Hr) as (Hq0 & _ & Hq1).
  specialize (Hq1 Hc ltac:(lra)).
  set (q2 := (- (r - c - sigma ^ 2 / 2)
              + sqrt ((r - c - sigma ^ 2 / 2) ^ 2 + 2 * r * sigma ^ 2)) / sigma ^ 2)
    in *.
  assert (Hs2 : 0 < sigma ^ 2) by now apply pow_lt.
  pose proof (baw_discriminant_pos r sigma c Hsigma Hr) as HD.
  pose proof (pow2_ge_0 (r - c - sigma ^ 2 / 2)) as Ha2.
  assert (Hinv : 1 < 1 / q2).
  { apply Rmult_lt_reg_r with q2; [lra |].
    unfold Rdiv. rewrite Rmult_assoc, Rinv_l by lra. lra. }
  assert (Hstar : K / (1 - 1 / q2) < 0).
  { apply Ropp_lt_cancel. rewrite Ropp_0, <- Rdiv_opp_l.
    replace (- K / (1 - 1 / q2)) with (K / (1 / q2 - 1)) by (field; lra).
    apply Rdiv_lt_0_compat; lra. }
  unfold baw_american_call. rewrite decide_False by lra.
  step ltac:(apply sqrt_Ok; lra).
  step ltac:(apply truediv_Ok; lra).
  step ltac:(apply truediv_Ok; fold q2; lra).
  step ltac:(apply truediv_Ok; fold q2; lra).
  fold q2. rewrite decide_True by lra. reflexivity.
Qed.

Lemma baw_call_negative_yield_witness :
  baw_american_call 50 100 1 0.05 0.2 (-0.01) = Ok (50 - 100).
Proof. apply baw_call_negative_yield; lra. Defined.

(** ** Loops over ranges and arrays of rank 1 *)

Lemma range_cons lo hi : (lo < hi)%Z -> range lo hi = lo :: range (lo + 1) hi.
Proof.
  intros H. unfold range. rewrite seqZ_cons by lia.
  f_equal. f_equal; lia.
Qed.

Lemma range_nil lo hi : (hi <= lo)%Z -> range lo hi = [].
Proof. intros H. unfold range. apply seqZ_nil. lia. Qed.

Lemma range_down_cons start stop :
  (stop < start)%Z -> range_down start stop = start :: range_down (start - 1) stop.
Proof.
  intros H. unfold range_down. rewrite seqZ_cons by lia. cbn [fmap list_fmap].
  f_equal; [lia |].
  replace (Z.succ 0) with (1 + 0)%Z by lia.
  rewrite <- fmap_add_seqZ, <- list_fmap_compose.
  replace (Z.pred (start - stop)) with (start - 1 - stop)%Z by lia.
  apply list_fmap_ext. intros _ k _. cbn. lia.
Qed.

Lemma range_down_nil start stop : (start <= stop)%Z -> range_down start stop = [].
Proof. intros H. unfold range_down. rewrite seqZ_nil by lia. reflexivity. Qed.

(** A loop over [range(lo, hi)] whose body takes the invariant of an index
    to the invariant of the next one. *)
Lemma for_range_invariant {St : Type} (Inv : Z -> St -> Prop)
    (body : Z -> St -> result St) (lo hi : Z) (s : St) :
  (lo <= hi)%Z -> Inv lo s ->
  (forall i s, (lo <= i < hi)%Z -> Inv i s ->
               exists s', body i s = Ok s' /\ Inv (i + 1)%Z s') ->
  exists s', for_each (range lo hi) body s = Ok s' /\ Inv hi s'.
Proof.
  intros Hle Hs Hbody.
  remember (Z.to_nat (hi - lo)) as len eqn:Elen.
  revert lo s Hle Hs Hbody Elen.
  induction len as [| len IH]; intros lo s Hle Hs Hbody Elen.
  - rewrite range_nil by lia. replace hi with lo by lia.
    exists s. split; [reflexivity | exact Hs].
  - rewrite range_cons by lia. cbn [for_each].
    destruct (Hbody lo s ltac:(lia) Hs) as (s' & -> & Hs'). rewrite bind_Ok.
    apply IH; [lia | exact Hs' | | lia].
    intros i s0 Hi. apply Hbody. lia.
Qed.

(** A loop over [range(start, stop, -1)]. *)
Lemma for_range_down_invariant {St : Type} (Inv : Z -> St -> Prop)
    (body : Z -> St -> result St) (start stop : Z) (s : St) :
  (stop <= start)%Z -> Inv start s ->
  (forall i s, (stop < i <= start)%Z -> Inv i s ->
               exists s', body i s = Ok s' /\ Inv (i - 1)%Z s') ->
  exists s', for_each (range_down start stop) body s = Ok s' /\ Inv stop s'.
Proof.
  intros Hle Hs Hbody.
  remember (Z.to_nat (start - stop)) as len eqn:Elen.
  revert start s Hle Hs Hbody Elen.
  induction len as [| len IH]; intros start s Hle Hs Hbody Elen.
  - rewrite range_down_nil by lia. replace stop with start by lia.
    exists s. split; [reflexivity | exact Hs].
  - rewrite range_down_cons by lia. cbn [for_each].
    destruct (Hbody start s ltac:(lia) Hs) as (s' & -> & Hs'). rewrite bind_Ok.
    apply IH; [lia | exact Hs' | | lia].
    intros i s0 Hi. apply Hbody. lia.
Qed.

(** A list comprehension whose body returns on every element. *)
Lemma mapM_Ok {A B : Type} (f : A -> result B) (g : A -> B) (xs : list A) :
  Forall (fun x => f x = Ok (g x)) xs -> mapM f xs = Ok (g <$> xs).
Proof.
  induction 1 as [| x xs Hx _ IH]; [reflexivity |].
  change (mapM f (x :: xs)) with (y ← f x; k ← mapM f xs; mret (y :: k)).
  rewrite Hx, bind_Ok, IH. reflexivity.
Qed.

Lemma getitem1_Ok (a : list float) (i : Z) (v : float) :
  (0 <= i)%Z -> a !! Z.to_nat i = Some v -> np.getitem1 a i = Ok v.
Proof.
  intros Hi Hv. unfold np.getitem1.
  pose proof (lookup_lt_Some _ _ _ Hv) as Hlt.
  rewrite index_Ok by lia. rewrite bind_Ok, Hv. reflexivity.
Qed.

Lemma setitem1_Ok (a : list float) (i : Z) (v : float) :
  (0 <= i < Z.of_nat (length a))%Z ->
  np.setitem1 a i v = Ok (<[Z.to_nat i := v]> a).
Proof.
  intros Hi. unfold np.setitem1. rewrite index_Ok by lia. reflexivity.
Qed.

Lemma zeros1_Ok (len : Z) :
  (0 <= len)%Z -> np.zeros1 len = Ok (replicate (Z.to_nat len) 0).
Proof. intros H. unfold np.zeros1. now rewrite decide_False by lia. Qed.

Lemma lookup_range (lo hi : Z) (k : nat) :
  (lo + Z.of_nat k < hi)%Z -> range lo hi !! k = Some (lo + Z.of_nat k)%Z.
Proof. intros H. unfold range. apply lookup_seqZ. lia. Qed.

Lemma length_range (lo hi : Z) : length (range lo hi) = Z.to_nat (hi - lo).
Proof. unfold range. apply length_seqZ. Qed.

(** ** Arrays of rank 2, cell by cell *)

Lemma getitem_setitem_eq a rows cols i j v a' :
  np.has_shape a rows cols ->
  (0 <= i < Z.of_nat rows)%Z -> (0 <= j < Z.of_nat cols)%Z ->
  np.setitem a i j v = Ok a' -> np.getitem a' i j = Ok v.
Proof.
  intros [Hlen Hrows] Hi Hj. unfold np.setitem, np.getitem.
  rewrite index_Ok by lia. rewrite bind_Ok.
  destruct (lookup_lt_is_Some_2 a (Z.to_nat i) ltac:(lia)) as [row Hrow].
  rewrite Hrow.
  assert (Hcols : length row = cols)
    by exact (proj1 (Forall_lookup _ a) Hrows _ _ Hrow).
  rewrite index_Ok by lia. rewrite bind_Ok. intros [= <-].
  rewrite length_insert, index_Ok by lia. rewrite bind_Ok.
  rewrite list_lookup_insert_eq by lia.
  rewrite length_insert, index_Ok by lia. rewrite bind_Ok.
  rewrite list_lookup_insert_eq by lia. reflexivity.
Qed.

Lemma getitem_setitem_ne a rows cols i j v a' i' j' :
  np.has_shape a rows cols ->
  (0 <= i < Z.of_nat rows)%Z -> (0 <= j < Z.of_nat cols)%Z ->
  (0 <= i' < Z.of_nat rows)%Z -> (0 <= j' < Z.of_nat cols)%Z ->
  i <> i' \/ j <> j' ->
  np.setitem a i j v = Ok a' -> np.getitem a' i' j' = np.getitem a i' j'.
Proof.
  intros [Hlen Hrows] Hi Hj Hi' Hj' Hne. unfold np.setitem, np.getitem.
  rewrite index_Ok by lia. rewrite bind_Ok.
  destruct (lookup_lt_is_Some_2 a (Z.to_nat i) ltac:(lia)) as [row Hrow].
  rewrite Hrow.
  assert (Hcols : length row = cols)
    by exact (proj1 (Forall_lookup _ a) Hrows _ _ Hrow).
  rewrite index_Ok by lia. rewrite bind_Ok. intros [= <-].
  rewrite length_insert, !index_Ok by lia. rewrite !bind_Ok.
  destruct (decide (i = i')) as [<- | Hii].
  - rewrite list_lookup_insert_eq by lia. rewrite Hrow.
    rewrite length_insert, !index_Ok by lia. rewrite !bind_Ok.
    rewrite list_lookup_insert_ne by lia. reflexivity.
  - rewrite list_lookup_insert_ne by lia. reflexivity.
Qed.

Lemma getitem_lookup a rows cols i j v :
  np.has_shape a rows cols ->
  (0 <= i < Z.of_nat rows)%Z -> (0 <= j < Z.of_nat cols)%Z ->
  np.getitem a i j = Ok v ->
  a !! Z.to_nat i ≫= (.!! Z.to_nat j) = Some v.
Proof.
  intros [Hlen Hrows] Hi Hj. unfold np.getitem.
  rewrite index_Ok by lia. rewrite bind_Ok.
  destruct (lookup_lt_is_Some_2 a (Z.to_nat i) ltac:(lia)) as [row Hrow].
  rewrite Hrow.
  assert (Hcols : length row = cols)
    by exact (proj1 (Forall_lookup _ a) Hrows _ _ Hrow).
  rewrite index_Ok by lia. rewrite bind_Ok. cbn.
  destruct (row !! Z.to_nat j); [| discriminate]. now intros [= ->].
Qed.

(** ** The binomial lattice: the stock tree *)

Section binomial_tree.
Variables (T S0 r sigma c K : float) (n : Z) (option_type : string).
Hypothesis n_pos : (1 <= n)%Z.
Hypothesis T_pos : 0 < T.
Hypothesis sigma_nonzero : sigma <> 0.

Let dt := T / IZR n.
Let u := exp (sigma * sqrt dt).
Let d := 1.0 / u.
Let rows := Z.to_nat (n + 1).

(** The entry of the node reached by [j] down moves out of [i]. *)
Let closed (a : list (list float)) (i j : Z) : Prop :=
  np.getitem a j i = Ok (S0 * u ^ Z.to_nat (i - j) * d ^ Z.to_nat j).

Let columns_before (i : Z) (a : list (list float)) : Prop :=
  np.has_shape a rows rows
  /\ forall i' j', (0 <= j' <= i')%Z -> (i' < i)%Z -> closed a i' j'.

Let column_upto (i j : Z) (a : list (list float)) : Prop :=
  columns_before i a /\ forall j', (0 <= j' < j)%Z -> closed a i j'.

Lemma binomial_dt_pos : 0 < dt.
Proof.
  assert (1 <= IZR n) by now apply IZR_le.
  apply Rmult_lt_0_compat; [exact T_pos |]. apply Rinv_0_lt_compat. lra.
Qed.

Lemma binomial_u_d : 0 < u /\ u <> 1 /\ u - d <> 0 /\ 0 < d /\ u * d = 1.
Proof.
  pose proof binomial_dt_pos as Hdt.
  assert (Hsq : 0 < sqrt dt) by now apply sqrt_lt_R0.
  assert (Hu : 0 < u) by apply exp_pos.
  assert (Hu1 : u <> 1).
  { intros E. apply exp_one_inv in E. nra. }
  assert (Hd : 0 < d) by (apply Rdiv_lt_0_compat; lra).
  assert (Hud : u * d = 1).
  { unfold d. replace 1.0 with 1 by lra. field. lra. }
  repeat split; try assumption.
  intros E. apply Hu1. nra.
Qed.

Lemma binomial_column (i : Z) (a : list (list float)) :
  (1 <= i < n + 1)%Z -> columns_before i a ->
  exists a',
    (prev ← np.getitem a 0 (i - 1);
     stock_tree ← np.setitem a 0 i (prev * u);
     for_each (range 1 (i + 1)) (fun j stock_tree =>
       prev ← np.getitem stock_tree (j - 1) (i - 1);
       np.setitem stock_tree j i (prev * d)) stock_tree) = Ok a'
    /\ columns_before (i + 1) a'.
Proof.
  intros Hi [Hshape Hbefore].
  assert (Hrows : Z.of_nat rows = (n + 1)%Z) by (subst rows; lia).
  rewrite (Hbefore (i - 1)%Z 0%Z) by lia. rewrite bind_Ok.
  destruct (setitem_Ok a rows rows 0 i
              (S0 * u ^ Z.to_nat (i - 1 - 0) * d ^ Z.to_nat 0 * u) Hshape
              ltac:(lia) ltac:(lia)) as (a1 & Ea1 & Hshape1).
  rewrite Ea1, bind_Ok.
  assert (Hstart : column_upto i 1 a1).
  { split; [split; [exact Hshape1 |] |].
    - intros i' j' Hj' Hi'. unfold closed.
      rewrite (getitem_setitem_ne a rows rows 0 i _ a1 j' i' Hshape)
        by (try lia; try exact Ea1; right; lia).
      now apply Hbefore.
    - intros j' Hj'. replace j' with 0%Z by lia. unfold closed.
      rewrite (getitem_setitem_eq a rows rows 0 i _ a1 Hshape)
        by (try lia; exact Ea1).
      f_equal. replace (Z.to_nat (i - 0)) with (Datatypes.S (Z.to_nat (i - 1 - 0)))
        by lia.
      cbn [pow]. ring. }
  destruct (for_range_invariant (column_upto i)
              (fun j stock_tree =>
                 prev ← np.getitem stock_tree (j - 1) (i - 1);
                 np.setitem stock_tree j i (prev * d))
              1 (i + 1) a1 ltac:(lia) Hstart) as (a2 & Ea2 & Ha2).
  - intros j b Hj [[Hshapeb Hbeforeb] Hcol].
    rewrite (Hbeforeb (i - 1)%Z (j - 1)%Z) by lia. rewrite bind_Ok.
    destruct (setitem_Ok b rows rows j i
                (S0 * u ^ Z.to_nat (i - 1 - (j - 1)) * d ^ Z.to_nat (j - 1) * d)
                Hshapeb ltac:(lia) ltac:(lia)) as (b' & Eb' & Hshapeb').
    exists b'. split; [exact Eb' |].
    split; [split; [exact Hshapeb' |] |].
    + intros i' j' Hj' Hi'. unfold closed.
      rewrite (getitem_setitem_ne b rows rows j i _ b' j' i' Hshapeb)
        by (try lia; try exact Eb'; right; lia).
      now apply Hbeforeb.
    + intros j' Hj'. unfold closed.
      destruct (decide (j' = j)) as [-> | Hne].
      * rewrite (getitem_setitem_eq b rows rows j i _ b' Hshapeb)
          by (try lia; exact Eb').
        f_equal.
        replace (Z.to_nat (i - 1 - (j - 1))) with (Z.to_nat (i - j)) by lia.
        replace (Z.to_nat j) with (Datatypes.S (Z.to_nat (j - 1))) by lia.
        cbn [pow]. ring.
      * rewrite (getitem_setitem_ne b rows rows j i _ b' j' i Hshapeb)
          by (try lia; try exact Eb'; left; lia).
        apply Hcol. lia.
  - exists a2. split; [exact Ea2 |].
    destruct Ha2 as [[Hshape2 Hbefore2] Hcol2].
    split; [exact Hshape2 |].
    intros i' j' Hj' Hi'.
    destruct (decide (i' = i)) as [-> | Hne].
    + apply Hcol2. lia.
    + apply Hbefore2; lia.
Qed.

(** What the constructor stores. *)
Lemma binomial_stored :
  exists stock,
    BinomialTree.__init__ T S0 r sigma c K n option_type
    = Ok (BinomialTree.mk T S0 r sigma c K n (lower option_type) dt u d
            ((exp ((r - c) * dt) - d) / (u - d)) (exp (r * dt)) stock)
    /\ np.has_shape stock rows rows
    /\ forall i j, (0 <= j <= i)%Z -> (i <= n)%Z ->
         np.getitem stock j i = Ok (S0 * u ^ Z.to_nat (i - j) * d ^ Z.to_nat j).
Proof.
  pose proof binomial_dt_pos as Hdt.
  destruct binomial_u_d as (Hu & Hu1 & Hud & Hd & _).
  assert (Hn' : 1 <= IZR n) by now apply IZR_le.
  assert (Hrows : Z.of_nat rows = (n + 1)%Z) by (subst rows; lia).
  unfold BinomialTree.__init__. cbv zeta.
  destruct (zeros_Ok (n + 1) (n + 1) ltac:(lia) ltac:(lia)) as (a0 & Ea0 & Ha0).
  fold rows in Ha0.
  destruct (setitem_Ok a0 rows rows 0 0 S0 Ha0 ltac:(lia) ltac:(lia))
    as (a1 & Ea1 & Ha1).
  assert (Hstart : columns_before 1 a1).
  { split; [exact Ha1 |]. intros i' j' Hj' Hi'.
    replace i' with 0%Z by lia. replace j' with 0%Z by lia. unfold closed.
    rewrite (getitem_setitem_eq a0 rows rows 0 0 _ a1 Ha0) by (try lia; exact Ea1).
    f_equal. replace (Z.to_nat (0 - 0)) with 0%nat by lia.
    replace (Z.to_nat 0) with 0%nat by lia. cbn [pow]. ring. }
  destruct (for_range_invariant columns_before
              (fun i stock_tree =>
                 prev ← np.getitem stock_tree 0 (i - 1);
                 stock_tree ← np.setitem stock_tree 0 i (prev * u);
                 for_each (range 1 (i + 1)) (fun j stock_tree =>
                   prev ← np.getitem stock_tree (j - 1) (i - 1);
                   np.setitem stock_tree j i (prev * d)) stock_tree)
              1 (n + 1) a1 ltac:(lia) Hstart) as (a2 & Ea2 & Ha2 & Hclosed).
  { intros i a Hi Ha. now apply binomial_column. }
  exists a2. split; [| split; [exact Ha2 |]].
  - step ltac:(apply truediv_Ok; lra). fold dt.
    step ltac:(apply sqrt_Ok; lra).
    unfold math.exp. fold u.
    step ltac:(apply truediv_Ok; lra). fold d.
    step ltac:(apply truediv_Ok; exact Hud).
    step ltac:(exact Ea0).
    step ltac:(exact Ea1).
    step ltac:(exact Ea2).
    reflexivity.
  - intros i j Hj Hi. apply Hclosed; lia.
Qed.

End binomial_tree.

(** ** The binomial lattice: [price] *)

Section binomial_price.
Variable self : BinomialTree.t.
Variable exercise_style : string.

Let n := self.(BinomialTree.n).
Let american := bool_decide (exercise_style = "american").
Let V (k : nat) (j : Z) : float :=
  BinomialTree.backward_induction self american k j.

Hypothesis n_nonneg : (0 <= n)%Z.
Hypothesis shape :
  np.has_shape self.(BinomialTree.stock_tree) (Z.to_nat (n + 1)) (Z.to_nat (n + 1)).
Hypothesis R_nonzero : self.(BinomialTree.R) <> 0.

Lemma binomial_getitem_node (j i : Z) :
  (0 <= j <= n)%Z -> (0 <= i <= n)%Z ->
  np.getitem self.(BinomialTree.stock_tree) j i = Ok (BinomialTree.node self j i).
Proof.
  intros Hj Hi.
  destruct (getitem_Ok _ _ _ j i shape ltac:(lia) ltac:(lia)) as [v Hv].
  rewrite Hv. f_equal. unfold BinomialTree.node.
  now rewrite (getitem_lookup _ _ _ j i v shape ltac:(lia) ltac:(lia) Hv).
Qed.

Lemma binomial_value_maturity (j : Z) :
  V 0 j = BinomialTree._intrinsic self (BinomialTree.node self j n).
Proof.
  unfold V. cbn [BinomialTree.backward_induction]. fold n.
  do 2 f_equal. cbn. lia.
Qed.

Lemma binomial_value_step (i j : Z) :
  (0 <= i < n)%Z ->
  V (Z.to_nat (n - i)) j
  = let cont :=
      (self.(BinomialTree.q) * V (Z.to_nat (n - i - 1)) j
       + (1 - self.(BinomialTree.q)) * V (Z.to_nat (n - i - 1)) (j + 1))
      / self.(BinomialTree.R) in
    if american then
      py_max cont (BinomialTree._intrinsic self (BinomialTree.node self j i))
    else cont.
Proof.
  intros Hi. unfold V.
  replace (Z.to_nat (n - i)) with (Datatypes.S (Z.to_nat (n - i - 1))) by lia.
  cbn [BinomialTree.backward_induction]. fold n.
  replace (n - Z.of_nat (Datatypes.S (Z.to_nat (n - i - 1))))%Z with i by lia.
  reflexivity.
Qed.

(** The array before the column [i] is processed: its entries 0 .. i + 1
    are the values of the column [i + 1]. *)
Let column_done (i : Z) (option : list float) : Prop :=
  length option = Z.to_nat (n + 1)
  /\ forall j, (0 <= j <= i + 1)%Z ->
       option !! Z.to_nat j = Some (V (Z.to_nat (n - (i + 1))) j).

(** The array inside the column [i]: the entries below [j] are updated, the
    entries from [j] on are still the ones of the column [i + 1]. *)
Let column_upto (i j : Z) (option : list float) : Prop :=
  length option = Z.to_nat (n + 1)
  /\ (forall j', (0 <= j' < j)%Z ->
        option !! Z.to_nat j' = Some (V (Z.to_nat (n - i)) j'))
  /\ (forall j', (j <= j' <= i + 1)%Z ->
        option !! Z.to_nat j' = Some (V (Z.to_nat (n - i - 1)) j')).

Lemma binomial_price_column (i : Z) (option : list float) :
  (-1 < i <= n - 1)%Z -> column_done i option ->
  exists option',
    for_each (range 0 (i + 1)) (fun j option =>
      o_j ← np.getitem1 option j;
      o_j1 ← np.getitem1 option (j + 1);
      cont ← truediv (self.(BinomialTree.q) * o_j
                      + (1 - self.(BinomialTree.q)) * o_j1) self.(BinomialTree.R);
      if decide (exercise_style = "american") then
        s ← np.getitem self.(BinomialTree.stock_tree) j i;
        let ex := BinomialTree._intrinsic self s in
        np.setitem1 option j (py_max cont ex)
      else
        np.setitem1 option j cont) option = Ok option'
    /\ column_done (i - 1) option'.
Proof.
  intros Hi [Hlen Hdone].
  assert (Hstart : column_upto i 0 option).
  { split; [exact Hlen |]. split; [intros j' Hj'; lia |].
    intros j' Hj'. rewrite Hdone by lia. do 3 f_equal. lia. }
  match goal with
  | |- context [for_each _ ?body option] =>
      destruct (for_range_invariant (column_upto i) body 0 (i + 1) option
                  ltac:(lia) Hstart) as (option' & E & Hlen' & Hnew & _)
  end.
  - intros j o Hj (Hleno & Hbelow & Habove).
    rewrite (getitem1_Ok o j _ ltac:(lia) (Habove j ltac:(lia))), bind_Ok.
    rewrite (getitem1_Ok o (j + 1) _ ltac:(lia) (Habove (j + 1)%Z ltac:(lia))),
      bind_Ok.
    rewrite truediv_Ok, bind_Ok by exact R_nonzero.
    assert (Hset : forall v,
      v = V (Z.to_nat (n - i)) j ->
      exists o', np.setitem1 o j v = Ok o' /\ column_upto i (j + 1) o').
    { intros v ->. rewrite setitem1_Ok by lia.
      eexists. split; [reflexivity |].
      split; [now rewrite length_insert |]. split.
      - intros j' Hj'. destruct (decide (j' = j)) as [-> | Hne].
        + rewrite list_lookup_insert_eq by lia. reflexivity.
        + rewrite list_lookup_insert_ne by lia. apply Hbelow. lia.
      - intros j' Hj'. rewrite list_lookup_insert_ne by lia. apply Habove. lia. }
    rewrite (binomial_value_step i j) in Hset by lia. cbv zeta in Hset.
    unfold american in Hset.
    case_decide as Hstyle.
    + rewrite bool_decide_eq_true_2 in Hset by exact Hstyle.
      rewrite binomial_getitem_node, bind_Ok by lia.
      apply Hset. reflexivity.
    + rewrite bool_decide_eq_false_2 in Hset by exact Hstyle.
      apply Hset. reflexivity.
  - exists option'. split; [exact E |]. split; [exact Hlen' |].
    intros j Hj. rewrite Hnew by lia. do 3 f_equal. lia.
Qed.

(** [price] is the backward induction over the lattice: the sweep that
    updates the array in place reads every entry before it is overwritten. *)
Lemma binomial_price_value :
  BinomialTree.price self exercise_style = Ok (V (Z.to_nat n) 0).
Proof.
  unfold BinomialTree.price. fold n.
  rewrite (mapM_Ok _ (fun j => BinomialTree._intrinsic self (BinomialTree.node self j n))).
  2: { apply Forall_forall. intros j Hj.
       pose proof (proj1 (Forall_forall _ _) (range_bounds 0 (n + 1)) j Hj) as Hb.
       cbn beta in Hb.
       rewrite binomial_getitem_node by lia. reflexivity. }
  rewrite bind_Ok. cbv zeta.
  set (payoff := (fun j => BinomialTree._intrinsic self (BinomialTree.node self j n))
                   <$> range 0 (n + 1)).
  assert (Hstart : column_done (n - 1) payoff).
  { split.
    - unfold payoff. rewrite length_fmap, length_range. f_equal. lia.
    - intros j Hj. unfold payoff. rewrite list_lookup_fmap.
      rewrite (lookup_range 0 (n + 1) (Z.to_nat j)) by lia. cbn [fmap option_fmap option_map].
      replace (Z.to_nat (n - (n - 1 + 1))) with 0%nat by lia.
      rewrite binomial_value_maturity. do 3 f_equal. lia. }
  match goal with
  | |- context [for_each _ ?body payoff] =>
      destruct (for_range_down_invariant column_done body (n - 1) (-1) payoff
                  ltac:(lia) Hstart) as (option & E & Hlen & Hroot)
  end.
  { intros i o Hi Ho. apply binomial_price_column; [lia | exact Ho]. }
  rewrite E, bind_Ok.
  apply getitem1_Ok; [lia |].
  rewrite (Hroot 0%Z) by lia. do 2 f_equal. lia.
Qed.

End binomial_price.

Lemma py_max_ge_l (a b : float) : a <= py_max a b.
Proof. unfold py_max. case_decide; lra. Qed.

Lemma py_max_ge_r (a b : float) : b <= py_max a b.
Proof. unfold py_max. case_decide; lra. Qed.

Lemma binomial_intrinsic_nonneg self S : 0 <= BinomialTree._intrinsic self S.
Proof. unfold BinomialTree._intrinsic. case_decide; apply py_max_ge_r. Qed.

Section binomial_values.
Variable self : BinomialTree.t.
Hypothesis R_pos : 0 < self.(BinomialTree.R).

(** Early exercise: the American value of a node is at least its intrinsic
    value. *)
Lemma binomial_american_ge_intrinsic k j :
  BinomialTree._intrinsic self
    (BinomialTree.node self j (self.(BinomialTree.n) - Z.of_nat k))
  <= BinomialTree.backward_induction self true k j.
Proof.
  destruct k as [| k]; cbn [BinomialTree.backward_induction]; cbv zeta.
  - lra.
  - apply py_max_ge_r.
Qed.

Hypothesis q_prob : 0 <= self.(BinomialTree.q) <= 1.

Lemma binomial_continuation_mono a b a' b' :
  a <= a' -> b <= b' ->
  (self.(BinomialTree.q) * a + (1 - self.(BinomialTree.q)) * b)
  / self.(BinomialTree.R)
  <= (self.(BinomialTree.q) * a' + (1 - self.(BinomialTree.q)) * b')
     / self.(BinomialTree.R).
Proof.
  intros Ha Hb. apply Rmult_le_compat_r; [left; now apply Rinv_0_lt_compat |].
  apply Rplus_le_compat; apply Rmult_le_compat_l; lra.
Qed.

Lemma binomial_value_nonneg american k : forall j,
  0 <= BinomialTree.backward_induction self american k j.
Proof.
  induction k as [| k IH]; intros j; cbn [BinomialTree.backward_induction]; cbv zeta.
  - apply binomial_intrinsic_nonneg.
  - assert (Hcont : 0 <= (self.(BinomialTree.q)
                          * BinomialTree.backward_induction self american k j
                          + (1 - self.(BinomialTree.q))
                            * BinomialTree.backward_induction self american k (j + 1))
                         / self.(BinomialTree.R)).
    { apply Rmult_le_pos; [| left; now apply Rinv_0_lt_compat].
      apply Rplus_le_le_0_compat; apply Rmult_le_pos;
        try apply IH; lra. }
    destruct american; [| exact Hcont].
    eapply Rle_trans; [exact Hcont | apply py_max_ge_l].
Qed.

Lemma binomial_american_ge_european k : forall j,
  BinomialTree.backward_induction self false k j
  <= BinomialTree.backward_induction self true k j.
Proof.
  induction k as [| k IH]; intros j; cbn [BinomialTree.backward_induction]; cbv zeta.
  - lra.
  - eapply Rle_trans; [| apply py_max_ge_l].
    apply binomial_continuation_mono; apply IH.
Qed.

End binomial_values.

(** The risk-neutral probability of a constructed tree is a probability
    when the drift of a step does not exceed its volatility. *)
Lemma binomial_q_prob (r c sigma dt : float) :
  0 < dt -> 0 < sigma -> Rabs (r - c) * sqrt dt <= sigma ->
  let u := exp (sigma * sqrt dt) in
  let d := 1.0 / u in
  0 <= (exp ((r - c) * dt) - d) / (u - d) <= 1.
Proof.
  intros Hdt Hsigma Hdrift u d.
  assert (Hsq : 0 < sqrt dt) by now apply sqrt_lt_R0.
  assert (Hdt2 : sqrt dt * sqrt dt = dt) by (apply sqrt_sqrt; lra).
  assert (Hd : d = exp (- (sigma * sqrt dt))).
  { unfold d, u. rewrite exp_Ropp. replace 1.0 with 1 by lra. field.
    apply Rgt_not_eq, exp_pos. }
  assert (Habs : - sigma <= (r - c) * sqrt dt <= sigma).
  { revert Hdrift. unfold Rabs. destruct (Rcase_abs (r - c)); nra. }
  assert (Hlo : d <= exp ((r - c) * dt)).
  { rewrite Hd. destruct (Req_dec (- (sigma * sqrt dt)) ((r - c) * dt)) as [-> | Hne];
      [lra |].
    left. apply exp_increasing. rewrite <- Hdt2 at 2. nra. }
  assert (Hhi : exp ((r - c) * dt) <= u).
  { unfold u. destruct (Req_dec ((r - c) * dt) (sigma * sqrt dt)) as [-> | Hne];
      [lra |].
    left. apply exp_increasing. rewrite <- Hdt2 at 1. nra. }
  assert (Hud : d < u).
  { rewrite Hd. unfold u. apply exp_increasing. nra. }
  split.
  - apply Rmult_le_pos; [lra |]. left. apply Rinv_0_lt_compat. lra.
  - apply Rmult_le_reg_r with (u - d); [lra |].
    unfold Rdiv. rewrite Rmult_assoc, Rinv_l by lra. lra.
Qed.

(** X15. The stock tree of a constructed binomial lattice (n >= 1, T > 0,
    sigma <> 0): [u = exp(sigma sqrt(T/n))], [u d = 1], the node reached by
    [j] down moves out of [i] holds [S0 u^(i-j) d^j], and the lattice
    recombines: an up move followed by a down move returns to the same
    price. *)
Theorem binomial_stock_tree T S0 r sigma c K n option_type :
  (1 <= n)%Z -> 0 < T -> sigma <> 0 ->
  exists tree,
    BinomialTree.__init__ T S0 r sigma c K n option_type = Ok tree
    /\ tree.(BinomialTree.u) = exp (sigma * sqrt (T / IZR n))
    /\ tree.(BinomialTree.u) * tree.(BinomialTree.d) = 1
    /\ (forall i j, (0 <= j <= i)%Z -> (i <= n)%Z ->
          np.getitem tree.(BinomialTree.stock_tree) j i
          = Ok (S0 * tree.(BinomialTree.u) ^ Z.to_nat (i - j)
                * tree.(BinomialTree.d) ^ Z.to_nat j))
    /\ (forall i j, (0 <= j <= i)%Z -> (i + 2 <= n)%Z ->
          np.getitem tree.(BinomialTree.stock_tree) (j + 1) (i + 2)
          = np.getitem tree.(BinomialTree.stock_tree) j i).
Proof.
  intros Hn HT Hsigma.
  destruct (binomial_stored T S0 r sigma c K n option_type Hn HT Hsigma)
    as (stock & Einit & Hshape & Hclosed).
  destruct (binomial_u_d T sigma n Hn HT Hsigma) as (Hu & _ & _ & Hd & Hud).
  eexists. split; [exact Einit |].
  cbn [BinomialTree.u BinomialTree.d BinomialTree.stock_tree].
  split; [reflexivity |]. split; [exact Hud |]. split; [exact Hclosed |].
  intros i j Hj Hi. rewrite !Hclosed by lia. f_equal.
  replace (Z.to_nat (i + 2 - (j + 1))) with (Datatypes.S (Z.to_nat (i - j))) by lia.
  replace (Z.to_nat (j + 1)) with (Datatypes.S (Z.to_nat j)) by lia.
  cbn [pow].
  set (u := exp (sigma * sqrt (T / IZR n))) in *.
  set (d := 1.0 / u) in *.
  transitivity (S0 * u ^ Z.to_nat (i - j) * d ^ Z.to_nat j * (u * d)); [ring |].
  rewrite Hud. ring.
Qed.

Lemma binomial_stock_tree_witness :
  exists tree,
    BinomialTree.__init__ 1 100 0.05 0.2 0 100 2 "call" = Ok tree
    /\ tree.(BinomialTree.u) = exp (0.2 * sqrt (1 / IZR 2))
    /\ tree.(BinomialTree.u) * tree.(BinomialTree.d) = 1
    /\ (forall i j, (0 <= j <= i)%Z -> (i <= 2)%Z ->
          np.getitem tree.(BinomialTree.stock_tree) j i
          = Ok (100 * tree.(BinomialTree.u) ^ Z.to_nat (i - j)
                * tree.(BinomialTree.d) ^ Z.to_nat j))
    /\ (forall i j, (0 <= j <= i)%Z -> (i + 2 <= 2)%Z ->
          np.getitem tree.(BinomialTree.stock_tree) (j + 1) (i + 2)
          = np.getitem tree.(BinomialTree.stock_tree) j i).
Proof. apply (binomial_stock_tree 1 100 0.05 0.2 0 100 2 "call"); [lia | lra | lra]. Defined.

(** X16. [price] of a constructed binomial lattice never raises and returns
    the value of the root by backward induction: the terminal payoff at
    maturity, then at every node the discounted expectation of its two
    successors, floored by the intrinsic value when [exercise_style] is
    'american' (the string is compared as given; any other value prices the
    European contract).  The sweep that overwrites the array in place is
    faithful to the recursion. *)
Theorem binomial_price_backward_induction T S0 r sigma c K n option_type :
  (1 <= n)%Z -> 0 < T -> sigma <> 0 ->
  exists tree,
    BinomialTree.__init__ T S0 r sigma c K n option_type = Ok tree
    /\ forall exercise_style,
         BinomialTree.price tree exercise_style
         = Ok (BinomialTree.backward_induction tree
                 (bool_decide (exercise_style = "american")) (Z.to_nat n) 0).
Proof.
  intros Hn HT Hsigma.
  destruct (binomial_stored T S0 r sigma c K n option_type Hn HT Hsigma)
    as (stock & Einit & Hshape & Hclosed).
  set (tree := BinomialTree.mk _ _ _ _ _ _ _ _ _ _ _ _ _ _) in Einit.
  exists tree. split; [exact Einit |].
  intros exercise_style.
  apply (binomial_price_value tree exercise_style).
  - cbn. lia.
  - exact Hshape.
  - apply Rgt_not_eq, exp_pos.
Qed.

Lemma binomial_price_backward_induction_witness :
  exists tree,
    BinomialTree.__init__ 1 100 0.05 0.2 0 100 2 "put" = Ok tree
    /\ forall exercise_style,
         BinomialTree.price tree exercise_style
         = Ok (BinomialTree.backward_induction tree
                 (bool_decide (exercise_style = "american")) (Z.to_nat 2) 0).
Proof.
  apply (binomial_price_backward_induction 1 100 0.05 0.2 0 100 2 "put");
    [lia | lra | lra].
Defined.

(** X17. Bounds on the prices of a constructed binomial lattice.  The
    American price is at least the intrinsic value of the root, hence never
    negative.  Every exercise style other than 'american' gives one and the
    same European price; when sigma > 0 and the drift of a step is within
    its volatility, [|r - c| sqrt(T/n) <= sigma], the risk-neutral
    probability lies in [[0, 1]] and the European price is non-negative and
    at most the American price. *)
Theorem binomial_price_bounds T S0 r sigma c K n option_type :
  (1 <= n)%Z -> 0 < T -> sigma <> 0 ->
  exists tree american european,
    BinomialTree.__init__ T S0 r sigma c K n option_type = Ok tree
    /\ BinomialTree.price tree "american" = Ok american
    /\ (forall exercise_style, exercise_style <> "american" ->
          BinomialTree.price tree exercise_style = Ok european)
    /\ BinomialTree._intrinsic tree S0 <= american
    /\ 0 <= american
    /\ (0 < sigma -> Rabs (r - c) * sqrt (T / IZR n) <= sigma ->
        0 <= tree.(BinomialTree.q) <= 1 /\ 0 <= european <= american).
Proof.
  intros Hn HT Hsigma.
  destruct (binomial_stored T S0 r sigma c K n option_type Hn HT Hsigma)
    as (stock & Einit & Hshape & Hclosed).
  set (tree := BinomialTree.mk _ _ _ _ _ _ _ _ _ _ _ _ _ _) in Einit.
  assert (Hprice : forall exercise_style,
    BinomialTree.price tree exercise_style
    = Ok (BinomialTree.backward_induction tree
            (bool_decide (exercise_style = "american")) (Z.to_nat n) 0)).
  { intros exercise_style. apply (binomial_price_value tree exercise_style).
    - cbn. lia.
    - exact Hshape.
    - apply Rgt_not_eq, exp_pos. }
  assert (HR : 0 < tree.(BinomialTree.R)) by apply exp_pos.
  assert (Hroot : BinomialTree.node tree 0 (BinomialTree.n tree - Z.of_nat (Z.to_nat n))
                  = S0).
  { replace (BinomialTree.n tree - Z.of_nat (Z.to_nat n))%Z with 0%Z by (cbn; lia).
    pose proof (binomial_getitem_node tree ltac:(cbn; lia) Hshape 0 0
                  ltac:(cbn; lia) ltac:(cbn; lia)) as Hnode.
    cbn [BinomialTree.stock_tree tree] in Hnode.
    rewrite (Hclosed 0%Z 0%Z) in Hnode by lia.
    injection Hnode as <-. cbn [Z.to_nat Z.sub Z.add Z.opp pow]. ring. }
  exists tree, (BinomialTree.backward_induction tree true (Z.to_nat n) 0),
    (BinomialTree.backward_induction tree false (Z.to_nat n) 0).
  split; [exact Einit |].
  split; [rewrite Hprice; reflexivity |].
  split.
  { intros style Hstyle. rewrite Hprice.
    now rewrite bool_decide_eq_false_2. }
  pose proof (binomial_american_ge_intrinsic tree (Z.to_nat n) 0) as Hex.
  rewrite Hroot in Hex.
  split; [exact Hex |].
  split; [eapply Rle_trans; [apply binomial_intrinsic_nonneg | exact Hex] |].
  intros Hpos Hdrift.
  assert (Hq : 0 <= tree.(BinomialTree.q) <= 1).
  { apply binomial_q_prob; [| exact Hpos | exact Hdrift].
    now apply binomial_dt_pos. }
  split; [exact Hq |]. split.
  - now apply binomial_value_nonneg.
  - now apply binomial_american_ge_european.
Qed.

Lemma binomial_price_bounds_witness :
  exists tree american european,
    BinomialTree.__init__ 1 100 0.05 0.2 0 100 2 "put" = Ok tree
    /\ BinomialTree.price tree "american" = Ok american
    /\ BinomialTree.price tree "european" = Ok european
    /\ BinomialTree._intrinsic tree 100 <= american
    /\ 0 <= tree.(BinomialTree.q) <= 1
    /\ 0 <= european <= american.
Proof.
  destruct (binomial_price_bounds 1 100 0.05 0.2 0 100 2 "put")
    as (tree & american & european & Hinit & Ham & Heu & Hex & _ & Hbounds);
    [lia | lra | lra |].
  exists tree, american, european.
  split; [exact Hinit |]. split; [exact Ham |].
  split; [apply Heu; discriminate |]. split; [exact Hex |].
  apply Hbounds; [lra |].
  pose proof (sqrt_le_1_alt (1 / IZR 2) 1 ltac:(lra)) as Hsqrt.
  rewrite sqrt_1 in Hsqrt.
  pose proof (sqrt_pos (1 / IZR 2)) as Hpos.
  rewrite Rabs_pos_eq by lra. nra.
Defined.

(** ** The trinomial lattice: [price] *)

Lemma trinomial_intrinsic_nonneg self S : 0 <= TrinomialTree._intrinsic self S.
Proof. unfold TrinomialTree._intrinsic. case_decide; apply py_max_ge_r. Qed.

Section trinomial_price.
Variable self : TrinomialTree.t.
Variable exercise_style : string.

Let n := self.(TrinomialTree.n).
Let lnS0 := ln self.(TrinomialTree.S0).
Let american := bool_decide (exercise_style = "american").
Let V (k : nat) (i : Z) : float :=
  TrinomialTree.backward_induction self lnS0 american k i.

Hypothesis n_nonneg : (0 <= n)%Z.
Hypothesis S0_pos : 0 < self.(TrinomialTree.S0).
Hypothesis R_nonzero : self.(TrinomialTree.R) <> 0.

Lemma trinomial_value_maturity (i : Z) :
  V 0 i
  = TrinomialTree._intrinsic self
      (math.exp (lnS0 + IZR (i - n) * self.(TrinomialTree.dr))).
Proof.
  unfold V. cbn [TrinomialTree.backward_induction]. cbv zeta. fold n.
  do 5 f_equal. cbn. lia.
Qed.

Lemma trinomial_value_step (step i : Z) :
  (0 <= step < n)%Z ->
  V (Z.to_nat (n - step)) i
  = let cont :=
      (self.(TrinomialTree.p_u) * V (Z.to_nat (n - step - 1)) (i + 2)
       + self.(TrinomialTree.p_m) * V (Z.to_nat (n - step - 1)) (i + 1)
       + self.(TrinomialTree.p_d) * V (Z.to_nat (n - step - 1)) i)
      / self.(TrinomialTree.R) in
    if american then
      py_max cont
        (TrinomialTree._intrinsic self
           (math.exp (lnS0 + IZR (i - step) * self.(TrinomialTree.dr))))
    else cont.
Proof.
  intros Hstep. unfold V.
  replace (Z.to_nat (n - step)) with (Datatypes.S (Z.to_nat (n - step - 1))) by lia.
  cbn [TrinomialTree.backward_induction]. cbv zeta. fold n.
  replace (n - Z.of_nat (Datatypes.S (Z.to_nat (n - step - 1))))%Z with step by lia.
  reflexivity.
Qed.

(** The array before the step [step] is processed holds the values of the
    step [step + 1]. *)
Let layer_done (step : Z) (option : list float) : Prop :=
  length option = Z.to_nat (2 * (step + 1) + 1)
  /\ forall i, (0 <= i <= 2 * (step + 1))%Z ->
       option !! Z.to_nat i = Some (V (Z.to_nat (n - (step + 1))) i).

Let layer_upto (step i : Z) (new_option : list float) : Prop :=
  length new_option = Z.to_nat (2 * step + 1)
  /\ forall i', (0 <= i' < i)%Z ->
       new_option !! Z.to_nat i' = Some (V (Z.to_nat (n - step)) i').

Lemma trinomial_price_layer (step : Z) (option : list float) :
  (-1 < step <= n - 1)%Z -> layer_done step option ->
  exists option',
    (let m_curr := (2 * step + 1)%Z in
     new_option ← np.zeros1 m_curr;
     for_each (range 0 m_curr) (fun i new_option =>
       let j := (i - step)%Z in
       let S := math.exp (lnS0 + IZR j * self.(TrinomialTree.dr)) in
       let idx_base := (step + 1)%Z in
       let idx_up := ((j + 1) + idx_base)%Z in
       let idx_mid := (j + idx_base)%Z in
       let idx_down := ((j - 1) + idx_base)%Z in
       up ← np.getitem1 option idx_up;
       mid ← np.getitem1 option idx_mid;
       down ← np.getitem1 option idx_down;
       cont ← truediv (self.(TrinomialTree.p_u) * up
                       + self.(TrinomialTree.p_m) * mid
                       + self.(TrinomialTree.p_d) * down) self.(TrinomialTree.R);
       if decide (exercise_style = "american") then
         let ex := TrinomialTree._intrinsic self S in
         np.setitem1 new_option i (py_max cont ex)
       else
         np.setitem1 new_option i cont) new_option) = Ok option'
    /\ layer_done (step - 1) option'.
Proof.
  intros Hstep [Hlen Hdone]. cbv zeta.
  rewrite zeros1_Ok, bind_Ok by lia.
  assert (Hstart : layer_upto step 0 (replicate (Z.to_nat (2 * step + 1)) 0)).
  { split; [apply length_replicate | intros i' Hi'; lia]. }
  match goal with
  | |- context [for_each _ ?body (replicate _ _)] =>
      destruct (for_range_invariant (layer_upto step) body 0 (2 * step + 1) _
                  ltac:(lia) Hstart) as (option' & E & Hlen' & Hnew)
  end.
  - intros i new Hi (Hlennew & Hbelow).
    assert (Hup : option !! Z.to_nat (i - step + 1 + (step + 1))
                  = Some (V (Z.to_nat (n - step - 1)) (i + 2))).
    { replace (i - step + 1 + (step + 1))%Z with (i + 2)%Z by lia.
      rewrite Hdone by lia. do 3 f_equal. lia. }
    assert (Hmid : option !! Z.to_nat (i - step + (step + 1))
                   = Some (V (Z.to_nat (n - step - 1)) (i + 1))).
    { replace (i - step + (step + 1))%Z with (i + 1)%Z by lia.
      rewrite Hdone by lia. do 3 f_equal. lia. }
    assert (Hdown : option !! Z.to_nat (i - step - 1 + (step + 1))
                    = Some (V (Z.to_nat (n - step - 1)) i)).
    { replace (i - step - 1 + (step + 1))%Z with i by lia.
      rewrite Hdone by lia. do 3 f_equal. lia. }
    rewrite (getitem1_Ok option (i - step + 1 + (step + 1)) _ ltac:(lia) Hup), bind_Ok.
    rewrite (getitem1_Ok option (i - step + (step + 1)) _ ltac:(lia) Hmid), bind_Ok.
    rewrite (getitem1_Ok option (i - step - 1 + (step + 1)) _ ltac:(lia) Hdown), bind_Ok.
    rewrite truediv_Ok, bind_Ok by exact R_nonzero.
    assert (Hset : forall v,
      v = V (Z.to_nat (n - step)) i ->
      exists new', np.setitem1 new i v = Ok new' /\ layer_upto step (i + 1) new').
    { intros v ->. rewrite setitem1_Ok by lia.
      eexists. split; [reflexivity |].
      split; [now rewrite length_insert |].
      intros i' Hi'. destruct (decide (i' = i)) as [-> | Hne].
      - rewrite list_lookup_insert_eq by lia. reflexivity.
      - rewrite list_lookup_insert_ne by lia. apply Hbelow. lia. }
    rewrite (trinomial_value_step step i) in Hset by lia. cbv zeta in Hset.
    unfold american in Hset.
    case_decide as Hstyle.
    + rewrite bool_decide_eq_true_2 in Hset by exact Hstyle.
      apply Hset. reflexivity.
    + rewrite bool_decide_eq_false_2 in Hset by exact Hstyle.
      apply Hset. reflexivity.
  - exists option'. split; [exact E |]. split.
    + rewrite Hlen'. f_equal. lia.
    + intros i Hi. rewrite Hnew by lia. do 3 f_equal. lia.
Qed.

(** [price] is the backward induction over the lattice. *)
Lemma trinomial_price_value :
  TrinomialTree.price self exercise_style = Ok (V (Z.to_nat n) 0).
Proof.
  unfold TrinomialTree.price. cbv zeta. fold n.
  rewrite log_Ok, bind_Ok by exact S0_pos. fold lnS0.
  set (option := _ <$> (_ <$> range 0 (2 * n + 1))).
  assert (Hstart : layer_done (n - 1) option).
  { split.
    - unfold option. rewrite !length_fmap, length_range. f_equal. lia.
    - intros i Hi. unfold option. rewrite !list_lookup_fmap.
      rewrite (lookup_range 0 (2 * n + 1) (Z.to_nat i)) by lia.
      cbn [fmap option_fmap option_map].
      replace (Z.to_nat (n - (n - 1 + 1))) with 0%nat by lia.
      rewrite trinomial_value_maturity. do 6 f_equal. lia. }
  match goal with
  | |- context [for_each _ ?body option] =>
      destruct (for_range_down_invariant layer_done body (n - 1) (-1) option
                  ltac:(lia) Hstart) as (option' & E & Hlen & Hroot)
  end.
  { intros step o Hstep Ho. apply trinomial_price_layer; [lia | exact Ho]. }
  rewrite E, bind_Ok.
  apply getitem1_Ok; [lia |].
  rewrite (Hroot 0%Z) by lia. do 2 f_equal. lia.
Qed.

End trinomial_price.

Section trinomial_values.
Variable self : TrinomialTree.t.
Variable lnS0 : float.
Hypothesis R_pos : 0 < self.(TrinomialTree.R).

(** Early exercise: the American value of a node is at least its intrinsic
    value. *)
Lemma trinomial_american_ge_intrinsic k i :
  TrinomialTree._intrinsic self
    (math.exp (lnS0 + IZR (i - (self.(TrinomialTree.n) - Z.of_nat k))
                      * self.(TrinomialTree.dr)))
  <= TrinomialTree.backward_induction self lnS0 true k i.
Proof.
  destruct k as [| k]; cbn [TrinomialTree.backward_induction]; cbv zeta.
  - lra.
  - apply py_max_ge_r.
Qed.

Hypothesis p_u_nonneg : 0 <= self.(TrinomialTree.p_u).
Hypothesis p_m_nonneg : 0 <= self.(TrinomialTree.p_m).
Hypothesis p_d_nonneg : 0 <= self.(TrinomialTree.p_d).

Lemma trinomial_continuation_mono a b c a' b' c' :
  a <= a' -> b <= b' -> c <= c' ->
  (self.(TrinomialTree.p_u) * a + self.(TrinomialTree.p_m) * b
   + self.(TrinomialTree.p_d) * c) / self.(TrinomialTree.R)
  <= (self.(TrinomialTree.p_u) * a' + self.(TrinomialTree.p_m) * b'
      + self.(TrinomialTree.p_d) * c') / self.(TrinomialTree.R).
Proof.
  intros Ha Hb Hc. apply Rmult_le_compat_r; [left; now apply Rinv_0_lt_compat |].
  repeat apply Rplus_le_compat; now apply Rmult_le_compat_l.
Qed.

Lemma trinomial_value_nonneg american k : forall i,
  0 <= TrinomialTree.backward_induction self lnS0 american k i.
Proof.
  induction k as [| k IH]; intros i; cbn [TrinomialTree.backward_induction]; cbv zeta.
  - apply trinomial_intrinsic_nonneg.
  - match goal with
    | |- 0 <= (if american then py_max ?cont _ else _) =>
        assert (Hcont : 0 <= cont)
    end.
    { apply Rmult_le_pos; [| left; now apply Rinv_0_lt_compat].
      repeat apply Rplus_le_le_0_compat; apply Rmult_le_pos;
        try apply IH; assumption. }
    destruct american; [| exact Hcont].
    eapply Rle_trans; [exact Hcont | apply py_max_ge_l].
Qed.

Lemma trinomial_american_ge_european k : forall i,
  TrinomialTree.backward_induction self lnS0 false k i
  <= TrinomialTree.backward_induction self lnS0 true k i.
Proof.
  induction k as [| k IH]; intros i; cbn [TrinomialTree.backward_induction]; cbv zeta.
  - lra.
  - eapply Rle_trans; [| apply py_max_ge_l].
    apply trinomial_continuation_mono; apply IH.
Qed.

End trinomial_values.

(** What the trinomial constructor stores. *)
Lemma trinomial_stored_values T S0 r sigma c K n option_type :
  (1 <= n)%Z -> 0 <= T -> sigma <> 0 ->
  let dt := T / IZR n in
  let x := (r - c - 0.5 * sigma ^ 2) * sqrt dt / (2 * sigma * sqrt 3) in
  TrinomialTree.__init__ T S0 r sigma c K n option_type
  = Ok (TrinomialTree.mk T S0 r sigma c K n (lower option_type) dt
          (sigma * sqrt (3 * dt)) (py_max (1 / 6 + x) 0) (py_max (1 / 6 - x) 0)
          (1 - py_max (1 / 6 + x) 0 - py_max (1 / 6 - x) 0) (exp (r * dt))).
Proof.
  intros Hn HT Hsigma dt x.
  assert (Hn' : 1 <= IZR n) by now apply IZR_le.
  assert (Hdt : 0 <= dt).
  { apply Rmult_le_pos; [exact HT |]. left. apply Rinv_0_lt_compat. lra. }
  assert (H3 : 0 < sqrt 3) by (apply sqrt_lt_R0; lra).
  assert (Hden : 2 * sigma * sqrt 3 <> 0) by nra.
  unfold TrinomialTree.__init__. cbv zeta.
  step ltac:(apply truediv_Ok; lra). fold dt.
  step ltac:(apply sqrt_Ok; lra).
  step ltac:(apply sqrt_Ok; lra).
  step ltac:(apply sqrt_Ok; lra).
  step ltac:(apply truediv_Ok; exact Hden).
  step ltac:(apply sqrt_Ok; lra).
  step ltac:(apply sqrt_Ok; lra).
  step ltac:(apply truediv_Ok; exact Hden).
  reflexivity.
Qed.

(** The middle probability is not negative when the drift of a step is
    moderate. *)
Lemma trinomial_p_m_nonneg (mu sigma dt : float) :
  0 < sigma -> Rabs mu * sqrt dt <= 5 / 3 * sigma * sqrt 3 ->
  let x := mu * sqrt dt / (2 * sigma * sqrt 3) in
  0 <= 1 - py_max (1 / 6 + x) 0 - py_max (1 / 6 - x) 0.
Proof.
  intros Hsigma Hdrift x.
  assert (H3 : 0 < sqrt 3) by (apply sqrt_lt_R0; lra).
  assert (HD : 0 < 2 * sigma * sqrt 3) by nra.
  assert (Hs : 0 <= sqrt dt) by apply sqrt_pos.
  assert (Habs : - (5 / 3 * sigma * sqrt 3) <= mu * sqrt dt <= 5 / 3 * sigma * sqrt 3).
  { revert Hdrift. unfold Rabs. destruct (Rcase_abs mu); nra. }
  assert (Hx : x * (2 * sigma * sqrt 3) = mu * sqrt dt).
  { unfold x. field. lra. }
  assert (Hbound : - (5 / 6) <= x <= 5 / 6).
  { split; apply Rmult_le_reg_r with (2 * sigma * sqrt 3); try exact HD;
      rewrite Hx; lra. }
  unfold py_max. repeat case_decide; lra.
Qed.

(** X18. [price] of a constructed trinomial lattice (n >= 1, T >= 0,
    sigma <> 0).  For S0 > 0 it never raises and returns the value of the
    root by backward induction: the terminal payoff on the 2n + 1 nodes
    [S0 exp((i - n) dr)], then at every node the discounted expectation of
    its three successors, floored by the intrinsic value when
    [exercise_style] is 'american' (any other string prices the European
    contract).  For S0 <= 0, which the constructor accepts, [price] raises
    the [ValueError] of [math.log]. *)
Theorem trinomial_price_backward_induction T S0 r sigma c K n option_type :
  (1 <= n)%Z -> 0 <= T -> sigma <> 0 ->
  exists tree,
    TrinomialTree.__init__ T S0 r sigma c K n option_type = Ok tree
    /\ (0 < S0 -> forall exercise_style,
          TrinomialTree.price tree exercise_style
          = Ok (TrinomialTree.backward_induction tree (ln S0)
                  (bool_decide (exercise_style = "american")) (Z.to_nat n) 0))
    /\ (S0 <= 0 -> forall exercise_style,
          TrinomialTree.price tree exercise_style
          = Raise (ValueError "math domain error")).
Proof.
  intros Hn HT Hsigma.
  pose proof (trinomial_stored_values T S0 r sigma c K n option_type Hn HT Hsigma)
    as Einit. cbv zeta in Einit.
  set (tree := TrinomialTree.mk _ _ _ _ _ _ _ _ _ _ _ _ _ _) in Einit.
  exists tree. split; [exact Einit |]. split.
  - intros HS0 exercise_style.
    apply (trinomial_price_value tree exercise_style).
    + cbn. lia.
    + exact HS0.
    + apply Rgt_not_eq, exp_pos.
  - intros HS0 exercise_style. unfold TrinomialTree.price. cbv zeta.
    unfold math.log. cbn [TrinomialTree.S0 tree].
    rewrite decide_True by exact HS0. reflexivity.
Qed.

Lemma trinomial_price_backward_induction_witness :
  exists tree,
    TrinomialTree.__init__ 1 100 0.05 0.2 0 100 2 "put" = Ok tree
    /\ forall exercise_style,
         TrinomialTree.price tree exercise_style
         = Ok (TrinomialTree.backward_induction tree (ln 100)
                 (bool_decide (exercise_style = "american")) (Z.to_nat 2) 0).
Proof.
  destruct (trinomial_price_backward_induction 1 100 0.05 0.2 0 100 2 "put")
    as (tree & Hinit & Hprice & _); [lia | lra | lra |].
  exists tree. split; [exact Hinit |]. apply Hprice. lra.
Defined.

(** X19. Bounds on the prices of a constructed trinomial lattice with
    S0 > 0.  The American price is at least the intrinsic value of the root,
    hence never negative.  Every exercise style other than 'american' gives
    one and the same European price; when sigma > 0 and
    [|r - c - sigma^2/2| sqrt(T/n) <= (5/3) sigma sqrt(3)] the middle
    probability is not negative, and the European price is non-negative and
    at most the American price. *)
Theorem trinomial_price_bounds T S0 r sigma c K n option_type :
  (1 <= n)%Z -> 0 <= T -> sigma <> 0 -> 0 < S0 ->
  exists tree american european,
    TrinomialTree.__init__ T S0 r sigma c K n option_type = Ok tree
    /\ TrinomialTree.price tree "american" = Ok american
    /\ (forall exercise_style, exercise_style <> "american" ->
          TrinomialTree.price tree exercise_style = Ok european)
    /\ TrinomialTree._intrinsic tree S0 <= american
    /\ 0 <= american
    /\ (0 < sigma ->
        Rabs (r - c - 0.5 * sigma ^ 2) * sqrt (T / IZR n) <= 5 / 3 * sigma * sqrt 3 ->
        0 <= tree.(TrinomialTree.p_m) /\ 0 <= european <= american).
Proof.
  intros Hn HT Hsigma HS0.
  pose proof (trinomial_stored_values T S0 r sigma c K n option_type Hn HT Hsigma)
    as Einit. cbv zeta in Einit.
  set (tree := TrinomialTree.mk _ _ _ _ _ _ _ _ _ _ _ _ _ _) in Einit.
  assert (Hprice : forall exercise_style,
    TrinomialTree.price tree exercise_style
    = Ok (TrinomialTree.backward_induction tree (ln S0)
            (bool_decide (exercise_style = "american")) (Z.to_nat n) 0)).
  { intros exercise_style. apply (trinomial_price_value tree exercise_style).
    - cbn. lia.
    - exact HS0.
    - apply Rgt_not_eq, exp_pos. }
  assert (HR : 0 < tree.(TrinomialTree.R)) by apply exp_pos.
  exists tree, (TrinomialTree.backward_induction tree (ln S0) true (Z.to_nat n) 0),
    (TrinomialTree.backward_induction tree (ln S0) false (Z.to_nat n) 0).
  split; [exact Einit |].
  split; [rewrite Hprice; reflexivity |].
  split.
  { intros style Hstyle. rewrite Hprice. now rewrite bool_decide_eq_false_2. }
  pose proof (trinomial_american_ge_intrinsic tree (ln S0) (Z.to_nat n) 0) as Hex.
  replace (0 - (TrinomialTree.n tree - Z.of_nat (Z.to_nat n)))%Z with 0%Z in Hex
    by (cbn; lia).
  unfold math.exp in Hex.
  rewrite Rmult_0_l, Rplus_0_r, exp_ln in Hex by exact HS0.
  split; [exact Hex |].
  split; [eapply Rle_trans; [apply trinomial_intrinsic_nonneg | exact Hex] |].
  intros Hpos Hdrift.
  assert (Hpm : 0 <= tree.(TrinomialTree.p_m)).
  { cbn [TrinomialTree.p_m tree]. now apply trinomial_p_m_nonneg. }
  split; [exact Hpm |].
  assert (Hpu : 0 <= tree.(TrinomialTree.p_u)) by apply py_max_ge_r.
  assert (Hpd : 0 <= tree.(TrinomialTree.p_d)) by apply py_max_ge_r.
  split.
  - now apply trinomial_value_nonneg.
  - now apply trinomial_american_ge_european.
Qed.

Lemma trinomial_price_bounds_witness :
  exists tree american european,
    TrinomialTree.__init__ 1 100 0.05 0.2 0 100 2 "put" = Ok tree
    /\ TrinomialTree.price tree "american" = Ok american
    /\ TrinomialTree.price tree "european" = Ok european
    /\ TrinomialTree._intrinsic tree 100 <= american
    /\ 0 <= tree.(TrinomialTree.p_m)
    /\ 0 <= european <= american.
Proof.
  destruct (trinomial_price_bounds 1 100 0.05 0.2 0 100 2 "put")
    as (tree & american & european & Hinit & Ham & Heu & Hex & _ & Hbounds);
    [lia | lra | lra | lra |].
  exists tree, american, european.
  split; [exact Hinit |]. split; [exact Ham |].
  split; [apply Heu; discriminate |]. split; [exact Hex |].
  apply Hbounds; [lra |].
  pose proof (sqrt_le_1_alt (1 / IZR 2) 1 ltac:(lra)) as Hsqrt.
  rewrite sqrt_1 in Hsqrt.
  pose proof (sqrt_pos (1 / IZR 2)) as Hpos.
  pose proof (sqrt_le_1_alt 1 3 ltac:(lra)) as Hsqrt3.
  rewrite sqrt_1 in Hsqrt3.
  rewrite Rabs_pos_eq by lra. nra.
Defined.

(** ** The endpoint [price_option] *)

Lemma filter_keeps_others (m : gmap string float) (k : string) :
  k <> "Price" ->
  filter (fun kv : string * float => kv.1 <> "Price") m !! k = m !! k.
Proof.
  intros Hk. destruct (m !! k) as [v |] eqn:E.
  - apply map_lookup_filter_Some. split; [exact E | exact Hk].
  - apply map_lookup_filter_None. left. exact E.
Qed.

(** X20. The endpoint [price_option] on validated fields (S, K >= 0.01,
    T, sigma >= 1e-6, kind 'call' or 'put').  With the model 'bsm' it never
    answers an error: the price of the response is the analytic price rounded
    to six decimals, within 5e-7 of it, and every Greek of the response is
    the rounded entry of [all_greeks] under the same key.  With the model
    'baw', a call and a yield c >= r the response carries the same price and
    an empty Greeks mapping. *)
Theorem price_option_validated S K T r sigma c option_type :
  0.01 <= S -> 0.01 <= K -> 1e-6 <= T -> 1e-6 <= sigma ->
  option_type = "call" \/ option_type = "put" ->
  exists p g greeks,
    BSMAnalytical.__init__ S K T r sigma c option_type ≫= BSMAnalytical.price = Ok p
    /\ BSMAnalytical.__init__ S K T r sigma c option_type ≫= BSMAnalytical.all_greeks
       = Ok g
    /\ app.price_option S K T r sigma c option_type "bsm"
       = app.json_ok (app.round p 6) greeks
    /\ Rabs (app.round p 6 - p) <= 5e-7
    /\ (forall k, k <> "Price" ->
          greeks !! k = (fun v => app.round v 6) <$> g !! k)
    /\ (option_type = "call" -> c >= r ->
        app.price_option S K T r sigma c option_type "baw"
        = app.json_ok (app.round p 6) ∅).
Proof.
  intros HS HK HT Hsigma Hkind.
  assert (HS' : 0 < S) by lra. assert (HK' : 0 < K) by lra.
  assert (HT' : 0 < T) by lra. assert (Hsigma' : 0 < sigma) by lra.
  assert (Hlower : lower option_type = option_type)
    by (destruct Hkind as [-> | ->]; reflexivity).
  assert (Hin : ~ (option_type ∉ ["call"; "put"])).
  { intros Hn. apply Hn. rewrite !elem_of_cons. tauto. }
  destruct (all_greeks_has_Price S K T r sigma c option_type HS' HK' HT' Hsigma' Hkind)
    as (p & g & Hp & Hg & _).
  exists p, g. eexists.
  rewrite init_Ok by (rewrite ?Hlower; auto). rewrite !bind_Ok, Hlower.
  split; [exact Hp |]. split; [exact Hg |]. split; [| split; [| split]].
  - unfold app.price_option.
    rewrite (decide_False (P := option_type ∉ ["call"; "put"])) by exact Hin.
    rewrite (decide_False (P := "bsm" ∉ ["bsm"; "baw"]))
      by (intros Hn; apply Hn; rewrite !elem_of_cons; tauto).
    rewrite (decide_True (P := "bsm" = "bsm")) by reflexivity.
    rewrite init_Ok by (rewrite ?Hlower; auto). rewrite bind_Ok, Hlower.
    rewrite Hp, Hg. cbn [mbind result_bind]. reflexivity.
  - pose proof (round_near p 6) as H.
    replace (/ (2 * 10 ^ 6)) with 5e-7 in H by lra. exact H.
  - intros k Hk. rewrite lookup_fmap, filter_keeps_others by exact Hk. reflexivity.
  - intros -> Hc. unfold app.price_option.
    rewrite (decide_False (P := "call" ∉ ["call"; "put"])) by exact Hin.
    rewrite (decide_False (P := "baw" ∉ ["bsm"; "baw"]))
      by (intros Hn; apply Hn; rewrite !elem_of_cons; tauto).
    rewrite (decide_False (P := "baw" = "bsm")) by discriminate.
    rewrite (decide_True (P := "call" = "call")) by reflexivity.
    unfold baw_american_call. rewrite decide_True by exact Hc.
    rewrite init_Ok by auto. rewrite bind_Ok, Hlower, Hp.
    cbn [mbind result_bind]. now rewrite fmap_empty.
Qed.

Lemma price_option_validated_witness :
  exists p g greeks,
    BSMAnalytical.__init__ 100 100 1 0.01 0.2 0.02 "call" ≫= BSMAnalytical.price = Ok p
    /\ BSMAnalytical.__init__ 100 100 1 0.01 0.2 0.02 "call" ≫= BSMAnalytical.all_greeks
       = Ok g
    /\ app.price_option 100 100 1 0.01 0.2 0.02 "call" "bsm"
       = app.json_ok (app.round p 6) greeks
    /\ Rabs (app.round p 6 - p) <= 5e-7
    /\ (forall k, k <> "Price" ->
          greeks !! k = (fun v => app.round v 6) <$> g !! k)
    /\ app.price_option 100 100 1 0.01 0.2 0.02 "call" "baw"
       = app.json_ok (app.round p 6) ∅.
Proof.
  destruct (price_option_validated 100 100 1 0.01 0.2 0.02 "call")
    as (p & g & greeks & Hp & Hg & Hbsm & Hnear & Hgreeks & Hbaw);
    [lra | lra | lra | lra | left; reflexivity |].
  exists p, g, greeks.
  repeat (split; [assumption |]).
  apply Hbaw; [reflexivity | lra].
Defined.

(** ** The analytic pricer under a change of unit *)

Lemma d1_scale lam S K T r sigma c :
  0 < lam -> 0 < K ->
  spec.d1 (lam * S) (lam * K) T r sigma c = spec.d1 S K T r sigma c.
Proof.
  intros Hlam HK. unfold spec.d1.
  replace (lam * S / (lam * K)) with (S / K) by (field; lra). reflexivity.
Qed.

Lemma d2_scale lam S K T r sigma c :
  0 < lam -> 0 < K ->
  spec.d2 (lam * S) (lam * K) T r sigma c = spec.d2 S K T r sigma c.
Proof. intros Hlam HK. unfold spec.d2. now rewrite d1_scale. Qed.

(** X21. The analytic pricer does not depend on the unit of account: for
    lam > 0 (and S, K, T, sigma > 0), multiplying the spot and the strike by
    lam multiplies the price by lam, leaves delta unchanged and divides
    gamma by lam, for the call and for the put. *)
Theorem bsm_scale_invariance lam S K T r sigma c option_type :
  0 < lam -> 0 < S -> 0 < K -> 0 < T -> 0 < sigma ->
  lower option_type = "call" \/ lower option_type = "put" ->
  let pricer := BSMAnalytical.__init__ S K T r sigma c option_type in
  let scaled := BSMAnalytical.__init__ (lam * S) (lam * K) T r sigma c option_type in
  exists price delta gamma,
    pricer ≫= BSMAnalytical.price = Ok price
    /\ scaled ≫= BSMAnalytical.price = Ok (lam * price)
    /\ pricer ≫= BSMAnalytical.delta = Ok delta
    /\ scaled ≫= BSMAnalytical.delta = Ok delta
    /\ pricer ≫= BSMAnalytical.gamma = Ok gamma
    /\ scaled ≫= BSMAnalytical.gamma = Ok (gamma / lam).
Proof.
  intros Hlam HS HK HT Hsigma Hkind pricer scaled. subst pricer scaled.
  assert (HS' : 0 < lam * S) by now apply Rmult_lt_0_compat.
  assert (HK' : 0 < lam * K) by now apply Rmult_lt_0_compat.
  pose proof (sqrt_T_pos T HT) as HsqT.
  rewrite !init_Ok by auto. rewrite !bind_Ok.
  assert (Hgamma : forall kind,
    BSMAnalytical.gamma (BSMAnalytical.mk (lam * S) (lam * K) T r sigma c kind)
    = Ok (exp (- c * T) * norm.pdf (spec.d1 S K T r sigma c)
          / (S * sigma * sqrt T) / lam)).
  { intros kind. rewrite gamma_Ok by assumption. rewrite d1_scale by assumption.
    f_equal. field. repeat split; lra. }
  destruct Hkind as [-> | ->].
  - eexists _, _, _.
    rewrite !price_call_Ok, !delta_call_Ok, gamma_Ok, Hgamma by assumption.
    rewrite d1_scale by assumption.
    split; [reflexivity |]. split.
    { f_equal. unfold spec.call_price.
      rewrite d1_scale, d2_scale by assumption. ring. }
    repeat split; reflexivity.
  - eexists _, _, _.
    rewrite !price_put_Ok, !delta_put_Ok, gamma_Ok, Hgamma by assumption.
    rewrite d1_scale by assumption.
    split; [reflexivity |]. split.
    { f_equal. unfold spec.put_price.
      rewrite d1_scale, d2_scale by assumption. ring. }
    repeat split; reflexivity.
Qed.

Lemma bsm_scale_invariance_witness :
  exists price delta gamma,
    BSMAnalytical.__init__ 100 90 1 0.05 0.2 0.01 "put" ≫= BSMAnalytical.price
    = Ok price
    /\ BSMAnalytical.__init__ (2 * 100) (2 * 90) 1 0.05 0.2 0.01 "put"
         ≫= BSMAnalytical.price = Ok (2 * price)
    /\ BSMAnalytical.__init__ 100 90 1 0.05 0.2 0.01 "put" ≫= BSMAnalytical.delta
       = Ok delta
    /\ BSMAnalytical.__init__ (2 * 100) (2 * 90) 1 0.05 0.2 0.01 "put"
         ≫= BSMAnalytical.delta = Ok delta
    /\ BSMAnalytical.__init__ 100 90 1 0.05 0.2 0.01 "put" ≫= BSMAnalytical.gamma
       = Ok gamma
    /\ BSMAnalytical.__init__ (2 * 100) (2 * 90) 1 0.05 0.2 0.01 "put"
         ≫= BSMAnalytical.gamma = Ok (gamma / 2).
Proof.
  apply (bsm_scale_invariance 2 100 90 1 0.05 0.2 0.01 "put");
    [lra | lra | lra | lra | lra | right; reflexivity].
Defined.

(** ** The lattices and the kind of the contract *)

Lemma binomial_value_ext (self self' : BinomialTree.t) (american : bool) :
  self'.(BinomialTree.n) = self.(BinomialTree.n) ->
  self'.(BinomialTree.q) = self.(BinomialTree.q) ->
  self'.(BinomialTree.R) = self.(BinomialTree.R) ->
  (0 <= self.(BinomialTree.n))%Z ->
  (forall S, BinomialTree._intrinsic self' S = BinomialTree._intrinsic self S) ->
  (forall i j, (0 <= j <= i)%Z -> (i <= self.(BinomialTree.n))%Z ->
     BinomialTree.node self' j i = BinomialTree.node self j i) ->
  forall k j, (0 <= j <= self.(BinomialTree.n) - Z.of_nat k)%Z ->
    BinomialTree.backward_induction self' american k j
    = BinomialTree.backward_induction self american k j.
Proof.
  intros Hn Hq HR Hn0 Hintrinsic Hnode.
  induction k as [| k IH]; intros j Hj; cbn [BinomialTree.backward_induction];
    cbv zeta; rewrite Hn, Hintrinsic, Hnode by lia.
  - reflexivity.
  - rewrite Hq, HR, !IH by lia. reflexivity.
Qed.

Lemma trinomial_value_ext (self self' : TrinomialTree.t) (lnS0 : float)
    (american : bool) :
  self'.(TrinomialTree.n) = self.(TrinomialTree.n) ->
  self'.(TrinomialTree.dr) = self.(TrinomialTree.dr) ->
  self'.(TrinomialTree.p_u) = self.(TrinomialTree.p_u) ->
  self'.(TrinomialTree.p_m) = self.(TrinomialTree.p_m) ->
  self'.(TrinomialTree.p_d) = self.(TrinomialTree.p_d) ->
  self'.(TrinomialTree.R) = self.(TrinomialTree.R) ->
  (forall S, TrinomialTree._intrinsic self' S = TrinomialTree._intrinsic self S) ->
  forall k i,
    TrinomialTree.backward_induction self' lnS0 american k i
    = TrinomialTree.backward_induction self lnS0 american k i.
Proof.
  intros Hn Hdr Hu Hm Hd HR Hintrinsic.
  induction k as [| k IH]; intros i; cbn [TrinomialTree.backward_induction];
    cbv zeta; rewrite Hn, Hdr, Hintrinsic.
  - reflexivity.
  - rewrite Hu, Hm, Hd, HR, !IH. reflexivity.
Qed.

(** X22. The lattice constructors do not validate the kind of the contract,
    and [_intrinsic] tests it against 'call' only: for n >= 1, T > 0 and
    sigma <> 0 an [option_type] that is not 'call' after lower-casing, a
    string that names no kind included, is accepted by both constructors and
    priced exactly as a put, for every exercise style. *)
Theorem lattice_kind_unvalidated T S0 r sigma c K n option_type :
  (1 <= n)%Z -> 0 < T -> sigma <> 0 -> lower option_type <> "call" ->
  (exists tree put,
     BinomialTree.__init__ T S0 r sigma c K n option_type = Ok tree
     /\ BinomialTree.__init__ T S0 r sigma c K n "put" = Ok put
     /\ forall exercise_style,
          BinomialTree.price tree exercise_style
          = BinomialTree.price put exercise_style)
  /\
  (exists tree put,
     TrinomialTree.__init__ T S0 r sigma c K n option_type = Ok tree
     /\ TrinomialTree.__init__ T S0 r sigma c K n "put" = Ok put
     /\ forall exercise_style,
          TrinomialTree.price tree exercise_style
          = TrinomialTree.price put exercise_style).
Proof.
  intros Hn HT Hsigma Hkind. split.
  - destruct (binomial_stored T S0 r sigma c K n option_type Hn HT Hsigma)
      as (stock & Einit & Hshape & Hclosed).
    destruct (binomial_stored T S0 r sigma c K n "put" Hn HT Hsigma)
      as (stock' & Einit' & Hshape' & Hclosed').
    set (tree := BinomialTree.mk _ _ _ _ _ _ _ _ _ _ _ _ _ _) in Einit.
    set (put := BinomialTree.mk _ _ _ _ _ _ _ _ _ _ _ _ _ _) in Einit'.
    exists tree, put. split; [exact Einit |]. split; [exact Einit' |].
    intros exercise_style.
    assert (Hn0 : (0 <= BinomialTree.n tree)%Z) by (cbn; lia).
    assert (Hn0' : (0 <= BinomialTree.n put)%Z) by (cbn; lia).
    assert (HR : BinomialTree.R tree <> 0) by apply Rgt_not_eq, exp_pos.
    assert (HR' : BinomialTree.R put <> 0) by apply Rgt_not_eq, exp_pos.
    rewrite (binomial_price_value tree exercise_style Hn0 Hshape HR).
    rewrite (binomial_price_value put exercise_style Hn0' Hshape' HR').
    f_equal. symmetry.
    apply binomial_value_ext; try reflexivity; try (cbn; lia).
    + intros S. unfold BinomialTree._intrinsic. cbn [BinomialTree.option_type
        BinomialTree.K put tree].
      rewrite (decide_False (P := "put" = "call")) by discriminate.
      rewrite (decide_False (P := lower option_type = "call")) by exact Hkind.
      reflexivity.
    + intros i j Hj Hi. cbn [BinomialTree.n tree] in Hi.
      pose proof (binomial_getitem_node tree Hn0 Hshape j i
                    ltac:(cbn; lia) ltac:(cbn; lia)) as Hnode.
      pose proof (binomial_getitem_node put Hn0' Hshape' j i
                    ltac:(cbn; lia) ltac:(cbn; lia)) as Hnode'.
      cbn [BinomialTree.stock_tree tree put] in Hnode, Hnode'.
      rewrite Hclosed in Hnode by lia. rewrite Hclosed' in Hnode' by lia.
      injection Hnode as <-. injection Hnode' as <-. reflexivity.
  - pose proof (trinomial_stored_values T S0 r sigma c K n option_type Hn
                  ltac:(lra) Hsigma) as Einit.
    pose proof (trinomial_stored_values T S0 r sigma c K n "put" Hn
                  ltac:(lra) Hsigma) as Einit'.
    cbv zeta in Einit, Einit'.
    set (tree := TrinomialTree.mk _ _ _ _ _ _ _ _ _ _ _ _ _ _) in Einit.
    set (put := TrinomialTree.mk _ _ _ _ _ _ _ _ _ _ _ _ _ _) in Einit'.
    exists tree, put. split; [exact Einit |]. split; [exact Einit' |].
    intros exercise_style.
    destruct (Rlt_le_dec 0 S0) as [HS0 | HS0].
    + rewrite (trinomial_price_value tree exercise_style);
        [| cbn; lia | exact HS0 | apply Rgt_not_eq, exp_pos].
      rewrite (trinomial_price_value put exercise_style);
        [| cbn; lia | exact HS0 | apply Rgt_not_eq, exp_pos].
      f_equal. symmetry.
      apply trinomial_value_ext; try reflexivity.
      intros S. unfold TrinomialTree._intrinsic. cbn [TrinomialTree.option_type
        TrinomialTree.K put tree].
      rewrite (decide_False (P := "put" = "call")) by discriminate.
      rewrite (decide_False (P := lower option_type = "call")) by exact Hkind.
      reflexivity.
    + unfold TrinomialTree.price. cbv zeta. unfold math.log.
      cbn [TrinomialTree.S0 tree put].
      rewrite decide_True by exact HS0. reflexivity.
Qed.

Lemma lattice_kind_unvalidated_witness :
  (exists tree put,
     BinomialTree.__init__ 1 100 0.05 0.2 0 100 2 "straddle" = Ok tree
     /\ BinomialTree.__init__ 1 100 0.05 0.2 0 100 2 "put" = Ok put
     /\ forall exercise_style,
          BinomialTree.price tree exercise_style
          = BinomialTree.price put exercise_style)
  /\
  (exists tree put,
     TrinomialTree.__init__ 1 100 0.05 0.2 0 100 2 "straddle" = Ok tree
     /\ TrinomialTree.__init__ 1 100 0.05 0.2 0 100 2 "put" = Ok put
     /\ forall exercise_style,
          TrinomialTree.price tree exercise_style
          = TrinomialTree.price put exercise_style).
Proof.
  apply (lattice_kind_unvalidated 1 100 0.05 0.2 0 100 2 "straddle");
    [lia | lra | lra | discriminate].
Defined.

(** ** Barone-Adesi-Whaley: where the pricers return *)

Lemma baw_call_critical_price K r sigma c :
  0 < sigma -> 0 < c < r -> 0 < K ->
  let q2 := (- (r - c - sigma ^ 2 / 2)
             + sqrt ((r - c - sigma ^ 2 / 2) ^ 2 + 2 * r * sigma ^ 2)) / sigma ^ 2 in
  1 < q2 /\ K < K / (1 - 1 / q2).
Proof.
  intros Hsigma [Hc Hcr] HK q2.
  assert (Hr : 0 < r) by lra.
  destruct (baw_q2_bounds r sigma c Hsigma Hr) as (Hq0 & Hq1 & _).
  specialize (Hq1 Hc). fold q2 in Hq0, Hq1.
  assert (Hinv : 0 < 1 / q2 < 1).
  { split; [apply Rdiv_lt_0_compat; lra |].
    apply Rmult_lt_reg_r with q2; [lra |].
    unfold Rdiv. rewrite Rmult_assoc, Rinv_l by lra. lra. }
  split; [exact Hq1 |].
  apply Rmult_lt_reg_r with (1 - 1 / q2); [lra |].
  unfold Rdiv at 2. rewrite Rmult_assoc, Rinv_l by lra.
  assert (0 < K * (1 / q2)) by (apply Rmult_lt_0_compat; lra). lra.
Qed.

Lemma baw_put_critical_price K r sigma c :
  0 < sigma -> 0 < r -> 0 < K ->
  let q1 := (- (r - c - sigma ^ 2 / 2)
             - sqrt ((r - c - sigma ^ 2 / 2) ^ 2 + 2 * r * sigma ^ 2)) / sigma ^ 2 in
  q1 < 0 /\ 0 < K / (1 - 1 / q1) < K.
Proof.
  intros Hsigma Hr HK q1.
  pose proof (baw_q1_neg r sigma c Hsigma Hr) as Hq. fold q1 in Hq.
  assert (Hinv : 1 / q1 < 0).
  { unfold Rdiv. rewrite Rmult_1_l. now apply Rinv_lt_0_compat. }
  split; [exact Hq |].
  split; [apply Rdiv_lt_0_compat; lra |].
  apply Rmult_lt_reg_r with (1 - 1 / q1); [lra |].
  unfold Rdiv at 1. rewrite Rmult_assoc, Rinv_l by lra.
  assert (0 < K * - (1 / q1)) by (apply Rmult_lt_0_compat; lra). lra.
Qed.

Lemma baw_call_returns S K T r sigma c :
  0 < S -> 0 < K -> 0 < T -> 0 < sigma -> 0 < c ->
  exists v, baw_american_call S K T r sigma c = Ok v.
Proof.
  intros HS HK HT Hsigma Hc. unfold baw_american_call.
  case_decide as Hcr.
  { rewrite init_Ok by (auto; left; reflexivity). rewrite bind_Ok.
    apply price_total; auto. }
  assert (Hr : 0 < r) by lra.
  destruct (baw_q2_bounds r sigma c Hsigma Hr) as (Hq0 & Hq1 & _).
  specialize (Hq1 Hc).
  destruct (baw_call_critical_price K r sigma c Hsigma ltac:(lra) HK)
    as (_ & Hstar).
  set (q2 := (- (r - c - sigma ^ 2 / 2)
              + sqrt ((r - c - sigma ^ 2 / 2) ^ 2 + 2 * r * sigma ^ 2)) / sigma ^ 2)
    in *.
  set (S_star := K / (1 - 1 / q2)) in *.
  assert (Hs2 : 0 < sigma ^ 2) by now apply pow_lt.
  pose proof (baw_discriminant_pos r sigma c Hsigma Hr) as HD.
  pose proof (pow2_ge_0 (r - c - sigma ^ 2 / 2)) as Ha2.
  assert (Hinv : 0 < 1 / q2 < 1).
  { split; [apply Rdiv_lt_0_compat; lra |].
    apply Rmult_lt_reg_r with q2; [lra |].
    unfold Rdiv. rewrite Rmult_assoc, Rinv_l by lra. lra. }
  pose proof (sqrt_T_pos T HT) as HsqT.
  step_returns ltac:(apply sqrt_Ok; lra).
  step_returns ltac:(apply truediv_Ok; lra).
  step_returns ltac:(apply truediv_Ok; fold q2; lra).
  step_returns ltac:(apply truediv_Ok; fold q2; lra).
  fold q2 S_star.
  case_decide; [eexists; reflexivity |].
  rewrite init_Ok by (auto; left; reflexivity). rewrite bind_Ok.
  step_returns ltac:(apply price_call_Ok; assumption).
  step_returns ltac:(apply truediv_Ok; lra).
  step_returns ltac:(apply log_Ok; apply Rdiv_lt_0_compat; lra).
  step_returns ltac:(apply sqrt_Ok; lra).
  step_returns ltac:(apply truediv_Ok; apply Rgt_not_eq, Rmult_lt_0_compat; lra).
  step_returns ltac:(apply truediv_Ok; lra).
  step_returns ltac:(apply sqrt_Ok; lra).
  step_returns ltac:(apply truediv_Ok; lra).
  unfold py_pow. rewrite decide_True by (apply Rdiv_lt_0_compat; lra).
  rewrite bind_Ok. eexists. reflexivity.
Qed.

Lemma baw_put_returns S K T r sigma c :
  0 < S -> 0 < K -> 0 < T -> 0 < sigma -> 0 < r ->
  exists v, baw_american_put S K T r sigma c = Ok v.
Proof.
  intros HS HK HT Hsigma Hr. unfold baw_american_put.
  destruct (baw_put_critical_price K r sigma c Hsigma Hr HK) as (Hq & Hstar).
  set (q1 := (- (r - c - sigma ^ 2 / 2)
              - sqrt ((r - c - sigma ^ 2 / 2) ^ 2 + 2 * r * sigma ^ 2)) / sigma ^ 2)
    in *.
  set (S_star := K / (1 - 1 / q1)) in *.
  assert (Hs2 : 0 < sigma ^ 2) by now apply pow_lt.
  pose proof (baw_discriminant_pos r sigma c Hsigma Hr) as HD.
  pose proof (pow2_ge_0 (r - c - sigma ^ 2 / 2)) as Ha2.
  assert (Hinv : 1 / q1 < 0).
  { unfold Rdiv. rewrite Rmult_1_l. now apply Rinv_lt_0_compat. }
  pose proof (sqrt_T_pos T HT) as HsqT.
  step_returns ltac:(apply sqrt_Ok; lra).
  step_returns ltac:(apply truediv_Ok; lra).
  step_returns ltac:(apply truediv_Ok; fold q1; lra).
  step_returns ltac:(apply truediv_Ok; fold q1; lra).
  fold q1 S_star.
  case_decide; [eexists; reflexivity |].
  rewrite init_Ok by (auto; right; reflexivity). rewrite bind_Ok.
  step_returns ltac:(apply price_put_Ok; assumption).
  step_returns ltac:(apply truediv_Ok; lra).
  step_returns ltac:(apply log_Ok; apply Rdiv_lt_0_compat; lra).
  step_returns ltac:(apply sqrt_Ok; lra).
  step_returns ltac:(apply truediv_Ok; apply Rgt_not_eq, Rmult_lt_0_compat; lra).
  step_returns ltac:(apply truediv_Ok; lra).
  step_returns ltac:(apply sqrt_Ok; lra).
  step_returns ltac:(apply truediv_Ok; lra).
  unfold py_pow. rewrite decide_True by (apply Rdiv_lt_0_compat; lra).
  rewrite bind_Ok. eexists. reflexivity.
Qed.

(** X23. Where the Barone-Adesi-Whaley pricers return.  For S, K, T,
    sigma > 0 [baw_american_call] returns a price whenever the yield is
    positive, and [baw_american_put] whenever the rate is positive; on the
    validated fields of [price_option] the model 'baw' then answers a price
    and an empty Greeks mapping, never an error. *)
Theorem baw_returns S K T r sigma c :
  0 < S -> 0 < K -> 0 < T -> 0 < sigma ->
  (0 < c ->
   exists v,
     baw_american_call S K T r sigma c = Ok v
     /\ app.price_option S K T r sigma c "call" "baw"
        = app.json_ok (app.round v 6) ∅)
  /\
  (0 < r ->
   exists v,
     baw_american_put S K T r sigma c = Ok v
     /\ app.price_option S K T r sigma c "put" "baw"
        = app.json_ok (app.round v 6) ∅).
Proof.
  intros HS HK HT Hsigma.
  assert (Hbaw : "baw" ∉ ["bsm"; "baw"] -> False).
  { intros Hn. apply Hn. rewrite !elem_of_cons. tauto. }
  split.
  - intros Hc. destruct (baw_call_returns S K T r sigma c) as [v Hv]; try assumption.
    exists v. split; [exact Hv |].
    unfold app.price_option.
    rewrite (decide_False (P := "call" ∉ ["call"; "put"]))
      by (intros Hn; apply Hn; rewrite !elem_of_cons; tauto).
    rewrite (decide_False (P := "baw" ∉ ["bsm"; "baw"])) by exact Hbaw.
    rewrite (decide_False (P := "baw" = "bsm")) by discriminate.
    rewrite (decide_True (P := "call" = "call")) by reflexivity.
    rewrite Hv. cbn [mbind result_bind]. now rewrite fmap_empty.
  - intros Hr. destruct (baw_put_returns S K T r sigma c) as [v Hv]; try assumption.
    exists v. split; [exact Hv |].
    unfold app.price_option.
    rewrite (decide_False (P := "put" ∉ ["call"; "put"]))
      by (intros Hn; apply Hn; rewrite !elem_of_cons; tauto).
    rewrite (decide_False (P := "baw" ∉ ["bsm"; "baw"])) by exact Hbaw.
    rewrite (decide_False (P := "baw" = "bsm")) by discriminate.
    rewrite (decide_False (P := "put" = "call")) by discriminate.
    rewrite Hv. cbn [mbind result_bind]. now rewrite fmap_empty.
Qed.

Lemma baw_returns_witness :
  (exists v,
     baw_american_call 100 100 1 0.05 0.2 0.02 = Ok v
     /\ app.price_option 100 100 1 0.05 0.2 0.02 "call" "baw"
        = app.json_ok (app.round v 6) ∅)
  /\
  (exists v,
     baw_american_put 100 100 1 0.05 0.2 0.02 = Ok v
     /\ app.price_option 100 100 1 0.05 0.2 0.02 "put" "baw"
        = app.json_ok (app.round v 6) ∅).
Proof.
  destruct (baw_returns 100 100 1 0.05 0.2 0.02) as [Hcall Hput]; [lra .. |].
  split; [apply Hcall | apply Hput]; lra.
Defined.
